(** * Visibility engine and live-query cache of answeroverflow

    A shallow embedding of
    - [packages/database/src/visibility/{compute,anonymize,transform}.ts],
    - [packages/database/convex/shared/visibility.ts] (the read-side
      orchestration around the same functions), and
    - the reference-counted watch cache of [packages/database/src/database.ts],
      and
    - the metadata record of [packages/database/convex/shared/message-builder.ts],
    together with the properties the specification states about them. *)

From Stdlib Require Import ZArith Ascii String List Lia Permutation Sorted.
From Stdlib Require Import DecimalString DecimalZ.
From stdpp Require Import base option list gmap strings.

Import ListNotations.
Local Open Scope Z_scope.
Local Open Scope string_scope.
Local Open Scope list_scope.

(** ** Visibility: compute.ts, anonymize.ts, transform.ts *)

Module Visibility.

(** types.ts *)
Record ServerVisibilityContext := {
  considerAllMessagesPublicEnabled : bool;
  anonymizeMessagesEnabled : bool
}.

Record UserVisibilityContext := {
  canPubliclyDisplayMessages : bool
}.

(** [UserVisibilityContext | null] is [option UserVisibilityContext]. *)
Record VisibilityContext := {
  server : ServerVisibilityContext;
  user : option UserVisibilityContext
}.

(** [DiscordAccount]: the fields the engine reads.  An absent avatar
    ([undefined]) is [None]. *)
Record DiscordAccount := {
  id : string;
  name : string;
  avatar : option string
}.

(** [VisibleAuthor | AnonymousAuthor]: both variants carry the same four
    fields; [sa_avatar = None] is [null]. *)
Record SanitizedAuthor := {
  sa_id : string;
  sa_name : string;
  sa_avatar : option string;
  sa_public : bool
}.

(** The fields of [Message] the engine reads, and the rest of the document
    kept opaque in [content]. *)
Record Message := {
  m_id : string;
  authorId : string;
  serverId : string;
  content : string
}.

(** [Message & { public: boolean }]: the spread [...message] keeps every
    field of the message. *)
Record SanitizedMessage := {
  sm_message : Message;
  sm_public : bool
}.

Record SanitizedPair := {
  message : SanitizedMessage;
  author : option SanitizedAuthor
}.

(** *** compute.ts *)

(** [x ?? false] on [boolean | undefined]. *)
Definition computeServerVisibility
    (considerAll : option bool) (anonymize : option bool)
    : ServerVisibilityContext :=
  {| considerAllMessagesPublicEnabled := default false considerAll;
     anonymizeMessagesEnabled := default false anonymize |}.

Definition computeUserVisibility (canDisplay : option bool)
    : option UserVisibilityContext :=
  match canDisplay with
  | None => None
  | Some b => Some {| canPubliclyDisplayMessages := b |}
  end.

(** [userVisibility?.canPubliclyDisplayMessages ?? false] *)
Definition isMessagePublic
    (serverVisibility : ServerVisibilityContext)
    (userVisibility : option UserVisibilityContext) : bool :=
  if considerAllMessagesPublicEnabled serverVisibility then true
  else default false (canPubliclyDisplayMessages <$> userVisibility).

Definition shouldAnonymizeAuthor
    (serverVisibility : ServerVisibilityContext)
    (userVisibility : option UserVisibilityContext)
    (isPublic : bool) : bool :=
  if negb isPublic then true
  else anonymizeMessagesEnabled serverVisibility.

(** *** anonymize.ts *)

(** ToInt32: the two's-complement reading of the low 32 bits. *)
Definition to_int32 (z : Z) : Z := (z + 2 ^ 31) mod 2 ^ 32 - 2 ^ 31.

Definition charCode (c : ascii) : Z := Z.of_N (N_of_ascii c).

(** One round of the loop body:
    [hash = (hash << 5) - hash + char; hash = hash & hash]. *)
Definition simpleHash_round (hash : Z) (c : ascii) : Z :=
  let char := charCode c in
  let hash := to_int32 (Z.shiftl (to_int32 hash) 5) - hash + char in
  Z.land (to_int32 hash) (to_int32 hash).

Fixpoint simpleHash_loop (hash : Z) (str : string) : Z :=
  match str with
  | EmptyString => hash
  | String c rest => simpleHash_loop (simpleHash_round hash c) rest
  end.

Definition simpleHash (str : string) : Z :=
  Z.abs (simpleHash_loop 0 str).

Definition adjectives : list string :=
  [ "Anonymous"; "Unknown"; "Mysterious"; "Hidden";
    "Secret"; "Private"; "Unnamed"; "Unidentified" ].

(** [adjectives[hash % adjectives.length]]; an index outside the array
    would read [undefined]. *)
Definition generateAnonymousName (authorId : string) : string :=
  let hash := simpleHash authorId in
  let adjective :=
    nth (Z.to_nat (hash mod Z.of_nat (length adjectives))) adjectives
        "undefined" in
  adjective +:+ " User".

(** The object [{ id, name, avatar: null }]. *)
Record AnonymizedFields := {
  an_id : string;
  an_name : string;
  an_avatar : option string
}.

Definition anonymizeAuthor (author : DiscordAccount) : AnonymizedFields :=
  {| an_id := id author;
     an_name := generateAnonymousName (id author);
     an_avatar := None |}.

(** *** transform.ts *)

Definition applyVisibilityToAuthor
    (author : option DiscordAccount)
    (visibility : VisibilityContext)
    (isPublic : bool) : option SanitizedAuthor :=
  match author with
  | None => None
  | Some author =>
      let shouldAnonymize :=
        shouldAnonymizeAuthor (server visibility) (user visibility) isPublic in
      if shouldAnonymize then
        let a := anonymizeAuthor author in
        Some {| sa_id := an_id a; sa_name := an_name a;
                sa_avatar := an_avatar a; sa_public := false |}
      else
        Some {| sa_id := id author; sa_name := name author;
                sa_avatar := avatar author; sa_public := isPublic |}
  end.

(** [authorVisibilityMap.get(k) ?? null] on a
    [Map<string, UserVisibilityContext | null>]: a missing key and a stored
    [null] both read as [null]. *)
Definition getOrNull {A} (m : gmap string (option A)) (k : string)
    : option A :=
  match m !! k with
  | Some (Some v) => Some v
  | _ => None
  end.

(** The body of the [messages.map] callback. *)
Definition sanitizeOne
    (serverVisibility : ServerVisibilityContext)
    (authorMap : gmap string DiscordAccount)
    (authorVisibilityMap : gmap string (option UserVisibilityContext))
    (msg : Message) : SanitizedPair :=
  let author := authorMap !! authorId msg in
  let authorVisibility := getOrNull authorVisibilityMap (authorId msg) in
  let isPublic := isMessagePublic serverVisibility authorVisibility in
  let visibility :=
    {| server := serverVisibility; user := authorVisibility |} in
  let authorVisibilityResult :=
    applyVisibilityToAuthor author visibility isPublic in
  {| message := {| sm_message := msg; sm_public := isPublic |};
     author := authorVisibilityResult |}.

Definition applyVisibilityToMessages
    (messages : list Message)
    (serverVisibility : ServerVisibilityContext)
    (authorMap : gmap string DiscordAccount)
    (authorVisibilityMap : gmap string (option UserVisibilityContext))
    : list SanitizedPair :=
  map (sanitizeOne serverVisibility authorMap authorVisibilityMap) messages.

(** The polynomial in 31 over the code units of a string, from the
    accumulator [acc]: what [simpleHash] computes before wrapping to 32 bits. *)
Fixpoint polynomial31 (acc : Z) (str : string) : Z :=
  match str with
  | EmptyString => acc
  | String c rest => polynomial31 (31 * acc + charCode c) rest
  end.

(** The value of [(hash << 5) - hash + char] before [hash & hash] wraps it:
    the number the floating-point subtraction and addition produce. *)
Definition simpleHash_unwrapped (hash : Z) (c : ascii) : Z :=
  to_int32 (Z.shiftl (to_int32 hash) 5) - hash + charCode c.

(** [applyVisibilityToThread]: the thread with its [public] flag; the fields
    of the thread are kept as they are. *)
Record SanitizedThread (Thread : Type) := {
  st_thread : Thread;
  st_public : bool
}.
Arguments st_thread {Thread} _.
Arguments st_public {Thread} _.

Definition applyVisibilityToThread {Thread : Type} (thread : Thread)
    (serverVisibility : ServerVisibilityContext)
    (userVisibility : option UserVisibilityContext) : SanitizedThread Thread :=
  let isPublic := isMessagePublic serverVisibility userVisibility in
  {| st_thread := thread; st_public := isPublic |}.

(** A message and a server context used in the examples. *)
Definition helloMessage : Message :=
  {| m_id := "m1"; authorId := "a1"; serverId := "s1"; content := "hello" |}.

Definition privateServer : ServerVisibilityContext :=
  {| considerAllMessagesPublicEnabled := false;
     anonymizeMessagesEnabled := false |}.

End Visibility.

(** ** Read-side orchestration: convex/shared/visibility.ts *)

Module Orchestration.
Import Visibility.

(** The documents the orchestration reads.  Optional schema fields
    ([v.optional(v.boolean())]) are [option bool]. *)
Record ServerPreferences := {
  pref_considerAllMessagesPublicEnabled : option bool;
  pref_anonymizeMessagesEnabled : option bool
}.

Record UserServerSettings := {
  us_canPubliclyDisplayMessages : bool
}.

(** The snapshot a query reads through [ctx.db].  [getOneFrom] on the
    [by_serverId] index and [findUserServerSettingsById] (imported from
    [./shared]) both return a document or [null]; they are taken here as the
    two lookups of the snapshot. *)
Record QueryCtx := {
  serverPreferencesByServerId : string -> option ServerPreferences;
  findUserServerSettingsById : string -> string -> option UserServerSettings
}.

(** [serverPreferences?.field]: [undefined] when the document is missing or
    the field is unset. *)
Definition getServerVisibilityContext (ctx : QueryCtx) (sid : string)
    : ServerVisibilityContext :=
  let serverPreferences := serverPreferencesByServerId ctx sid in
  computeServerVisibility
    (serverPreferences ≫= pref_considerAllMessagesPublicEnabled)
    (serverPreferences ≫= pref_anonymizeMessagesEnabled).

(** [Array.from(new Set(xs))]: the first occurrence of every element, in
    order of first occurrence. *)
Fixpoint uniqueFrom (seen : list string) (xs : list string) : list string :=
  match xs with
  | [] => []
  | x :: rest =>
      if bool_decide (x ∈ seen) then uniqueFrom seen rest
      else x :: uniqueFrom (x :: seen) rest
  end.

Definition unique (xs : list string) : list string := uniqueFrom [] xs.

Definition getAuthorVisibilityContexts
    (ctx : QueryCtx) (sid : string) (authorIds : list string)
    : gmap string (option UserVisibilityContext) :=
  let uniqueAuthorIds := unique authorIds in
  fold_left
    (fun authorVisibilityMap aid =>
       let userSettings := findUserServerSettingsById ctx aid sid in
       let userVisibility :=
         computeUserVisibility (us_canPubliclyDisplayMessages <$> userSettings) in
       <[aid := userVisibility]> authorVisibilityMap)
    uniqueAuthorIds ∅.

(** [Map<Id<"servers">, Message[]>] whose iteration order (insertion order of
    the keys) matters: an association list in insertion order. *)
Definition ServerGroups := list (string * list Message).

Fixpoint has (groups : ServerGroups) (sid : string) : bool :=
  match groups with
  | [] => false
  | (k, _) :: rest => if bool_decide (k = sid) then true else has rest sid
  end.

(** [messagesByServer.get(serverId)!.push(message)]: the array stored under
    the key grows in place; the key keeps its position. *)
Fixpoint push (groups : ServerGroups) (sid : string) (msg : Message)
    : ServerGroups :=
  match groups with
  | [] => []
  | (k, ms) :: rest =>
      if bool_decide (k = sid) then (k, ms ++ [msg]) :: rest
      else (k, ms) :: push rest sid msg
  end.

(** One round of the grouping loop. *)
Definition groupStep (groups : ServerGroups) (msg : Message) : ServerGroups :=
  let sid := serverId msg in
  let groups := if has groups sid then groups else groups ++ [(sid, [])] in
  push groups sid msg.

Definition groupByServer (messages : list Message) : ServerGroups :=
  fold_left groupStep messages [].

(** [new Map(serverAuthorIds.map(...).filter(...))]: the entries of
    [authorMap] for the ids of this server's authors, inserted in order. *)
Definition restrictAuthors
    (authorMap : gmap string DiscordAccount) (ids : list string)
    : gmap string DiscordAccount :=
  fold_left
    (fun serverAuthorMap aid =>
       match authorMap !! aid with
       | Some a => <[aid := a]> serverAuthorMap
       | None => serverAuthorMap
       end)
    ids ∅.

(** The callback run for every [serverId, serverMessages] entry. *)
Definition sanitizeGroup
    (ctx : QueryCtx) (authorMap : gmap string DiscordAccount)
    (entry : string * list Message) : list SanitizedPair :=
  let '(sid, serverMessages) := entry in
  let serverAuthorIds := unique (map authorId serverMessages) in
  let serverVisibility := getServerVisibilityContext ctx sid in
  let authorVisibilityMap :=
    getAuthorVisibilityContexts ctx sid serverAuthorIds in
  let serverAuthorMap := restrictAuthors authorMap serverAuthorIds in
  applyVisibilityToMessages
    serverMessages serverVisibility serverAuthorMap authorVisibilityMap.

(** [Promise.all] keeps the order of the entries; [.flat()] concatenates. *)
Definition getSanitizedMessages
    (ctx : QueryCtx) (messages : list Message)
    (authorMap : gmap string DiscordAccount) : list SanitizedPair :=
  match messages with
  | [] => []
  | _ =>
      let messagesByServer := groupByServer messages in
      let sanitizedMessagesByServer :=
        map (sanitizeGroup ctx authorMap) messagesByServer in
      concat sanitizedMessagesByServer
  end.

Definition getSanitizedMessagesForServer
    (ctx : QueryCtx) (messages : list Message) (sid : string)
    (authorMap : gmap string DiscordAccount) : list SanitizedPair :=
  match messages with
  | [] => []
  | _ =>
      let authorIds := unique (map authorId messages) in
      let serverVisibility := getServerVisibilityContext ctx sid in
      let authorVisibilityMap :=
        getAuthorVisibilityContexts ctx sid authorIds in
      applyVisibilityToMessages
        messages serverVisibility authorMap authorVisibilityMap
  end.

(** [getVisibilityContext]: the context of one user on one server.
    [if (userId)] skips the settings read for [null] and for the empty
    string. *)
Definition getVisibilityContext (ctx : QueryCtx) (sid : string)
    (userId : option string) : VisibilityContext :=
  let serverVisibility := getServerVisibilityContext ctx sid in
  let userVisibility :=
    match userId with
    | Some uid =>
        if bool_decide (uid = "") then None
        else
          let userSettings := findUserServerSettingsById ctx uid sid in
          computeUserVisibility (us_canPubliclyDisplayMessages <$> userSettings)
    | None => None
    end in
  {| server := serverVisibility; user := userVisibility |}.

(** The pair a message gets when it is judged under the rules of server
    [sid]: that server's preferences, the author's settings on that server,
    and the author's account from the author map. *)
Definition judge (ctx : QueryCtx) (authorMap : gmap string DiscordAccount)
    (sid : string) (msg : Message) : SanitizedPair :=
  let serverVisibility := getServerVisibilityContext ctx sid in
  let userVisibility :=
    computeUserVisibility
      (us_canPubliclyDisplayMessages
         <$> findUserServerSettingsById ctx (authorId msg) sid) in
  let isPublic := isMessagePublic serverVisibility userVisibility in
  {| message := {| sm_message := msg; sm_public := isPublic |};
     author :=
       applyVisibilityToAuthor
         (authorMap !! authorId msg)
         {| server := serverVisibility; user := userVisibility |}
         isPublic |}.

(** The original message under a sanitized pair. *)
Definition original (p : SanitizedPair) : Message := sm_message (message p).

(** The groups by server, as the specification describes them: the servers
    in order of first occurrence, each with its messages in input order. *)
Definition groupsInOrder (messages : list Message) : ServerGroups :=
  map (fun sid => (sid, filter (fun m => serverId m = sid) messages))
      (unique (map serverId messages)).

(** An interleaved input: two servers, the first one again after the
    second; and a snapshot without any preference or setting. *)
Definition interleaved : list Message :=
  [ {| m_id := "m1"; authorId := "a1"; serverId := "sA"; content := "one" |};
    {| m_id := "m2"; authorId := "a2"; serverId := "sB"; content := "two" |};
    {| m_id := "m3"; authorId := "a1"; serverId := "sA"; content := "three" |} ].

(** Two messages of one server. *)
Definition sameServer : list Message :=
  [ {| m_id := "m1"; authorId := "a1"; serverId := "sA"; content := "one" |};
    {| m_id := "m2"; authorId := "a2"; serverId := "sA"; content := "two" |} ].

Definition emptyCtx : QueryCtx :=
  {| serverPreferencesByServerId := fun _ => None;
     findUserServerSettingsById := fun _ _ => None |}.

End Orchestration.

(** ** Cache keys: [JSON.stringify({ functionName, args })] *)

Module Json.

#[local] Set Warnings "-register-all".

(** The values a query takes as arguments and returns: JSON data.  Numbers
    are the safe integers (those of absolute value up to 2^53 - 1, which are
    exact as numbers and which [JSON.stringify] prints in plain decimal
    digits); strings are sequences of code units below 256.  An object is
    given by its own properties in the order of their creation, which is the
    order its literal lists them in; the keys of an object are pairwise
    distinct.  [wellFormed] below says when a term denotes such a value. *)
Inductive value :=
| JNull
| JBool (b : bool)
| JNum (n : Z)
| JStr (s : string)
| JArr (items : list value)
| JObj (fields : list (string * value)).

Definition chars (s : string) : list ascii := list_ascii_of_string s.

Definition dquote : ascii := ascii_of_N 34.
Definition backslash : ascii := ascii_of_N 92.

Definition hexDigit (n : N) : ascii :=
  nth (N.to_nat n) (chars "0123456789abcdef") "0"%char.

(** QuoteJSONString, one code unit: the two-character escapes, [\u00xx] for
    the other control characters, everything else literally. *)
Definition quoteChar (c : ascii) : list ascii :=
  let code := N_of_ascii c in
  if (code =? 8)%N then chars "\b"
  else if (code =? 9)%N then chars "\t"
  else if (code =? 10)%N then chars "\n"
  else if (code =? 12)%N then chars "\f"
  else if (code =? 13)%N then chars "\r"
  else if (code =? 34)%N then [backslash; dquote]
  else if (code =? 92)%N then [backslash; backslash]
  else if (code <? 32)%N then
    chars "\u00" ++ [hexDigit (code / 16); hexDigit (code mod 16)]
  else [c].

Fixpoint quoteBody (s : string) : list ascii :=
  match s with
  | EmptyString => []
  | String c rest => quoteChar c ++ quoteBody rest
  end.

Definition quoteJSONString (s : string) : list ascii :=
  dquote :: quoteBody s ++ [dquote].

(** Number::toString on a safe integer. *)
Definition numberToString (n : Z) : list ascii :=
  chars (NilZero.string_of_int (Z.to_int n)).

(** The elements of an array or the members of an object, separated by
    commas. *)
Fixpoint joinComma (parts : list (list ascii)) : list ascii :=
  match parts with
  | [] => []
  | p :: rest =>
      p ++ match rest with
           | [] => []
           | _ => ","%char :: joinComma rest
           end
  end.

(** Decimal digits, and the number a string of them denotes. *)
Definition isDigit (c : ascii) : bool :=
  (48 <=? N_of_ascii c)%N && (N_of_ascii c <=? 57)%N.

Fixpoint digitsValue (acc : N) (s : string) : option N :=
  match s with
  | EmptyString => Some acc
  | String c rest =>
      if isDigit c then digitsValue (10 * acc + (N_of_ascii c - 48)) rest
      else None
  end.

(** An array index: a property key that is the canonical numeral (no
    leading zero) of an integer from 0 to 2^32 - 2. *)
Definition arrayIndex (key : string) : option N :=
  match key with
  | EmptyString => None
  | String c rest =>
      if Ascii.eqb c "0" && negb (String.eqb rest EmptyString) then None
      else
        match digitsValue 0 key with
        | Some n => if (n <=? 4294967294)%N then Some n else None
        | None => None
        end
  end.

Definition isArrayIndex (key : string) : bool :=
  match arrayIndex key with
  | Some _ => true
  | None => false
  end.

Fixpoint insertByIndex {A : Type} (x : N * A) (sorted : list (N * A))
    : list (N * A) :=
  match sorted with
  | [] => [x]
  | y :: rest =>
      if (fst x <? fst y)%N then x :: sorted else y :: insertByIndex x rest
  end.

Definition sortByIndex {A : Type} (l : list (N * A)) : list (N * A) :=
  fold_right insertByIndex [] l.

(** The array indices among the properties of an object, each with its
    number. *)
Fixpoint indexed {A : Type} (fields : list (string * A))
    : list (N * (string * A)) :=
  match fields with
  | [] => []
  | kv :: rest =>
      match arrayIndex (fst kv) with
      | Some i => (i, kv) :: indexed rest
      | None => indexed rest
      end
  end.

(** The other properties. *)
Fixpoint named {A : Type} (fields : list (string * A)) : list (string * A) :=
  match fields with
  | [] => []
  | kv :: rest =>
      if isArrayIndex (fst kv) then named rest else kv :: named rest
  end.

(** The order in which [JSON.stringify] visits the properties of an object
    (EnumerableOwnProperties over OrdinaryOwnPropertyKeys): the array
    indices in ascending numeric order, then the other keys in the order of
    their creation. *)
Definition ownProperties {A : Type} (fields : list (string * A))
    : list (string * A) :=
  map snd (sortByIndex (indexed fields)) ++ named fields.

(** Ascending numeric order of two properties whose keys are array
    indices. *)
Definition indexLe {A : Type} (x y : string * A) : Prop :=
  forall n m,
    arrayIndex (fst x) = Some n -> arrayIndex (fst y) = Some m -> (n <= m)%N.

(** SerializeJSONProperty with no indentation. *)
Fixpoint serialize (v : value) : list ascii :=
  match v with
  | JNull => chars "null"
  | JBool true => chars "true"
  | JBool false => chars "false"
  | JNum n => numberToString n
  | JStr s => quoteJSONString s
  | JArr items =>
      "["%char :: joinComma (map serialize items) ++ ["]"%char]
  | JObj fields =>
      "{"%char ::
        joinComma
          (map (fun kp => quoteJSONString (fst kp) ++ ":"%char :: snd kp)
               (ownProperties
                  (map (fun kv => (fst kv, serialize (snd kv))) fields)))
        ++ ["}"%char]
  end.

Definition stringify (v : value) : string :=
  string_of_list_ascii (serialize v).

(** [FunctionReference<"query">]; [getFunctionName] reads the name the
    reference stands for. *)
Record FunctionReference := { functionName : string }.

Definition getFunctionName (query : FunctionReference) : string :=
  functionName query.

(** The [cacheKey] computed by [watchRequest]. *)
Definition cacheKeyOf (query : FunctionReference) (args : value) : string :=
  let functionName := getFunctionName query in
  stringify (JObj [("functionName", JStr functionName); ("args", args)]).

(** The terms that denote a value: every number is a safe integer and the
    keys of every object are pairwise distinct. *)
Definition safeInteger (n : Z) : bool := (Z.abs n <=? 2 ^ 53 - 1)%Z.

Fixpoint wellFormed (v : value) : bool :=
  match v with
  | JNull | JBool _ | JStr _ => true
  | JNum n => safeInteger n
  | JArr items => forallb wellFormed items
  | JObj fields =>
      bool_decide (NoDup (map fst fields))
      && forallb (fun kv => wellFormed (snd kv)) fields
  end.

(** A value with the properties of every object listed in the order
    [JSON.stringify] visits them. *)
Fixpoint enumerated (v : value) : value :=
  match v with
  | JArr items => JArr (map enumerated items)
  | JObj fields =>
      JObj (ownProperties
              (map (fun kv => (fst kv, enumerated (snd kv))) fields))
  | _ => v
  end.

(** The serialization of a value whose objects already list their
    properties in that order. *)
Fixpoint serializeListed (v : value) : list ascii :=
  match v with
  | JNull => chars "null"
  | JBool true => chars "true"
  | JBool false => chars "false"
  | JNum n => numberToString n
  | JStr s => quoteJSONString s
  | JArr items =>
      "["%char :: joinComma (map serializeListed items) ++ ["]"%char]
  | JObj fields =>
      "{"%char ::
        joinComma
          (map (fun kv =>
                  quoteJSONString (fst kv) ++ ":"%char :: serializeListed (snd kv))
               fields)
        ++ ["}"%char]
  end.

(** Structural equality of argument values in which the order of the keys
    of an object does not count (objects have pairwise distinct keys). *)
Fixpoint assoc (k : string) (fields : list (string * value)) : option value :=
  match fields with
  | [] => None
  | (k', v) :: rest => if bool_decide (k' = k) then Some v else assoc k rest
  end.

Fixpoint structEq (v1 v2 : value) : bool :=
  match v1, v2 with
  | JNull, JNull => true
  | JBool b1, JBool b2 => bool_decide (b1 = b2)
  | JNum n1, JNum n2 => bool_decide (n1 = n2)
  | JStr s1, JStr s2 => bool_decide (s1 = s2)
  | JArr l1, JArr l2 =>
      (fix all2 (l1 l2 : list value) : bool :=
         match l1, l2 with
         | [], [] => true
         | x :: l1', y :: l2' => structEq x y && all2 l1' l2'
         | _, _ => false
         end) l1 l2
  | JObj f1, JObj f2 =>
      bool_decide (length f1 = length f2) &&
      forallb
        (fun kv =>
           match assoc (fst kv) f2 with
           | Some v' => structEq (snd kv) v'
           | None => false
           end)
        f1
  | _, _ => false
  end.

(** *** Classification of the characters of a serialization *)

(** The characters of a printed integer. *)
Definition isNumChar (c : ascii) : bool :=
  existsb (Ascii.eqb c) (chars "-0123456789").

(** What can follow a serialized value inside a serialization: nothing, or
    a character that does not continue a number. *)
Definition delimited (r : list ascii) : Prop :=
  match r with
  | [] => True
  | c :: _ => isNumChar c = false
  end.

(** The constructor of a value, and the constructor announced by the first
    character of a serialization. *)
Definition tag (v : value) : nat :=
  match v with
  | JNull => 0
  | JBool true => 1
  | JBool false => 2
  | JNum _ => 3
  | JStr _ => 4
  | JArr _ => 5
  | JObj _ => 6
  end%nat.

Definition tagOfChar (c : ascii) : nat :=
  (if Ascii.eqb c "n" then 0
   else if Ascii.eqb c "t" then 1
   else if Ascii.eqb c "f" then 2
   else if isNumChar c then 3
   else if Ascii.eqb c dquote then 4
   else if Ascii.eqb c "[" then 5
   else if Ascii.eqb c "{" then 6
   else 7)%nat.

Definition allAscii : list ascii := map ascii_of_nat (seq 0 256).

Fixpoint prefixb (l1 l2 : list ascii) : bool :=
  match l1, l2 with
  | [], _ => true
  | c1 :: l1', c2 :: l2' => Ascii.eqb c1 c2 && prefixb l1' l2'
  | _ :: _, [] => false
  end.

(** The part of [joinComma] after the first element. *)
Definition joinTail (parts : list (list ascii)) : list ascii :=
  match parts with
  | [] => []
  | _ => ","%char :: joinComma parts
  end.

(** An element [x] printed by [f] can be read off the front of what it is
    printed into: what follows it is determined, and so is [x]. *)
Definition readable {A : Type} (f : A -> list ascii) (x : A) : Prop :=
  forall y t1 t2,
    delimited t1 -> delimited t2 ->
    f x ++ t1 = f y ++ t2 -> x = y /\ t1 = t2.

(** Two argument objects with the same members in a different order. *)
Definition argsAB : value := JObj [("a", JNum 1); ("b", JNum 2)].
Definition argsBA : value := JObj [("b", JNum 2); ("a", JNum 1)].

(** The same with keys that are array indices. *)
Definition args21 : value := JObj [("2", JNum 1); ("1", JNum 2)].
Definition args12 : value := JObj [("1", JNum 2); ("2", JNum 1)].

End Json.

(** ** The live-query cache: database.ts *)

Module LiveQuery.
Import Json.

(** [FunctionReturnType<Query>] and the error of the backend client. *)
Definition Value := value.
Definition ConvexError := string.

Inductive Exit (A : Type) :=
| Success (a : A)
| Failure (e : ConvexError).
Arguments Success {A} a.
Arguments Failure {A} e.

(** The backend client behind [convexClient.use]: what [client.query]
    answers, and whether [client.onUpdate] registers the watch ([None]) or
    fails. *)
Record ConvexClient := {
  client_query : FunctionReference -> value -> Exit Value;
  client_onUpdate : FunctionReference -> value -> option ConvexError
}.

(** Objects are named by their position in the store that holds them. *)
Abbreviation LiveDataRef := nat (only parsing).
Abbreviation WatchRef := nat (only parsing).

(** One watch set up by the resolver: the closure variables [currentValue]
    and [callbacks] shared by the [client.onUpdate] callback and the
    [LiveData] built over them, and whether the upstream subscription is
    still registered (the handle returned by [client.onUpdate] has not been
    called).  Every member of [callbacks] is the update closure made by the
    constructor of the [LiveData] it names, in insertion order. *)
Record Watch := {
  w_query : FunctionReference;
  w_args : value;
  currentValue : option Value;
  callbacks : list LiveDataRef;
  subscribed : bool
}.

(** [class LiveData]: [_data], and the private [unsubscribe] closure, which
    deletes this object's update callback from the [callbacks] of the watch
    it names ([None] is [undefined]). *)
Record LiveData := {
  _data : option Value;
  ld_unsubscribe : option WatchRef
}.

(** [type ActiveWatch]; [unsubscribe] is the handle of the upstream
    subscription of the watch named. *)
Record ActiveWatch := {
  liveData : LiveDataRef;
  unsubscribe : WatchRef;
  refCount : Z
}.

Record WatchRequest := {
  query : FunctionReference;
  args : value;
  cacheKey : string
}.

Definition watchRequest (query : FunctionReference) (args : value)
    : WatchRequest :=
  {| query := query; args := args; cacheKey := cacheKeyOf query args |}.

(** The state of the service: the [activeWatches] map, the module-level
    [liveDataCacheKeys] WeakMap (keyed by object identity), the [LiveData]
    objects and watches created so far, and the log of [client.query] calls
    issued (most recent first). *)
Record State := {
  activeWatches : gmap string ActiveWatch;
  liveDataCacheKeys : gmap LiveDataRef string;
  liveDatas : list LiveData;
  watches : list Watch;
  queryLog : list (FunctionReference * value)
}.

Definition initial : State :=
  {| activeWatches := ∅; liveDataCacheKeys := ∅;
     liveDatas := []; watches := []; queryLog := [] |}.

(** [a ?? b]: [b] when [a] is [null] or [undefined]. *)
Definition nullish (a : option Value) : bool :=
  match a with
  | None | Some JNull => true
  | Some _ => false
  end.

(** [new LiveData(getCurrentValue, onUpdate, initialData)] over the closure
    variables of watch [w], whose [currentValue] reads [current]. *)
Definition newLiveData (current : option Value) (w : WatchRef)
    (initialData : option Value) : LiveData :=
  {| _data := if nullish initialData then current else initialData;
     ld_unsubscribe := Some w |}.

(** The body of the resolver's loop for one request. *)
Definition resolveRequest (client : ConvexClient) (request : WatchRequest)
    (st : State) : State * Exit LiveDataRef :=
  match activeWatches st !! cacheKey request with
  | Some existing =>
      let existing :=
        {| liveData := liveData existing;
           unsubscribe := unsubscribe existing;
           refCount := refCount existing + 1 |} in
      ({| activeWatches := <[cacheKey request := existing]> (activeWatches st);
          liveDataCacheKeys := liveDataCacheKeys st;
          liveDatas := liveDatas st;
          watches := watches st;
          queryLog := queryLog st |},
       Success (liveData existing))
  | None =>
      let st :=
        {| activeWatches := activeWatches st;
           liveDataCacheKeys := liveDataCacheKeys st;
           liveDatas := liveDatas st;
           watches := watches st;
           queryLog := (query request, args request) :: queryLog st |} in
      match client_query client (query request) (args request) with
      | Failure e => (st, Failure e)
      | Success initialValue =>
          let currentValue := Some initialValue in
          match client_onUpdate client (query request) (args request) with
          | Some e => (st, Failure e)
          | None =>
              let w := length (watches st) in
              let ld := length (liveDatas st) in
              let watch :=
                {| w_query := query request; w_args := args request;
                   currentValue := currentValue;
                   callbacks := [ld];
                   subscribed := true |} in
              ({| activeWatches :=
                    <[cacheKey request :=
                        {| liveData := ld; unsubscribe := w; refCount := 1 |}]>
                      (activeWatches st);
                  liveDataCacheKeys := liveDataCacheKeys st;
                  liveDatas :=
                    liveDatas st ++ [newLiveData currentValue w currentValue];
                  watches := watches st ++ [watch];
                  queryLog := queryLog st |},
               Success ld)
          end
      end
  end.

(** [watchResolver]: the requests of a batch, one after the other. *)
Fixpoint watchResolver (client : ConvexClient) (requests : list WatchRequest)
    (st : State) : State * list (Exit LiveDataRef) :=
  match requests with
  | [] => (st, [])
  | request :: rest =>
      let '(st, result) := resolveRequest client request st in
      let '(st, results) := watchResolver client rest st in
      (st, result :: results)
  end.

(** The acquire half of [watchQueryToLiveData]: the request goes through the
    resolver, and on success the cache key is recorded for the [LiveData]. *)
Definition acquire (client : ConvexClient) (q : FunctionReference)
    (queryArgs : value) (st : State) : State * Exit LiveDataRef :=
  let request := watchRequest q queryArgs in
  match resolveRequest client request st with
  | (st, Success ld) =>
      ({| activeWatches := activeWatches st;
          liveDataCacheKeys := <[ld := cacheKey request]> (liveDataCacheKeys st);
          liveDatas := liveDatas st;
          watches := watches st;
          queryLog := queryLog st |},
       Success ld)
  | (st, Failure e) => (st, Failure e)
  end.

(** [LiveData.destroy]. *)
Definition destroy (ld : LiveDataRef) (st : State) : State :=
  match liveDatas st !! ld with
  | Some obj =>
      match ld_unsubscribe obj with
      | Some w =>
          {| activeWatches := activeWatches st;
             liveDataCacheKeys := liveDataCacheKeys st;
             liveDatas :=
               <[ld := {| _data := _data obj; ld_unsubscribe := None |}]>
                 (liveDatas st);
             watches :=
               alter
                 (fun watch =>
                    {| w_query := w_query watch; w_args := w_args watch;
                       currentValue := currentValue watch;
                       callbacks :=
                         filter (fun cb => cb ≠ ld) (callbacks watch);
                       subscribed := subscribed watch |})
                 w (watches st);
             queryLog := queryLog st |}
      | None => st
      end
  | None => st
  end.

(** Calling the handle returned by [client.onUpdate]. *)
Definition unsubscribeUpstream (w : WatchRef) (ws : list Watch) : list Watch :=
  alter
    (fun watch =>
       {| w_query := w_query watch; w_args := w_args watch;
          currentValue := currentValue watch;
          callbacks := callbacks watch;
          subscribed := false |})
    w ws.

(** The release half of [watchQueryToLiveData], first part: the block under
    [if (cacheKey)], which counts the acquisition down and forgets the cache
    key of the [LiveData]. *)
Definition releaseWatch (ld : LiveDataRef) (st : State) : State :=
  match liveDataCacheKeys st !! ld with
  | Some cacheKey =>
      if bool_decide (cacheKey = "") then st
      else
        let st :=
          match activeWatches st !! cacheKey with
          | Some watch =>
              let refCount := refCount watch - 1 in
              if bool_decide (refCount = 0) then
                {| activeWatches := delete cacheKey (activeWatches st);
                   liveDataCacheKeys := liveDataCacheKeys st;
                   liveDatas := liveDatas st;
                   watches := unsubscribeUpstream (unsubscribe watch) (watches st);
                   queryLog := queryLog st |}
              else
                {| activeWatches :=
                     <[cacheKey :=
                         {| liveData := liveData watch;
                            unsubscribe := unsubscribe watch;
                            refCount := refCount |}]> (activeWatches st);
                   liveDataCacheKeys := liveDataCacheKeys st;
                   liveDatas := liveDatas st;
                   watches := watches st;
                   queryLog := queryLog st |}
          | None => st
          end in
        {| activeWatches := activeWatches st;
           liveDataCacheKeys := delete ld (liveDataCacheKeys st);
           liveDatas := liveDatas st;
           watches := watches st;
           queryLog := queryLog st |}
  | None => st
  end.

(** The release: that block, then [liveData.destroy()]. *)
Definition release (ld : LiveDataRef) (st : State) : State :=
  destroy ld (releaseWatch ld st).

(** The update closure a [LiveData] registers:
    [newData = getCurrentValue(); if (newData !== undefined) _data = newData]. *)
Definition runCallback (newData : option Value) (lds : list LiveData)
    (ld : LiveDataRef) : list LiveData :=
  match newData with
  | Some v =>
      alter (fun obj => {| _data := Some v;
                           ld_unsubscribe := ld_unsubscribe obj |}) ld lds
  | None => lds
  end.

(** The upstream watch of [w] fires with [result]: the callback handed to
    [client.onUpdate] stores it and runs every registered callback.  A
    subscription whose handle has been called is not invoked any more. *)
Definition upstreamUpdate (w : WatchRef) (result : Value) (st : State)
    : State :=
  match watches st !! w with
  | Some watch =>
      if subscribed watch then
        let currentValue := Some result in
        {| activeWatches := activeWatches st;
           liveDataCacheKeys := liveDataCacheKeys st;
           liveDatas :=
             fold_left (runCallback currentValue) (callbacks watch)
                       (liveDatas st);
           watches :=
             <[w := {| w_query := w_query watch; w_args := w_args watch;
                       currentValue := currentValue;
                       callbacks := callbacks watch;
                       subscribed := true |}]> (watches st);
           queryLog := queryLog st |}
      else st
  | None => st
  end.

(** The [data] getter. *)
Definition data (st : State) (ld : LiveDataRef) : option Value :=
  liveDatas st !! ld ≫= _data.

(** *** Scopes

    [Effect.acquireRelease] leaves the release of every successful
    acquisition with the scope it was made in.  A session is the service
    together with the acquisitions whose release has not run yet, each
    remembered with the cache key it was made under. *)
Record Session := {
  service : State;
  held : list (string * LiveDataRef)
}.

Inductive Op :=
| Acquire (q : FunctionReference) (queryArgs : value)
| Release (ld : LiveDataRef)
| Update (w : WatchRef) (result : Value).

Fixpoint removeHeld (ld : LiveDataRef) (hs : list (string * LiveDataRef))
    : list (string * LiveDataRef) :=
  match hs with
  | [] => []
  | (k, l) :: rest =>
      if bool_decide (l = ld) then rest else (k, l) :: removeHeld ld rest
  end.

(** One event: an acquisition, the closing of a scope that holds an
    acquisition of [ld] (which runs its release), or the upstream watch [w]
    firing.  The events of a session happen one after the other: an
    acquisition has gone through the resolver and recorded its cache key
    before the next event starts.  The resolver suspends at [client.query]
    and at [client.onUpdate]; acquisitions that overlap there (a second one
    looking the key up before the first has stored its entry) are not
    sessions of [run]. *)
Definition step (client : ConvexClient) (s : Session) (op : Op) : Session :=
  match op with
  | Acquire q queryArgs =>
      match acquire client q queryArgs (service s) with
      | (st, Success ld) =>
          {| service := st;
             held := held s ++ [(cacheKeyOf q queryArgs, ld)] |}
      | (st, Failure _) => {| service := st; held := held s |}
      end
  | Release ld =>
      if bool_decide (ld ∈ map snd (held s)) then
        {| service := release ld (service s);
           held := removeHeld ld (held s) |}
      else s
  | Update w result =>
      {| service := upstreamUpdate w result (service s); held := held s |}
  end.

Definition run (client : ConvexClient) (ops : list Op) : Session :=
  fold_left (step client) ops {| service := initial; held := [] |}.

(** The number of outstanding acquisitions of a cache key. *)
Definition holders (key : string) (hs : list (string * LiveDataRef)) : Z :=
  Z.of_nat (length (filter (fun h => fst h = key) hs)).

Definition outstanding (key : string) (s : Session) : Z :=
  holders key (held s).

(** *** Invariants of the sessions that can be reached

    [counted]: every entry names an existing [LiveData] and counts at least
    1; different keys have different [LiveData]; a recorded cache key leads
    to the entry of its [LiveData]; and every outstanding acquisition finds
    the entry of its key, over the [LiveData] it holds, counting at least
    the outstanding acquisitions of the key. *)
Record counted (s : Session) : Prop := {
  counted_entry :
    forall k w, activeWatches (service s) !! k = Some w ->
      (liveData w < length (liveDatas (service s)))%nat /\ 1 <= refCount w;
  counted_distinct :
    forall k1 k2 w1 w2,
      activeWatches (service s) !! k1 = Some w1 ->
      activeWatches (service s) !! k2 = Some w2 ->
      liveData w1 = liveData w2 -> k1 = k2;
  counted_key :
    forall ld k, liveDataCacheKeys (service s) !! ld = Some k ->
      k <> "" /\
      exists w, activeWatches (service s) !! k = Some w /\ liveData w = ld;
  counted_held :
    forall k ld, (k, ld) ∈ held s ->
      exists w, activeWatches (service s) !! k = Some w /\
                liveData w = ld /\ outstanding k s <= refCount w
}.

(** [wired]: a callback registered with a watch belongs to a [LiveData]
    whose [unsubscribe] closure names that watch. *)
Definition wired (st : State) : Prop :=
  forall w watch ld,
    watches st !! w = Some watch -> ld ∈ callbacks watch ->
    exists obj, liveDatas st !! ld = Some obj /\ ld_unsubscribe obj = Some w.

(** The query and documents of the scenarios of database.test.ts. *)
Definition publicGetServerByDiscordId : FunctionReference :=
  {| functionName := "servers:publicGetServerByDiscordId" |}.

Definition discordId123 : value := JObj [("discordId", JStr "123")].

Definition serverDoc (description : string) : Value :=
  JObj [("discordId", JStr "123"); ("description", JStr description)].

Definition testClient : ConvexClient :=
  {| client_query := fun _ _ => Success (serverDoc "Test Description");
     client_onUpdate := fun _ _ => None |}.

Definition failingClient : ConvexClient :=
  {| client_query := fun _ _ => Failure "Simulated ConvexError";
     client_onUpdate := fun _ _ => None |}.

Definition acquire123 : Op := Acquire publicGetServerByDiscordId discordId123.

Definition key123 : string :=
  cacheKeyOf publicGetServerByDiscordId discordId123.

(** [paired]: [LiveData] objects and watches are created together, so an
    entry's watch has the position of its [LiveData], and the callbacks
    registered with a watch are those of the [LiveData] at its position. *)
Definition paired (st : State) : Prop :=
  length (liveDatas st) = length (watches st) /\
  (forall k e, activeWatches st !! k = Some e -> unsubscribe e = liveData e) /\
  (forall w watch ld,
     watches st !! w = Some watch -> ld ∈ callbacks watch -> ld = w).

(** [extractArgs]: [args[0] ?? {}] on the rest arguments of a call. *)
Definition extractArgs (restArgs : list value) : value :=
  match restArgs with
  | [] => JObj []
  | JNull :: _ => JObj []
  | first :: _ => first
  end.

(** The sessions of the scenarios: three acquisitions; two of the three
    released; all three released; and two acquisitions, one released, then
    an upstream update. *)
Definition threeAcquired : Session :=
  run testClient [acquire123; acquire123; acquire123].

Definition twoOfThreeReleased : Session :=
  run testClient
      [acquire123; acquire123; acquire123; Release 0%nat; Release 0%nat].

Definition allThreeReleased : Session :=
  run testClient
      [acquire123; acquire123; acquire123;
       Release 0%nat; Release 0%nat; Release 0%nat].

Definition updatedAfterRelease : Session :=
  run testClient
      [acquire123; acquire123; Release 0%nat; Update 0%nat (serverDoc "new")].

(** The session in which one key is shared: a single entry for the key of
    [q] and [queryArgs] with the given count, over the first [LiveData] and
    the first watch, holding [v].  With [live] the [LiveData] is still
    registered with the watch and its cache key is recorded; without, it has
    been destroyed and its cache key forgotten.  [holders] acquisitions are
    outstanding. *)
Definition sharedState (q : FunctionReference) (queryArgs : value)
    (v : Value) (count : Z) (live : bool) : State :=
  {| activeWatches :=
       <[cacheKeyOf q queryArgs :=
           {| liveData := 0%nat; unsubscribe := 0%nat; refCount := count |}]> ∅;
     liveDataCacheKeys :=
       if live then <[0%nat := cacheKeyOf q queryArgs]> ∅ else ∅;
     liveDatas :=
       [{| _data := Some v;
           ld_unsubscribe := if live then Some 0%nat else None |}];
     watches :=
       [{| w_query := q; w_args := queryArgs; currentValue := Some v;
           callbacks := if live then [0%nat] else [];
           subscribed := true |}];
     queryLog := [(q, queryArgs)] |}.

Definition sharedSession (q : FunctionReference) (queryArgs : value)
    (v : Value) (count : Z) (live : bool) (holders : nat) : Session :=
  {| service := sharedState q queryArgs v count live;
     held := replicate holders (cacheKeyOf q queryArgs, 0%nat) |}.

End LiveQuery.

(** ** Message metadata: convex/shared/message-builder.ts *)

Module MessageBuilder.

(** The entries of [MessageMetadata]: a mentioned user, a mentioned channel
    and the metadata of an internal link ([original] is the text of the
    link; the guild, channel and message it leads to are kept opaque). *)
Record UserMeta := {
  username : string;
  globalName : option string;
  um_url : string
}.

Record ChannelMeta := {
  cm_name : string;
  cm_type : Z;
  cm_url : string;
  indexingEnabled : option bool;
  cm_exists : option bool
}.

Record InternalLink := {
  il_original : string;
  il_target : string
}.

(** A Discord id (snowflake): a non-empty string of decimal digits. *)
Definition snowflake (id : string) : bool :=
  negb (String.eqb id EmptyString)
  && forallb Json.isDigit (list_ascii_of_string id).

(** What [getMentionMetadata] returned: two plain objects used as maps from
    ids to entries, here the maps of their own properties.  For a snowflake
    [id], reading [o[id]] finds an own property or nothing and writing
    [o[id] = x] creates or replaces an own property, as [!!] and [<[ := ]>]
    do; for a name that [Object.prototype] defines ([constructor],
    [__proto__], ...) the object behaves otherwise, and the map is no model
    of it. *)
Record MentionMetadata := {
  mm_users : gmap string UserMeta;
  mm_channels : gmap string ChannelMeta
}.

(** What [extractMentionIds] and [extractDiscordLinks] returned. *)
Record MentionIds := {
  userIds : list string;
  channelIds : list string
}.

Record DiscordLink := {
  dl_original : string;
  guildId : string;
  channelId : string;
  messageId : option string
}.

(** [type MessageMetadata]: every field is [undefined] ([None]) or a
    non-empty collection. *)
Record MessageMetadata := {
  users : option (gmap string UserMeta);
  channels : option (gmap string ChannelMeta);
  internalLinks : option (list InternalLink)
}.

(** [createInternalLinkLookup]: [if (!lookup.has(...)) lookup.set(...)]. *)
Definition createInternalLinkLookup (links : list InternalLink)
    : gmap string InternalLink :=
  fold_left
    (fun lookup link =>
       match lookup !! il_original link with
       | Some _ => lookup
       | None => <[il_original link := link]> lookup
       end)
    links ∅.

(** The placeholder of a channel without metadata. *)
Definition unknownChannel (serverDiscordId channelId : string) : ChannelMeta :=
  {| cm_name := "Unknown Channel";
     cm_type := 0;
     cm_url :=
       "https://discord.com/channels/" +:+ serverDiscordId +:+ "/" +:+ channelId;
     indexingEnabled := Some false;
     cm_exists := Some false |}.

(** [Object.keys(o).length === 0 ? undefined : o] *)
Definition orUndefined {V : Type} (o : gmap string V) : option (gmap string V) :=
  if Nat.eqb (size o) 0 then None else Some o.

(** [users] and [channels] are plain objects as well: the definition is that
    of the code for mention ids that are snowflakes. *)
Definition buildMessageMetadataRecord
    (mentionMetadata : MentionMetadata) (serverDiscordId : string)
    (mentionIds : MentionIds)
    (internalLinkLookup : gmap string InternalLink)
    (messageDiscordLinks : list DiscordLink) : MessageMetadata :=
  let users :=
    fold_left
      (fun users userId =>
         match mm_users mentionMetadata !! userId with
         | Some user => <[userId := user]> users
         | None => users
         end)
      (userIds mentionIds) ∅ in
  let channels :=
    fold_left
      (fun channels channelId =>
         match mm_channels mentionMetadata !! channelId with
         | Some channelMeta => <[channelId := channelMeta]> channels
         | None =>
             <[channelId := unknownChannel serverDiscordId channelId]> channels
         end)
      (channelIds mentionIds) ∅ in
  let internalLinks :=
    omap (fun link => internalLinkLookup !! dl_original link)
         messageDiscordLinks in
  {| users := orUndefined users;
     channels := orUndefined channels;
     internalLinks :=
       match internalLinks with
       | [] => None
       | _ => Some internalLinks
       end |}.

(** The first link of a list with a given text. *)
Fixpoint firstWithOriginal (k : string) (links : list InternalLink)
    : option InternalLink :=
  match links with
  | [] => None
  | link :: rest =>
      if bool_decide (il_original link = k) then Some link
      else firstWithOriginal k rest
  end.

(** A message on server 100 that mentions the users 300 and 301 and the
    channels 200 and 201, where only 300 and 200 have metadata. *)
Definition sampleMentions : MentionMetadata :=
  {| mm_users :=
       <["300" := {| username := "rhys"; globalName := None;
                     um_url := "https://discord.com/users/300" |}]> ∅;
     mm_channels :=
       <["200" := {| cm_name := "general"; cm_type := 0;
                     cm_url := "https://discord.com/channels/100/200";
                     indexingEnabled := Some true;
                     cm_exists := Some true |}]> ∅ |}.

Definition sampleIds : MentionIds :=
  {| userIds := ["300"; "301"]; channelIds := ["200"; "201"] |}.

End MessageBuilder.

(** * Properties *)

(** ** The visibility decisions *)

Module VisibilityFacts.
Import Visibility.

(** C1. [isMessagePublic]: a server that considers all messages public makes
    every message public, whatever the user's consent (also when there is
    none); otherwise the message is public exactly when a consent record
    exists and allows public display. *)
Theorem isMessagePublic_decision
    (server : ServerVisibilityContext) (user : option UserVisibilityContext) :
  (considerAllMessagesPublicEnabled server = true ->
     isMessagePublic server user = true) /\
  (considerAllMessagesPublicEnabled server = false ->
     (isMessagePublic server user = true <->
      exists u, user = Some u /\ canPubliclyDisplayMessages u = true)).
Proof.
  unfold isMessagePublic. split; intros ->; [reflexivity|].
  destruct user as [[consent]|]; simpl; split.
  - intros ->. eexists; split; reflexivity.
  - intros (u & [= <-] & Hu). exact Hu.
  - discriminate.
  - intros (u & Hu & _). discriminate Hu.
Qed.

Lemma isMessagePublic_decision_witness :
  isMessagePublic
    {| considerAllMessagesPublicEnabled := true;
       anonymizeMessagesEnabled := false |} None = true /\
  (isMessagePublic
     {| considerAllMessagesPublicEnabled := false;
        anonymizeMessagesEnabled := false |}
     (Some {| canPubliclyDisplayMessages := false |}) = true <->
   exists u, Some {| canPubliclyDisplayMessages := false |} = Some u /\
             canPubliclyDisplayMessages u = true).
Proof.
  split.
  - apply (proj1 (isMessagePublic_decision _ None)). reflexivity.
  - apply (proj2 (isMessagePublic_decision _ _)). reflexivity.
Defined.

(** C2. [shouldAnonymizeAuthor]: a non-public message always anonymizes its
    author, whatever the server's anonymize flag; a public message
    anonymizes exactly when the server's [anonymizeMessagesEnabled] is set. *)
Theorem shouldAnonymizeAuthor_decision
    (server : ServerVisibilityContext) (user : option UserVisibilityContext)
    (isPublic : bool) :
  (isPublic = false -> shouldAnonymizeAuthor server user isPublic = true) /\
  (isPublic = true ->
     shouldAnonymizeAuthor server user isPublic
     = anonymizeMessagesEnabled server).
Proof. split; intros ->; reflexivity. Qed.

Lemma shouldAnonymizeAuthor_decision_witness :
  shouldAnonymizeAuthor
    {| considerAllMessagesPublicEnabled := false;
       anonymizeMessagesEnabled := false |} None false = true /\
  shouldAnonymizeAuthor
    {| considerAllMessagesPublicEnabled := true;
       anonymizeMessagesEnabled := false |} None true = false.
Proof.
  split.
  - apply (proj1 (shouldAnonymizeAuthor_decision _ None false)). reflexivity.
  - apply (proj2 (shouldAnonymizeAuthor_decision
                    {| considerAllMessagesPublicEnabled := true;
                       anonymizeMessagesEnabled := false |} None true)).
    reflexivity.
Defined.

(** The anonymous projection always has a null avatar and keeps the id. *)
Lemma anonymizeAuthor_fields (author : DiscordAccount) :
  an_avatar (anonymizeAuthor author) = None /\
  an_id (anonymizeAuthor author) = id author.
Proof. split; reflexivity. Qed.

(** The pseudonym is one of the eight adjectives followed by [User]. *)
Lemma generateAnonymousName_range (authorId : string) :
  exists adjective,
    adjective ∈ adjectives /\
    generateAnonymousName authorId = adjective +:+ " User".
Proof.
  unfold generateAnonymousName.
  set (i := Z.to_nat _).
  assert (Hi : (i < length adjectives)%nat).
  { subst i. simpl length.
    pose proof (Z.mod_pos_bound (simpleHash authorId) 8 ltac:(lia)).
    change (Z.of_nat 8) with 8. lia. }
  exists (nth i adjectives "undefined"). split; [|reflexivity].
  apply list_elem_of_In, nth_In, Hi.
Qed.

(** P6: a missing author stays missing. *)
Lemma applyVisibilityToAuthor_null
    (visibility : VisibilityContext) (isPublic : bool) :
  applyVisibilityToAuthor None visibility isPublic = None.
Proof. reflexivity. Qed.

(** C3. For a present author [applyVisibilityToAuthor] always returns a
    sanitized author; in it a false [public] comes with a null avatar, and
    the id is the input author's id. *)
Theorem applyVisibilityToAuthor_invariant
    (author : DiscordAccount) (visibility : VisibilityContext)
    (isPublic : bool) :
  exists sanitized,
    applyVisibilityToAuthor (Some author) visibility isPublic
    = Some sanitized /\
    (sa_public sanitized = false -> sa_avatar sanitized = None) /\
    sa_id sanitized = id author.
Proof.
  unfold applyVisibilityToAuthor, shouldAnonymizeAuthor.
  destruct isPublic; simpl.
  - destruct (anonymizeMessagesEnabled (server visibility));
      eexists; (split; [reflexivity|]); simpl; split;
      [reflexivity | reflexivity | discriminate | reflexivity].
  - eexists; split; [reflexivity|]. simpl. split; reflexivity.
Qed.

Lemma applyVisibilityToAuthor_invariant_witness :
  exists sanitized,
    applyVisibilityToAuthor
      (Some {| id := "42"; name := "Rhys"; avatar := Some "a.png" |})
      {| server := {| considerAllMessagesPublicEnabled := false;
                      anonymizeMessagesEnabled := false |};
         user := None |}
      false = Some sanitized /\
    sa_avatar sanitized = None /\
    sa_id sanitized = "42".
Proof.
  destruct (applyVisibilityToAuthor_invariant
              {| id := "42"; name := "Rhys"; avatar := Some "a.png" |}
              {| server := {| considerAllMessagesPublicEnabled := false;
                              anonymizeMessagesEnabled := false |};
                 user := None |}
              false) as (sanitized & Hs & Havatar & Hid).
  exists sanitized. split; [exact Hs|]. split; [|exact Hid].
  apply Havatar. simpl in Hs. injection Hs as <-. reflexivity.
Defined.

(** C9. [applyVisibilityToMessages] returns one pair per input message, in
    input order: the pair at position [i] carries the message at position
    [i] with its [public] decision; an author missing from the author map
    gives a null author, and an author missing from the visibility map is
    judged as a user without consent record. *)
Theorem applyVisibilityToMessages_pointwise
    (messages : list Message) (serverVisibility : ServerVisibilityContext)
    (authorMap : gmap string DiscordAccount)
    (authorVisibilityMap : gmap string (option UserVisibilityContext)) :
  let out :=
    applyVisibilityToMessages
      messages serverVisibility authorMap authorVisibilityMap in
  length out = length messages /\
  map (fun p => sm_message (message p)) out = messages /\
  forall (i : nat) (msg : Message),
    messages !! i = Some msg ->
    exists p,
      out !! i = Some p /\
      sm_message (message p) = msg /\
      (authorMap !! authorId msg = None -> author p = None) /\
      (authorVisibilityMap !! authorId msg = None ->
         sm_public (message p) = isMessagePublic serverVisibility None /\
         author p =
           applyVisibilityToAuthor
             (authorMap !! authorId msg)
             {| server := serverVisibility; user := None |}
             (isMessagePublic serverVisibility None)).
Proof.
  cbv zeta. unfold applyVisibilityToMessages.
  split; [apply length_map|]. split.
  - rewrite map_map. simpl. apply map_id.
  - intros i msg Hi.
    eexists. split.
    { rewrite list_lookup_fmap, Hi. reflexivity. }
    unfold sanitizeOne; simpl. split; [reflexivity|]. split.
    + intros ->. reflexivity.
    + unfold getOrNull. intros ->. split; reflexivity.
Qed.

Lemma applyVisibilityToMessages_pointwise_witness :
  exists p,
    applyVisibilityToMessages [helloMessage] privateServer ∅ ∅ !! 0%nat
    = Some p /\
    sm_message (message p) = helloMessage /\
    author p = None /\
    sm_public (message p) = false.
Proof.
  destruct (proj2 (proj2 (applyVisibilityToMessages_pointwise
                            [helloMessage] privateServer ∅ ∅))
              0%nat helloMessage eq_refl) as (p & Hp & Hm & Ha & Hv).
  exists p. split; [exact Hp|]. split; [exact Hm|]. split.
  - apply Ha. reflexivity.
  - apply (proj1 (Hv eq_refl)).
Defined.

End VisibilityFacts.

(** ** Grouping by server in [getSanitizedMessages] *)

Module OrchestrationFacts.
Import Visibility Orchestration.

Lemma uniqueFrom_elem (seen xs : list string) (x : string) :
  x ∈ uniqueFrom seen xs <-> x ∈ xs /\ x ∉ seen.
Proof.
  revert seen. induction xs as [|y xs IH]; intros seen; simpl.
  - rewrite !elem_of_nil. tauto.
  - case_bool_decide as Hy.
    + rewrite IH, elem_of_cons. split; [tauto|].
      intros [[->|Hx] Hs]; [contradiction | tauto].
    + rewrite !elem_of_cons, IH, not_elem_of_cons.
      destruct (decide (x = y)) as [->|Hne]; tauto.
Qed.

Lemma uniqueFrom_NoDup (seen xs : list string) : NoDup (uniqueFrom seen xs).
Proof.
  revert seen. induction xs as [|y xs IH]; intros seen; simpl.
  - constructor.
  - case_bool_decide; [apply IH|].
    constructor; [|apply IH].
    rewrite uniqueFrom_elem, not_elem_of_cons. tauto.
Qed.

Lemma uniqueFrom_snoc (seen xs : list string) (x : string) :
  uniqueFrom seen (xs ++ [x])
  = uniqueFrom seen xs ++ (if bool_decide (x ∈ seen ++ xs) then [] else [x]).
Proof.
  revert seen. induction xs as [|y xs IH]; intros seen; simpl.
  - rewrite app_nil_r. case_bool_decide; reflexivity.
  - case_bool_decide as Hy.
    + rewrite IH. f_equal.
      rewrite (bool_decide_ext (x ∈ seen ++ xs) (x ∈ seen ++ y :: xs));
        [reflexivity|].
      rewrite !elem_of_app, elem_of_cons.
      split; [tauto|]. intros [?|[->|?]]; tauto.
    + rewrite IH. simpl. do 2 f_equal.
      rewrite (bool_decide_ext (x ∈ (y :: seen) ++ xs) (x ∈ seen ++ y :: xs));
        [reflexivity|].
      rewrite !elem_of_app, !elem_of_cons. tauto.
Qed.

Lemma unique_elem (xs : list string) (x : string) : x ∈ unique xs <-> x ∈ xs.
Proof.
  unfold unique. rewrite uniqueFrom_elem, elem_of_nil. tauto.
Qed.

Lemma unique_snoc (xs : list string) (x : string) :
  unique (xs ++ [x])
  = unique xs ++ (if bool_decide (x ∈ xs) then [] else [x]).
Proof. unfold unique. rewrite uniqueFrom_snoc. reflexivity. Qed.

Lemma has_elem (groups : ServerGroups) (sid : string) :
  has groups sid = bool_decide (sid ∈ map fst groups).
Proof.
  induction groups as [|[k ms] rest IH]; cbn [has map fst].
  - symmetry. apply bool_decide_eq_false_2, not_elem_of_nil.
  - destruct (decide (k = sid)) as [->|Hne].
    + rewrite (bool_decide_eq_true_2 (sid = sid)) by reflexivity.
      symmetry. apply bool_decide_eq_true_2, list_elem_of_here.
    + rewrite (bool_decide_eq_false_2 (k = sid)) by assumption.
      rewrite IH. apply bool_decide_ext. rewrite elem_of_cons.
      split; [tauto|]. intros [->|?]; [contradiction | assumption].
Qed.

Lemma push_skip (groups groups' : ServerGroups) (sid : string) (msg : Message) :
  sid ∉ map fst groups ->
  push (groups ++ groups') sid msg = groups ++ push groups' sid msg.
Proof.
  induction groups as [|[k ms] rest IH]; simpl; intros Hsid; [reflexivity|].
  apply not_elem_of_cons in Hsid as [Hne Hsid].
  case_bool_decide as Hk; [congruence|].
  rewrite IH; [reflexivity | assumption].
Qed.

Lemma push_keyed (g : string -> list Message) (keys : list string)
    (sid : string) (msg : Message) :
  NoDup keys ->
  push (map (fun k => (k, g k)) keys) sid msg
  = map (fun k => (k, g k ++ if bool_decide (k = sid) then [msg] else []))
        keys.
Proof.
  induction 1 as [|k keys Hk Hnd IH]; simpl; [reflexivity|].
  case_bool_decide as Heq.
  - subst k. f_equal. apply map_ext_in. intros k' Hin.
    apply list_elem_of_In in Hin.
    rewrite bool_decide_eq_false_2 by (intros ->; contradiction).
    rewrite app_nil_r. reflexivity.
  - rewrite app_nil_r, IH. reflexivity.
Qed.

Lemma filter_server_snoc (pre : list Message) (msg : Message) (k : string) :
  filter (fun m => serverId m = k) (pre ++ [msg])
  = filter (fun m => serverId m = k) pre
    ++ if bool_decide (k = serverId msg) then [msg] else [].
Proof.
  rewrite filter_app. f_equal.
  rewrite filter_cons, filter_nil.
  case_decide as H1; case_bool_decide as H2; congruence.
Qed.

Lemma filter_server_absent (pre : list Message) (k : string) :
  k ∉ map serverId pre -> filter (fun m => serverId m = k) pre = [].
Proof.
  induction pre as [|m pre IH]; simpl; intros Hk; [reflexivity|].
  apply not_elem_of_cons in Hk as [Hne Hk].
  rewrite filter_cons. case_decide; [congruence | auto].
Qed.

Lemma groupStep_groupsInOrder (pre : list Message) (msg : Message) :
  groupStep (groupsInOrder pre) msg = groupsInOrder (pre ++ [msg]).
Proof.
  unfold groupStep, groupsInOrder.
  rewrite has_elem, map_map. cbn [fst]. rewrite map_id.
  rewrite (map_app serverId pre [msg]).
  change (map serverId [msg]) with [serverId msg].
  rewrite unique_snoc, map_app.
  rewrite (bool_decide_ext _ _ (unique_elem _ _)).
  destruct (decide (serverId msg ∈ map serverId pre)) as [Hin|Hin].
  - rewrite !bool_decide_eq_true_2 by assumption.
    cbn [map]. rewrite app_nil_r.
    rewrite (push_keyed (fun k => filter (fun m => serverId m = k) pre))
      by apply uniqueFrom_NoDup.
    apply map_ext. intros k. rewrite filter_server_snoc.
    reflexivity.
  - rewrite !bool_decide_eq_false_2 by assumption.
    rewrite push_skip.
    2:{ rewrite map_map. cbn [fst]. rewrite map_id, unique_elem. exact Hin. }
    cbn [push map]. rewrite bool_decide_eq_true_2 by reflexivity. f_equal.
    + apply map_ext_in. intros k Hk.
      apply list_elem_of_In in Hk. rewrite unique_elem in Hk.
      rewrite filter_server_snoc.
      rewrite (bool_decide_eq_false_2 (k = serverId msg))
        by (intros ->; contradiction).
      rewrite app_nil_r. reflexivity.
    + rewrite filter_server_snoc, bool_decide_eq_true_2 by reflexivity.
      rewrite filter_server_absent by exact Hin. reflexivity.
Qed.

(** The grouping loop computes the groups in order of first occurrence. *)
Lemma groupByServer_groupsInOrder (messages : list Message) :
  groupByServer messages = groupsInOrder messages.
Proof.
  unfold groupByServer.
  induction messages as [|msg pre IH] using rev_ind; [reflexivity|].
  rewrite fold_left_app. cbn [fold_left].
  rewrite IH. apply groupStep_groupsInOrder.
Qed.

Lemma push_Permutation (groups : ServerGroups) (sid : string) (msg : Message) :
  has groups sid = true ->
  Permutation (concat (map snd (push groups sid msg)))
              (msg :: concat (map snd groups)).
Proof.
  induction groups as [|[k ms] rest IH]; cbn [has push]; [discriminate|].
  destruct (bool_decide (k = sid)); intros Hhas; cbn [map snd concat].
  - rewrite <- app_assoc. symmetry.
    apply Permutation_middle.
  - rewrite (IH Hhas). symmetry. apply Permutation_middle.
Qed.

Lemma groupStep_Permutation (groups : ServerGroups) (msg : Message) :
  Permutation (concat (map snd (groupStep groups msg)))
              (msg :: concat (map snd groups)).
Proof.
  unfold groupStep. destruct (has groups (serverId msg)) eqn:Hhas.
  - apply push_Permutation, Hhas.
  - rewrite push_skip.
    2:{ rewrite has_elem in Hhas. apply bool_decide_eq_false in Hhas.
        exact Hhas. }
    cbn [push]. rewrite bool_decide_eq_true_2 by reflexivity.
    rewrite map_app, concat_app. cbn [map snd concat app].
    symmetry. apply Permutation_cons_append.
Qed.

Lemma groupByServer_Permutation (messages : list Message) :
  Permutation (concat (map snd (groupByServer messages))) messages.
Proof.
  unfold groupByServer.
  induction messages as [|msg pre IH] using rev_ind; [reflexivity|].
  rewrite fold_left_app. cbn [fold_left].
  rewrite groupStep_Permutation, IH. apply Permutation_cons_append.
Qed.

(** Sanitizing a group keeps its messages, in order. *)
Lemma sanitizeGroup_original
    (ctx : QueryCtx) (authorMap : gmap string DiscordAccount)
    (entry : string * list Message) :
  map original (sanitizeGroup ctx authorMap entry) = snd entry.
Proof.
  destruct entry as [sid ms]. unfold sanitizeGroup, applyVisibilityToMessages.
  rewrite map_map. apply map_id.
Qed.

Lemma getSanitizedMessages_original
    (ctx : QueryCtx) (messages : list Message)
    (authorMap : gmap string DiscordAccount) :
  map original (getSanitizedMessages ctx messages authorMap)
  = concat (map snd (groupByServer messages)).
Proof.
  unfold getSanitizedMessages.
  destruct messages as [|m ms]; [reflexivity|].
  cbv zeta. generalize (groupByServer (m :: ms)) as groups.
  induction groups as [|entry groups IH]; [reflexivity|].
  cbn [map concat]. rewrite map_app, sanitizeGroup_original, IH.
  reflexivity.
Qed.

Lemma unique_single_server (messages : list Message) (sid : string) :
  messages <> [] ->
  (forall m, m ∈ messages -> serverId m = sid) ->
  unique (map serverId messages) = [sid].
Proof.
  induction messages as [|msg pre IH] using rev_ind; [congruence|].
  intros _ Hall. rewrite map_app. cbn [map]. rewrite unique_snoc.
  assert (Hmsg : serverId msg = sid).
  { apply Hall, elem_of_app. right. apply list_elem_of_here. }
  destruct pre as [|m0 pre0]; [rewrite Hmsg; reflexivity|].
  rewrite IH.
  - rewrite bool_decide_eq_true_2; [reflexivity|].
    cbn [map]. rewrite Hmsg, <- (Hall m0); [apply list_elem_of_here|].
    apply list_elem_of_here.
  - discriminate.
  - intros m Hm. apply Hall, elem_of_app. left. exact Hm.
Qed.

Lemma filter_single_server (messages : list Message) (sid : string) :
  (forall m, m ∈ messages -> serverId m = sid) ->
  filter (fun m => serverId m = sid) messages = messages.
Proof.
  induction messages as [|m ms IH]; intros Hall; [reflexivity|].
  rewrite filter_cons. case_decide as Hm.
  - f_equal. apply IH. intros m' Hm'. apply Hall. right. exact Hm'.
  - exfalso. apply Hm, Hall, list_elem_of_here.
Qed.

(** C10. [getSanitizedMessages] returns one pair per input message; the
    pairs come grouped by server, the servers in order of first occurrence
    and each server's messages in input order.  A single-server input comes
    back in input order; an interleaved one need not. *)
Theorem getSanitizedMessages_grouped :
  (forall (ctx : QueryCtx) (messages : list Message)
          (authorMap : gmap string DiscordAccount),
     let out := getSanitizedMessages ctx messages authorMap in
     length out = length messages /\
     Permutation (map original out) messages /\
     map original out
     = concat
         (map (fun sid => filter (fun m => serverId m = sid) messages)
              (unique (map serverId messages))) /\
     (forall sid,
        (forall m, m ∈ messages -> serverId m = sid) ->
        map original out = messages)) /\
  (exists (ctx : QueryCtx) (messages : list Message)
          (authorMap : gmap string DiscordAccount),
     map original (getSanitizedMessages ctx messages authorMap) <> messages).
Proof.
  split.
  - intros ctx messages authorMap out.
    assert (Horig : map original out
                    = concat (map snd (groupByServer messages)))
      by apply getSanitizedMessages_original.
    assert (Hperm : Permutation (map original out) messages).
    { rewrite Horig. apply groupByServer_Permutation. }
    split; [|split; [exact Hperm|split]].
    + rewrite <- (length_map original out).
      apply Permutation_length, Hperm.
    + rewrite Horig, groupByServer_groupsInOrder. unfold groupsInOrder.
      rewrite map_map. reflexivity.
    + intros sid Hall. rewrite Horig, groupByServer_groupsInOrder.
      unfold groupsInOrder.
      destruct messages as [|m ms]; [reflexivity|].
      rewrite (unique_single_server (m :: ms) sid) by (congruence || exact Hall).
      cbn [map snd concat]. rewrite app_nil_r.
      apply filter_single_server, Hall.
  - exists emptyCtx, interleaved, ∅.
    rewrite getSanitizedMessages_original. vm_compute. discriminate.
Qed.

Lemma getSanitizedMessages_grouped_witness :
  map original (getSanitizedMessages emptyCtx sameServer ∅) = sameServer.
Proof.
  apply (proj2 (proj2 (proj2
           (proj1 getSanitizedMessages_grouped emptyCtx sameServer ∅))) "sA").
  intros m Hm. unfold sameServer in Hm.
  apply elem_of_cons in Hm as [->|Hm]; [reflexivity|].
  apply elem_of_cons in Hm as [->|Hm]; [reflexivity|].
  apply elem_of_nil in Hm. contradiction.
Defined.

End OrchestrationFacts.

(** ** Cache keys *)

Module JsonFacts.
Import Json.

(** Induction on values that reaches the elements of arrays and the members
    of objects. *)
Lemma value_ind_nested (P : value -> Prop)
    (Hnull : P JNull)
    (Hbool : forall b, P (JBool b))
    (Hnum : forall n, P (JNum n))
    (Hstr : forall s, P (JStr s))
    (Harr : forall items, Forall P items -> P (JArr items))
    (Hobj : forall fields,
        Forall (fun kv => P (snd kv)) fields -> P (JObj fields)) :
  forall v, P v.
Proof.
  fix IH 1. intros [ |b|n|s|items|fields].
  - exact Hnull.
  - apply Hbool.
  - apply Hnum.
  - apply Hstr.
  - apply Harr. induction items as [|x items IHitems]; constructor.
    + apply IH.
    + exact IHitems.
  - apply Hobj. induction fields as [|[k x] fields IHfields]; constructor.
    + apply IH.
    + exact IHfields.
Qed.

(** *** Characters *)

Lemma allAscii_complete (c : ascii) : In c allAscii.
Proof.
  unfold allAscii. rewrite <- (ascii_nat_embedding c).
  apply in_map, in_seq. pose proof (nat_ascii_bounded c). lia.
Qed.

Lemma forallb_allAscii (p : ascii -> bool) :
  forallb p allAscii = true -> forall c, p c = true.
Proof.
  intros H c. rewrite forallb_forall in H. apply H, allAscii_complete.
Qed.

Lemma prefixb_app (l1 l2 t1 t2 : list ascii) :
  l1 ++ t1 = l2 ++ t2 -> prefixb l1 l2 = true \/ prefixb l2 l1 = true.
Proof.
  revert l2. induction l1 as [|c1 l1 IH]; intros [|c2 l2]; cbn;
    auto.
  intros [= -> E]. rewrite Ascii.eqb_refl. cbn. apply IH, E.
Qed.

(** *** Numbers *)

Lemma uint_chars (d : Decimal.uint) :
  Forall (fun c => isNumChar c = true) (chars (NilEmpty.string_of_uint d)).
Proof.
  induction d; cbn; constructor; (reflexivity || assumption).
Qed.

Lemma numberToString_chars (n : Z) :
  Forall (fun c => isNumChar c = true) (numberToString n).
Proof.
  unfold numberToString, NilZero.string_of_int, NilZero.string_of_uint.
  destruct n as [|p|p]; cbn [Z.to_int].
  - repeat constructor.
  - destruct (Pos.to_uint p) eqn:E; try (rewrite <- E; apply uint_chars).
    repeat constructor.
  - cbn [chars list_ascii_of_string]. constructor; [reflexivity|].
    destruct (Pos.to_uint p) eqn:E; try (rewrite <- E; apply uint_chars).
    repeat constructor.
Qed.

Lemma numberToString_inj (n m : Z) :
  numberToString n = numberToString m -> n = m.
Proof.
  unfold numberToString, chars. intros E.
  apply (f_equal string_of_list_ascii) in E.
  rewrite !string_of_list_ascii_of_string in E.
  apply DecimalZ.to_int_inj.
  assert (Hnn : forall z, Z.to_int z <> Decimal.Pos Decimal.Nil /\
                          Z.to_int z <> Decimal.Neg Decimal.Nil).
  { intros [|p|p]; cbn; split; try discriminate;
      intros [= H]; exact (DecimalPos.Unsigned.to_uint_nonnil p H). }
  apply (f_equal NilZero.int_of_string) in E.
  rewrite !NilZero.isi in E by apply Hnn.
  congruence.
Qed.

Lemma numberToString_head (n : Z) :
  exists c rest, numberToString n = c :: rest /\ isNumChar c = true.
Proof.
  pose proof (numberToString_chars n) as Hc.
  destruct (numberToString n) as [|c rest] eqn:E.
  - exfalso. assert (H0 : numberToString n = numberToString 0 -> False).
    { intros H. rewrite E in H. discriminate H. }
    revert E. unfold numberToString, chars. intros E.
    apply (f_equal string_of_list_ascii) in E.
    rewrite string_of_list_ascii_of_string in E. cbn in E.
    unfold NilZero.string_of_int, NilZero.string_of_uint in E.
    destruct (Z.to_int n) as [d|d]; [|discriminate].
    destruct d; discriminate.
  - inversion Hc; subst. eauto.
Qed.

(** A run of number characters ends where the first other character
    stands. *)
Lemma span_unique (s1 s2 r1 r2 : list ascii) :
  Forall (fun c => isNumChar c = true) s1 ->
  Forall (fun c => isNumChar c = true) s2 ->
  delimited r1 -> delimited r2 ->
  s1 ++ r1 = s2 ++ r2 -> s1 = s2 /\ r1 = r2.
Proof.
  intros H1. revert s2. induction H1 as [|c1 s1 Hc1 _ IH];
    intros s2 H2 D1 D2 E; destruct H2 as [|c2 s2 Hc2 H2]; cbn in E.
  - auto.
  - subst r1. unfold delimited in D1. congruence.
  - subst r2. unfold delimited in D2. congruence.
  - injection E as -> E. destruct (IH s2 H2 D1 D2 E) as [-> ->]. auto.
Qed.

(** *** Strings *)

Lemma quoteChar_head (c : ascii) :
  exists x rest, quoteChar c = x :: rest /\ x <> dquote.
Proof.
  assert (H : match quoteChar c with
              | x :: _ => negb (Ascii.eqb x dquote)
              | [] => false
              end = true).
  { revert c. apply forallb_allAscii. vm_compute. reflexivity. }
  destruct (quoteChar c) as [|x rest]; [discriminate|].
  exists x, rest. split; [reflexivity|].
  intros ->. rewrite Ascii.eqb_refl in H. discriminate.
Qed.

Lemma quoteChar_prefix_free (c1 c2 : ascii) :
  prefixb (quoteChar c1) (quoteChar c2) = true -> c1 = c2.
Proof.
  assert (H : forallb
                (fun a => forallb
                   (fun b => implb (prefixb (quoteChar a) (quoteChar b))
                                   (Ascii.eqb a b))
                   allAscii)
                allAscii = true) by (vm_compute; reflexivity).
  intros Hp.
  pose proof (forallb_allAscii _ (forallb_allAscii _ H c1) c2) as Hc.
  cbv beta in Hc. rewrite Hp in Hc. cbn in Hc.
  apply Ascii.eqb_eq, Hc.
Qed.

Lemma quoteChar_unique (c1 c2 : ascii) (t1 t2 : list ascii) :
  quoteChar c1 ++ t1 = quoteChar c2 ++ t2 -> c1 = c2 /\ t1 = t2.
Proof.
  intros E.
  assert (c1 = c2) as ->.
  { destruct (prefixb_app _ _ _ _ E) as [H|H];
      [|symmetry]; apply quoteChar_prefix_free, H. }
  split; [reflexivity|]. apply app_inv_head in E. exact E.
Qed.

Lemma quoteBody_unique (s1 s2 : string) (r1 r2 : list ascii) :
  quoteBody s1 ++ dquote :: r1 = quoteBody s2 ++ dquote :: r2 ->
  s1 = s2 /\ r1 = r2.
Proof.
  revert s2. induction s1 as [|c1 s1 IH]; intros [|c2 s2];
    cbn [quoteBody app].
  - intros [= ->]. auto.
  - intros E. destruct (quoteChar_head c2) as (x & rest & Hq & Hx).
    rewrite Hq in E. cbn [app] in E. congruence.
  - intros E. destruct (quoteChar_head c1) as (x & rest & Hq & Hx).
    rewrite Hq in E. cbn [app] in E. congruence.
  - rewrite <- !app_assoc. intros E.
    apply quoteChar_unique in E as [-> E].
    apply IH in E as [-> ->]. auto.
Qed.

Lemma quoteJSONString_unique (s1 s2 : string) (r1 r2 : list ascii) :
  quoteJSONString s1 ++ r1 = quoteJSONString s2 ++ r2 ->
  s1 = s2 /\ r1 = r2.
Proof.
  unfold quoteJSONString. cbn [app]. rewrite <- !app_assoc. cbn [app].
  intros [= E]. apply quoteBody_unique, E.
Qed.


(** *** The first character announces the constructor *)

Lemma isNumChar_tag (c : ascii) : isNumChar c = true -> tagOfChar c = 3%nat.
Proof.
  assert (H : forall a, implb (isNumChar a) (Nat.eqb (tagOfChar a) 3) = true).
  { apply forallb_allAscii. vm_compute. reflexivity. }
  intros Hc. specialize (H c). rewrite Hc in H. cbn in H.
  apply Nat.eqb_eq, H.
Qed.

Lemma serializeListed_head (v : value) :
  exists c rest, serializeListed v = c :: rest /\ tagOfChar c = tag v.
Proof.
  destruct v as [ |[|]|n|s|items|fields]; cbn [serializeListed tag].
  - do 2 eexists. split; reflexivity.
  - do 2 eexists. split; reflexivity.
  - do 2 eexists. split; reflexivity.
  - destruct (numberToString_head n) as (c & rest & -> & Hc).
    exists c, rest. split; [reflexivity|]. apply isNumChar_tag, Hc.
  - unfold quoteJSONString. do 2 eexists. split; reflexivity.
  - do 2 eexists. split; reflexivity.
  - do 2 eexists. split; reflexivity.
Qed.

(** *** Comma-separated sequences *)

Section Joined.
Context {A : Type} (f : A -> list ascii) (close : ascii).
Hypothesis close_not_number : isNumChar close = false.
Hypothesis close_not_comma : close <> ","%char.
Hypothesis head_not_close :
  forall y, exists c rest, f y = c :: rest /\ c <> close.

Lemma joinTail_delimited (parts : list (list ascii)) (r : list ascii) :
  delimited (joinTail parts ++ close :: r).
Proof. destruct parts; cbn; [exact close_not_number | reflexivity]. Qed.

Lemma joinComma_cons (p : list ascii) (parts : list (list ascii)) :
  joinComma (p :: parts) = p ++ joinTail parts.
Proof. reflexivity. Qed.

Lemma joinTail_unique (l1 l2 : list A) (r1 r2 : list ascii) :
  Forall (readable f) l1 ->
  joinTail (map f l1) ++ close :: r1 = joinTail (map f l2) ++ close :: r2 ->
  l1 = l2 /\ r1 = r2.
Proof.
  intros H. revert l2.
  induction H as [|x l1 Hx _ IH]; intros [|y l2]; cbn [map joinTail app].
  - intros [= ->]. auto.
  - intros [= Hc _]. contradiction.
  - intros [= Hc _]. symmetry in Hc. contradiction.
  - rewrite !joinComma_cons, <- !app_assoc. intros [= E].
    apply Hx in E as [-> E]; try apply joinTail_delimited.
    apply IH in E as [-> ->]. auto.
Qed.

Lemma joinComma_unique (l1 l2 : list A) (r1 r2 : list ascii) :
  Forall (readable f) l1 ->
  joinComma (map f l1) ++ close :: r1 = joinComma (map f l2) ++ close :: r2 ->
  l1 = l2 /\ r1 = r2.
Proof.
  intros H. destruct H as [|x l1 Hx H]; destruct l2 as [|y l2];
    cbn [map]; rewrite ?joinComma_cons, <- ?app_assoc; cbn [joinComma app].
  - intros [= ->]. auto.
  - destruct (head_not_close y) as (c & rest & -> & Hc).
    cbn [app]. intros [= Hc' _]. congruence.
  - destruct (head_not_close x) as (c & rest & -> & Hc).
    cbn [app]. intros [= Hc' _]. congruence.
  - intros E. apply Hx in E as [-> E]; try apply joinTail_delimited.
    apply joinTail_unique in E as [-> ->]; auto.
Qed.
End Joined.

(** *** Serializations can be read back *)

Lemma serializeListed_unique (v1 : value) :
  forall v2 r1 r2,
    delimited r1 -> delimited r2 ->
    serializeListed v1 ++ r1 = serializeListed v2 ++ r2 -> v1 = v2 /\ r1 = r2.
Proof.
  induction v1 as [ |b1|n1|s1|items1 IH|fields1 IH] using value_ind_nested;
    intros v2 r1 r2 D1 D2 E.
  all: assert (Htag : tag v2 = tag _) by
      (destruct (serializeListed_head v2) as (c2 & rest2 & Hs2 & <-);
       match type of E with
       | serializeListed ?v ++ _ = _ =>
           destruct (serializeListed_head v) as (c1 & rest1 & Hs1 & <-)
       end;
       rewrite Hs1, Hs2 in E; injection E as -> _; reflexivity).
  - destruct v2 as [ |[|]| | | | ]; try discriminate Htag.
    cbn in E. injection E as ->. auto.
  - destruct v2 as [ |[|]| | | | ], b1; try discriminate Htag;
      cbn in E; injection E as ->; auto.
  - destruct v2 as [ |[|]|n2| | | ]; try discriminate Htag.
    cbn [serializeListed] in E.
    apply span_unique in E as [E ->];
      auto using numberToString_chars.
    apply numberToString_inj in E as ->. auto.
  - destruct v2 as [ |[|]| |s2| | ]; try discriminate Htag.
    cbn [serializeListed] in E.
    apply quoteJSONString_unique in E as [-> ->]. auto.
  - destruct v2 as [ |[|]| | |items2| ]; try discriminate Htag.
    cbn [serializeListed app] in E. rewrite <- !app_assoc in E. cbn [app] in E.
    injection E as E.
    assert (Hhead : forall y, exists c rest,
                      serializeListed y = c :: rest /\ c <> "]"%char).
    { intros y. destruct (serializeListed_head y) as (c & rest & -> & Hc).
      exists c, rest. split; [reflexivity|].
      intros ->. destruct y as [ |[|]| | | | ]; discriminate Hc. }
    destruct (joinComma_unique serializeListed "]"%char eq_refl
                ltac:(discriminate) Hhead items1 items2 r1 r2 IH E)
      as [-> ->].
    auto.
  - destruct v2 as [ |[|]| | | |fields2]; try discriminate Htag.
    cbn [serializeListed app] in E. rewrite <- !app_assoc in E. cbn [app] in E.
    injection E as E.
    set (member := fun kv : string * value =>
                     quoteJSONString (fst kv) ++ ":"%char :: serializeListed (snd kv))
      in E.
    assert (Hhead : forall y, exists c rest,
                      member y = c :: rest /\ c <> "}"%char).
    { intros [k y]. unfold member, quoteJSONString. do 2 eexists.
      split; [reflexivity|]. discriminate. }
    assert (Hread : Forall (readable member) fields1).
    { clear -IH. induction IH as [|[k x] fields Hx _ IHf]; constructor; auto.
      cbn [snd] in Hx.
      intros [k' y] t1 t2 Dt1 Dt2. unfold member. cbn [fst snd].
      rewrite <- !app_assoc. cbn [app]. intros E.
      apply quoteJSONString_unique in E as [-> E].
      injection E as E. apply Hx in E as [-> ->]; auto. }
    destruct (joinComma_unique member "}"%char eq_refl
                ltac:(discriminate) Hhead fields1 fields2 r1 r2 Hread E)
      as [-> ->].
    auto.
Qed.

(** *** The order of enumeration *)

Lemma insertByIndex_Permutation {A : Type} (x : N * A) (l : list (N * A)) :
  Permutation (insertByIndex x l) (x :: l).
Proof.
  induction l as [|y l IH]; cbn [insertByIndex]; [reflexivity|].
  destruct (fst x <? fst y)%N; [reflexivity|].
  rewrite IH. apply perm_swap.
Qed.

Lemma sortByIndex_Permutation {A : Type} (l : list (N * A)) :
  Permutation (sortByIndex l) l.
Proof.
  induction l as [|x l IH]; [reflexivity|].
  unfold sortByIndex in *. cbn [fold_right].
  rewrite insertByIndex_Permutation, IH. reflexivity.
Qed.

Lemma ownProperties_Permutation {A : Type} (fields : list (string * A)) :
  Permutation (ownProperties fields) fields.
Proof.
  unfold ownProperties. rewrite sortByIndex_Permutation.
  induction fields as [|kv fields IH]; [reflexivity|].
  cbn [indexed named]. unfold isArrayIndex.
  destruct (arrayIndex (fst kv)) as [i|].
  - cbn [map snd app]. rewrite IH. reflexivity.
  - rewrite <- Permutation_middle, IH. reflexivity.
Qed.

Lemma insertByIndex_sorted {A : Type} (x : N * A) (l : list (N * A)) :
  StronglySorted (fun a b => (fst a <= fst b)%N) l ->
  StronglySorted (fun a b => (fst a <= fst b)%N) (insertByIndex x l).
Proof.
  induction l as [|y l IH]; intros Hs; cbn [insertByIndex].
  - constructor; constructor.
  - apply StronglySorted_inv in Hs as [Hs Hy].
    destruct (N.ltb_spec (fst x) (fst y)) as [Hlt|Hge].
    + constructor; [constructor; assumption|].
      constructor; [lia|].
      eapply List.Forall_impl; [|exact Hy]. cbn. intros a Ha. lia.
    + constructor; [apply IH, Hs|].
      apply (Permutation_Forall
               (Permutation_sym (insertByIndex_Permutation x l))).
      constructor; assumption.
Qed.

Lemma sortByIndex_sorted {A : Type} (l : list (N * A)) :
  StronglySorted (fun a b => (fst a <= fst b)%N) (sortByIndex l).
Proof.
  induction l as [|x l IH]; [constructor|].
  unfold sortByIndex in *. cbn [fold_right].
  apply insertByIndex_sorted, IH.
Qed.

Lemma indexed_numbers {A : Type} (fields : list (string * A)) :
  List.Forall (fun p => arrayIndex (fst (snd p)) = Some (fst p))
              (indexed fields).
Proof.
  induction fields as [|kv fields IH]; cbn [indexed]; [constructor|].
  destruct (arrayIndex (fst kv)) as [i|] eqn:E; [|exact IH].
  constructor; [exact E | exact IH].
Qed.

Lemma indexed_filter {A : Type} (fields : list (string * A)) :
  map snd (indexed fields)
  = List.filter (fun kv => isArrayIndex (fst kv)) fields.
Proof.
  induction fields as [|kv fields IH]; [reflexivity|].
  cbn [indexed List.filter]. unfold isArrayIndex at 1.
  destruct (arrayIndex (fst kv)); [|exact IH].
  cbn [map snd]. rewrite IH. reflexivity.
Qed.

(** What [ownProperties] is: the properties whose keys are array indices,
    in ascending numeric order, followed by the other properties in the
    order of their creation. *)
Lemma ownProperties_order {A : Type} (fields : list (string * A)) :
  exists indices,
    ownProperties fields = indices ++ named fields /\
    Permutation indices
                (List.filter (fun kv => isArrayIndex (fst kv)) fields) /\
    StronglySorted indexLe indices /\
    named fields
    = List.filter (fun kv => negb (isArrayIndex (fst kv))) fields.
Proof.
  exists (map snd (sortByIndex (indexed fields))).
  split; [reflexivity|]. split; [|split].
  - rewrite <- indexed_filter. apply Permutation_map, sortByIndex_Permutation.
  - pose proof (Permutation_Forall
                  (Permutation_sym (sortByIndex_Permutation (indexed fields)))
                  (indexed_numbers fields)) as Hn.
    pose proof (sortByIndex_sorted (indexed fields)) as Hs.
    induction Hs as [|p l Hs IH Hp]; cbn [map]; [constructor|].
    apply List.Forall_cons_iff in Hn as [Hp0 Hn].
    constructor; [apply IH, Hn|].
    clear IH Hs. induction Hp as [|q l Hq _ IHl]; cbn [map]; [constructor|].
    apply List.Forall_cons_iff in Hn as [Hq0 Hn].
    constructor; [|apply IHl, Hn].
    intros n k En Ek. rewrite Hp0 in En. rewrite Hq0 in Ek.
    injection En as <-. injection Ek as <-. exact Hq.
  - induction fields as [|kv fields IH]; [reflexivity|].
    cbn [named List.filter].
    destruct (isArrayIndex (fst kv)); cbn [negb]; [exact IH|].
    rewrite IH. reflexivity.
Qed.

(** The order depends on the keys only. *)
Lemma ownProperties_map {A B : Type} (f : A -> B)
    (fields : list (string * A)) :
  ownProperties (map (fun kv => (fst kv, f (snd kv))) fields)
  = map (fun kv => (fst kv, f (snd kv))) (ownProperties fields).
Proof.
  set (F := fun kv : string * A => (fst kv, f (snd kv))).
  set (G := fun y : N * (string * A) => (fst y, F (snd y))).
  assert (Hins : forall x l,
             insertByIndex (G x) (map G l) = map G (insertByIndex x l)).
  { intros x l. induction l as [|y l IH]; [reflexivity|].
    cbn [map insertByIndex]. cbn [G fst] in *.
    destruct (fst x <? fst y)%N; [reflexivity|].
    cbn [map]. rewrite IH. reflexivity. }
  assert (Hsort : forall l, sortByIndex (map G l) = map G (sortByIndex l)).
  { intros l. induction l as [|x l IH]; [reflexivity|].
    unfold sortByIndex in *. cbn [map fold_right]. rewrite IH. apply Hins. }
  assert (Hidx : indexed (map F fields) = map G (indexed fields)).
  { induction fields as [|kv fields IH]; [reflexivity|].
    cbn [map indexed]. cbn [F fst] in *.
    destruct (arrayIndex (fst kv)); [|exact IH].
    cbn [map]. rewrite IH. reflexivity. }
  assert (Hnamed : named (map F fields) = map F (named fields)).
  { clear Hidx. induction fields as [|kv fields IH]; [reflexivity|].
    cbn [map named]. cbn [F fst] in *.
    destruct (isArrayIndex (fst kv)); [exact IH|].
    cbn [map]. rewrite IH. reflexivity. }
  unfold ownProperties. rewrite Hidx, Hsort, Hnamed, map_app, !map_map.
  reflexivity.
Qed.

(** [serialize] prints the enumerated value in the order listed. *)
Lemma serialize_enumerated (v : value) :
  serialize v = serializeListed (enumerated v).
Proof.
  induction v as [ |b|n|s|items IH|fields IH] using value_ind_nested;
    try reflexivity.
  - cbn [serialize enumerated serializeListed]. rewrite map_map.
    do 3 f_equal. induction IH as [|x items Hx _ IHitems]; [reflexivity|].
    cbn [map]. rewrite Hx, IHitems. reflexivity.
  - cbn [serialize enumerated serializeListed].
    rewrite !ownProperties_map, !map_map. cbn [fst snd].
    do 3 f_equal.
    apply (Permutation_Forall
             (Permutation_sym (ownProperties_Permutation fields))) in IH.
    induction IH as [|kv l Hkv _ IHl]; [reflexivity|].
    cbn [map]. rewrite Hkv, IHl. reflexivity.
Qed.

(** Two values have the same serialization exactly when they are equal
    with the properties of every object enumerated. *)
Lemma stringify_eq_iff (v1 v2 : value) :
  stringify v1 = stringify v2 <-> enumerated v1 = enumerated v2.
Proof.
  unfold stringify. rewrite !serialize_enumerated. split.
  - intros E. apply (f_equal list_ascii_of_string) in E.
    rewrite !list_ascii_of_string_of_list_ascii in E.
    apply (serializeListed_unique _ _ [] []); [exact I | exact I |].
    rewrite !app_nil_r. exact E.
  - intros ->. reflexivity.
Qed.

Lemma enumerated_empty (v : value) : enumerated v = JObj [] -> v = JObj [].
Proof.
  destruct v as [ |b|n|s|items|fields]; try discriminate.
  cbn [enumerated]. intros [= E].
  apply (f_equal (@length _)) in E.
  rewrite (Permutation_length (ownProperties_Permutation _)) in E.
  rewrite length_map in E. destruct fields; [reflexivity|discriminate E].
Qed.

(** *** Structural equality *)

Lemma assoc_NoDup (k : string) (v : value) (fields : list (string * value)) :
  NoDup (map fst fields) -> In (k, v) fields -> assoc k fields = Some v.
Proof.
  induction fields as [|[k' v'] fields IH]; cbn [map fst assoc In];
    [tauto|].
  intros Hnd [E|Hin].
  - injection E as -> ->. rewrite bool_decide_eq_true_2 by reflexivity.
    reflexivity.
  - apply NoDup_cons in Hnd as [Hk Hnd].
    rewrite bool_decide_eq_false_2; [apply IH; assumption|].
    intros ->. apply Hk. apply list_elem_of_In.
    change k with (fst (k, v)). apply in_map, Hin.
Qed.

Lemma structEq_arr_cons (x y : value) (l1 l2 : list value) :
  structEq (JArr (x :: l1)) (JArr (y :: l2))
  = structEq x y && structEq (JArr l1) (JArr l2).
Proof. reflexivity. Qed.

(** Values that are equal once enumerated are structurally equal. *)
Lemma enumerated_structEq (v1 : value) :
  forall v2,
    wellFormed v2 = true ->
    enumerated v1 = enumerated v2 -> structEq v1 v2 = true.
Proof.
  induction v1 as [ |b1|n1|s1|items1 IH|fields1 IH] using value_ind_nested;
    intros v2 W2 E;
    destruct v2 as [ |b2|n2|s2|items2|fields2]; try discriminate E.
  - reflexivity.
  - injection E as ->. cbn. apply bool_decide_eq_true_2. reflexivity.
  - injection E as ->. cbn. apply bool_decide_eq_true_2. reflexivity.
  - injection E as ->. cbn. apply bool_decide_eq_true_2. reflexivity.
  - cbn [enumerated] in E. injection E as E. cbn [wellFormed] in W2.
    revert items2 W2 E.
    induction IH as [|x items1 Hx _ IHitems]; intros [|y items2] W2 E;
      try discriminate E; [reflexivity|].
    cbn [map] in E. injection E as Ex E.
    cbn [forallb] in W2. apply andb_prop in W2 as [Wy W2].
    rewrite structEq_arr_cons, (Hx y Wy Ex), (IHitems items2 W2 E).
    reflexivity.
  - cbn [enumerated] in E. injection E as E. cbn [wellFormed] in W2.
    apply andb_prop in W2 as [Hnd W2]. apply bool_decide_eq_true_1 in Hnd.
    assert (Hperm : Permutation
                      (map (fun kv => (fst kv, enumerated (snd kv))) fields1)
                      (map (fun kv => (fst kv, enumerated (snd kv))) fields2)).
    { rewrite <- (ownProperties_Permutation (map _ fields1)), E.
      apply ownProperties_Permutation. }
    cbn [structEq]. apply andb_true_intro. split.
    + apply bool_decide_eq_true_2.
      apply Permutation_length in Hperm. rewrite !length_map in Hperm.
      exact Hperm.
    + apply forallb_forall. intros [k v] Hin.
      pose proof (proj1 (List.Forall_forall _ _) IH (k, v) Hin) as Hv.
      cbn [fst snd] in *.
      assert (Hin2 : In (k, enumerated v)
                        (map (fun kv => (fst kv, enumerated (snd kv)))
                             fields2)).
      { apply (Permutation_in _ Hperm).
        change (k, enumerated v)
          with ((fun kv : string * value => (fst kv, enumerated (snd kv)))
                  (k, v)).
        apply in_map, Hin. }
      apply in_map_iff in Hin2 as ([k2 v2] & Ekv & Hin2).
      cbn [fst snd] in Ekv. injection Ekv as -> Ev.
      rewrite (assoc_NoDup k v2 fields2 Hnd Hin2).
      apply Hv; [|symmetry; exact Ev].
      exact (proj1 (forallb_forall _ _) W2 (k, v2) Hin2).
Qed.

(** The object [watchRequest] serializes has no array index among its
    keys. *)
Lemma cacheKeyOf_enumerated (q : FunctionReference) (args : value) :
  enumerated (JObj [("functionName", JStr (getFunctionName q)); ("args", args)])
  = JObj [("functionName", JStr (getFunctionName q));
          ("args", enumerated args)].
Proof. reflexivity. Qed.

Lemma cacheKeyOf_eq (q1 q2 : FunctionReference) (args1 args2 : value) :
  cacheKeyOf q1 args1 = cacheKeyOf q2 args2 <->
  getFunctionName q1 = getFunctionName q2 /\
  enumerated args1 = enumerated args2.
Proof.
  unfold cacheKeyOf. cbn zeta. rewrite stringify_eq_iff, !cacheKeyOf_enumerated.
  split.
  - intros E. injection E as -> ->. auto.
  - intros [-> ->]. reflexivity.
Qed.

(** C7 as stated fails: two argument objects with the same members, listed
    in a different order, are structurally equal and get different cache
    keys for one and the same query. *)
Lemma cacheKey_depends_on_key_order :
  wellFormed argsAB = true /\ wellFormed argsBA = true /\
  structEq argsAB argsBA = true /\
  cacheKeyOf {| functionName := "servers:q" |} argsAB
  <> cacheKeyOf {| functionName := "servers:q" |} argsBA.
Proof.
  split; [reflexivity|]. split; [reflexivity|]. split; [reflexivity|].
  vm_compute. discriminate.
Qed.

(** C7, amended: for arguments that are JSON data, two acquisitions get the
    same cache key exactly when their function names are equal and their
    arguments are equal with the properties of every object in the order
    [JSON.stringify] enumerates them; acquisitions with the same cache key
    have structurally equal arguments, so that structurally different
    arguments get different keys; and the order of enumeration of an object
    is: the properties whose keys are array indices in ascending numeric
    order, then the other properties in the order of their creation. *)
Theorem cacheKeyOf_eq_iff (q1 q2 : FunctionReference) (args1 args2 : value) :
  wellFormed args1 = true ->
  wellFormed args2 = true ->
  (cacheKeyOf q1 args1 = cacheKeyOf q2 args2 <->
   getFunctionName q1 = getFunctionName q2 /\
   enumerated args1 = enumerated args2) /\
  (cacheKeyOf q1 args1 = cacheKeyOf q2 args2 -> structEq args1 args2 = true) /\
  (forall fields : list (string * value),
     enumerated (JObj fields)
     = JObj (ownProperties
               (map (fun kv => (fst kv, enumerated (snd kv))) fields)) /\
     exists indices,
       ownProperties fields = indices ++ named fields /\
       Permutation indices
                   (List.filter (fun kv => isArrayIndex (fst kv)) fields) /\
       StronglySorted indexLe indices /\
       named fields
       = List.filter (fun kv => negb (isArrayIndex (fst kv))) fields).
Proof.
  intros W1 W2. split; [apply cacheKeyOf_eq|]. split.
  - intros E. apply cacheKeyOf_eq in E as [_ E].
    apply enumerated_structEq; assumption.
  - intros fields. split; [reflexivity | apply ownProperties_order].
Qed.

Lemma cacheKeyOf_eq_iff_witness :
  cacheKeyOf {| functionName := "servers:q" |} args21
  = cacheKeyOf {| functionName := "servers:q" |} args12 /\
  cacheKeyOf {| functionName := "servers:q" |} argsAB
  <> cacheKeyOf {| functionName := "servers:r" |} argsAB.
Proof.
  split.
  - apply (proj2 (proj1 (cacheKeyOf_eq_iff
                           {| functionName := "servers:q" |}
                           {| functionName := "servers:q" |}
                           args21 args12 eq_refl eq_refl))).
    split; reflexivity.
  - intros E.
    apply (proj1 (proj1 (cacheKeyOf_eq_iff
                           {| functionName := "servers:q" |}
                           {| functionName := "servers:r" |}
                           argsAB argsAB eq_refl eq_refl))) in E as [E _].
    discriminate E.
Defined.

End JsonFacts.

(** ** The live-query cache *)

Module LiveQueryFacts.
Import Json LiveQuery.

(** A sequential [Effect.request] hands the resolver a batch of one: the
    resolver then runs the loop body once. *)
Lemma watchResolver_single (client : ConvexClient) (request : WatchRequest)
    (st : State) :
  watchResolver client [request] st
  = (fst (resolveRequest client request st),
     [snd (resolveRequest client request st)]).
Proof.
  cbn [watchResolver].
  destruct (resolveRequest client request st) as [st' result]. reflexivity.
Qed.

(** The dedup fast path: when a watch is active under the key, an
    acquisition returns its [LiveData], adds one to its [refCount], issues
    no query and creates no watch. *)
Lemma acquire_hit (client : ConvexClient) (q : FunctionReference)
    (queryArgs : value) (st : State) (existing : ActiveWatch) :
  activeWatches st !! cacheKeyOf q queryArgs = Some existing ->
  exists st',
    acquire client q queryArgs st = (st', Success (liveData existing)) /\
    activeWatches st' !! cacheKeyOf q queryArgs
    = Some {| liveData := liveData existing;
              unsubscribe := unsubscribe existing;
              refCount := refCount existing + 1 |} /\
    queryLog st' = queryLog st /\
    watches st' = watches st /\
    liveDatas st' = liveDatas st.
Proof.
  intros Hex. unfold acquire, resolveRequest. cbn [watchRequest cacheKey].
  rewrite Hex. eexists. split; [reflexivity|]. cbn.
  rewrite lookup_insert_eq. repeat split; reflexivity.
Qed.

(** A first acquisition: one query, one new watch, a new [LiveData] that
    holds the value fetched, registered with [refCount] 1. *)
Lemma acquire_miss (client : ConvexClient) (q : FunctionReference)
    (queryArgs : value) (st : State) (v : Value) :
  activeWatches st !! cacheKeyOf q queryArgs = None ->
  client_query client q queryArgs = Success v ->
  client_onUpdate client q queryArgs = None ->
  exists st',
    let ld := length (liveDatas st) in
    acquire client q queryArgs st = (st', Success ld) /\
    activeWatches st' !! cacheKeyOf q queryArgs
    = Some {| liveData := ld; unsubscribe := length (watches st);
              refCount := 1 |} /\
    queryLog st' = (q, queryArgs) :: queryLog st /\
    data st' ld = Some v /\
    liveDataCacheKeys st' !! ld = Some (cacheKeyOf q queryArgs).
Proof.
  intros Hnone Hq Hw. unfold acquire, resolveRequest.
  cbn [watchRequest cacheKey query args].
  rewrite Hnone, Hq, Hw. eexists. split; [reflexivity|]. cbn.
  rewrite !lookup_insert_eq. repeat split; try reflexivity.
  unfold data. cbn.
  rewrite lookup_app_r by reflexivity. rewrite Nat.sub_diag. cbn.
  unfold nullish. destruct v; reflexivity.
Qed.

(** C8. When the initial query of a first acquisition fails, the
    acquisition fails with that error and registers nothing: the active
    watches, the recorded cache keys, the [LiveData] objects and the watches
    are as before, no watch is active under the key, and the next
    acquisition of the key queries the backend again. *)
Theorem acquire_fetch_failure (client : ConvexClient)
    (q : FunctionReference) (queryArgs : value) (st : State)
    (e : ConvexError) :
  activeWatches st !! cacheKeyOf q queryArgs = None ->
  client_query client q queryArgs = Failure e ->
  exists st',
    acquire client q queryArgs st = (st', Failure e) /\
    activeWatches st' = activeWatches st /\
    liveDataCacheKeys st' = liveDataCacheKeys st /\
    liveDatas st' = liveDatas st /\
    watches st' = watches st /\
    activeWatches st' !! cacheKeyOf q queryArgs = None /\
    forall client',
      queryLog (fst (acquire client' q queryArgs st'))
      = (q, queryArgs) :: queryLog st'.
Proof.
  intros Hnone Hq. unfold acquire at 1, resolveRequest.
  cbn [watchRequest cacheKey query args]. rewrite Hnone, Hq.
  eexists. split; [reflexivity|]. cbn.
  repeat split; try reflexivity; try assumption.
  intros client'. unfold acquire, resolveRequest.
  cbn [watchRequest cacheKey query args activeWatches]. rewrite Hnone.
  destruct (client_query client' q queryArgs); cbn;
    [destruct (client_onUpdate client' q queryArgs)|]; reflexivity.
Qed.

Lemma acquire_fetch_failure_witness :
  exists st',
    acquire failingClient publicGetServerByDiscordId discordId123 initial
    = (st', Failure "Simulated ConvexError") /\
    activeWatches st' = ∅ /\
    data (fst (acquire testClient publicGetServerByDiscordId discordId123 st'))
         0%nat
    = Some (serverDoc "Test Description").
Proof.
  destruct (acquire_fetch_failure failingClient publicGetServerByDiscordId
              discordId123 initial "Simulated ConvexError")
    as (st' & Hacq & Haw & Hck & Hld & Hw & Hnone & Hlog);
    [reflexivity | reflexivity |].
  exists st'. split; [exact Hacq|]. split; [exact Haw|].
  injection Hacq as <-. reflexivity.
Defined.


(** What [destroy] leaves alone. *)
Lemma destroy_activeWatches (ld : LiveDataRef) (st : State) :
  activeWatches (destroy ld st) = activeWatches st.
Proof.
  unfold destroy. destruct (liveDatas st !! ld) as [obj|]; [|reflexivity].
  destruct (ld_unsubscribe obj); reflexivity.
Qed.

Lemma destroy_liveDataCacheKeys (ld : LiveDataRef) (st : State) :
  liveDataCacheKeys (destroy ld st) = liveDataCacheKeys st.
Proof.
  unfold destroy. destruct (liveDatas st !! ld) as [obj|]; [|reflexivity].
  destruct (ld_unsubscribe obj); reflexivity.
Qed.

Lemma destroy_subscribed (ld : LiveDataRef) (st : State) (w : WatchRef) :
  subscribed <$> watches (destroy ld st) !! w
  = subscribed <$> watches st !! w.
Proof.
  unfold destroy. destruct (liveDatas st !! ld) as [obj|]; [|reflexivity].
  destruct (ld_unsubscribe obj) as [w'|]; [|reflexivity]. cbn.
  destruct (decide (w' = w)) as [->|Hw].
  - rewrite list_lookup_alter_eq, <- option_fmap_compose.
    apply option_fmap_ext. reflexivity.
  - rewrite list_lookup_alter_ne by exact Hw. reflexivity.
Qed.

(** The release forgets the cache key recorded for the [LiveData]. *)
Lemma release_forgets_key (ld : LiveDataRef) (st : State) (key : string) :
  liveDataCacheKeys st !! ld = Some key ->
  key <> "" ->
  liveDataCacheKeys (release ld st) !! ld = None.
Proof.
  intros Hkey Hne. unfold release, releaseWatch. rewrite Hkey.
  rewrite bool_decide_eq_false_2 by exact Hne.
  rewrite destroy_liveDataCacheKeys. cbn. apply lookup_delete_eq.
Qed.

(** Without a recorded cache key the release leaves the active watches as
    they are: no count goes down and no entry is removed. *)
Lemma release_without_key (ld : LiveDataRef) (st : State) :
  liveDataCacheKeys st !! ld = None ->
  activeWatches (release ld st) = activeWatches st.
Proof.
  intros Hkey. unfold release, releaseWatch. rewrite Hkey. apply destroy_activeWatches.
Qed.

(** A cache key is never the empty string. *)
Lemma cacheKeyOf_nonempty (q : FunctionReference) (queryArgs : value) :
  cacheKeyOf q queryArgs <> "".
Proof. unfold cacheKeyOf, stringify. cbn. discriminate. Qed.

(** Two releases of one [LiveData] in a row: the second one changes
    nothing in the active watches, whatever the count of the entry. *)
Lemma release_twice (ld : LiveDataRef) (st : State) :
  activeWatches (release ld (release ld st)) = activeWatches (release ld st).
Proof.
  destruct (liveDataCacheKeys st !! ld) as [key|] eqn:Hkey.
  - destruct (decide (key = "")) as [->|Hne].
    + assert (Hsame : forall st0, liveDataCacheKeys st0 !! ld = Some "" ->
                                  releaseWatch ld st0 = st0).
      { intros st0 H0. unfold releaseWatch. rewrite H0. reflexivity. }
      unfold release. rewrite (Hsame st Hkey).
      rewrite (Hsame (destroy ld st))
        by (rewrite destroy_liveDataCacheKeys; exact Hkey).
      apply destroy_activeWatches.
    + apply release_without_key. eapply release_forgets_key; eassumption.
  - apply release_without_key.
    unfold release, releaseWatch.
    rewrite Hkey, destroy_liveDataCacheKeys. exact Hkey.
Qed.

(** The last holder: releasing the only acquisition removes the entry and
    unsubscribes the upstream watch. *)
Lemma release_last (ld : LiveDataRef) (st : State) (key : string)
    (w : WatchRef) :
  liveDataCacheKeys st !! ld = Some key ->
  key <> "" ->
  activeWatches st !! key
  = Some {| liveData := ld; unsubscribe := w; refCount := 1 |} ->
  (w < length (watches st))%nat ->
  activeWatches (release ld st) !! key = None /\
  subscribed <$> watches (release ld st) !! w = Some false.
Proof.
  intros Hkey Hne Hentry Hw. unfold release, releaseWatch. rewrite Hkey.
  rewrite bool_decide_eq_false_2 by exact Hne. rewrite Hentry.
  cbn [refCount liveData unsubscribe]. change (1 - 1) with 0.
  rewrite (bool_decide_eq_true_2 (0 = 0)) by reflexivity.
  rewrite destroy_activeWatches, destroy_subscribed. cbn.
  split; [apply lookup_delete_eq|].
  unfold unsubscribeUpstream. rewrite list_lookup_alter_eq.
  destruct (lookup_lt_is_Some_2 (watches st) w Hw) as [watch ->].
  reflexivity.
Qed.

(** P8 on the scenario of the tests: three acquisitions of one key return
    one [LiveData], counted three times, from one query and one watch. *)
Example three_acquisitions_share :
  held threeAcquired = [(key123, 0%nat); (key123, 0%nat); (key123, 0%nat)] /\
  outstanding key123 threeAcquired = 3 /\
  activeWatches (service threeAcquired) !! key123
  = Some {| liveData := 0%nat; unsubscribe := 0%nat; refCount := 3 |} /\
  length (queryLog (service threeAcquired)) = 1%nat /\
  length (watches (service threeAcquired)) = 1%nat.
Proof. vm_compute. repeat split; reflexivity. Qed.

(** Scenario D: with both acquisitions held, an upstream update shows in
    the shared [LiveData]. *)
Example update_reaches_shared_liveData :
  data (service (run testClient
                     [acquire123; acquire123;
                      Update 0%nat (serverDoc "new")])) 0%nat
  = Some (serverDoc "new").
Proof. vm_compute. reflexivity. Qed.

(** One acquisition, released, then acquired again: the entry is removed by
    the release and the upstream watch unsubscribed; the second acquisition
    queries again and returns a new [LiveData]. *)
Example reacquire_after_single_release :
  activeWatches (service (run testClient [acquire123; Release 0%nat]))
    !! key123 = None /\
  (subscribed <$>
     watches (service (run testClient [acquire123; Release 0%nat])) !! 0%nat)
  = Some false /\
  held (run testClient [acquire123; Release 0%nat; acquire123])
  = [(key123, 1%nat)] /\
  length (queryLog (service (run testClient
                               [acquire123; Release 0%nat; acquire123])))
  = 2%nat.
Proof. vm_compute. repeat split; reflexivity. Qed.

(** C4, on the code: after three acquisitions of one key and the release of
    two of them, one acquisition is outstanding but the entry's [refCount]
    is 2: the first release deleted the cache key recorded for the shared
    [LiveData], so the second release did not count down. *)
Theorem refCount_exceeds_outstanding :
  held twoOfThreeReleased = [(key123, 0%nat)] /\
  outstanding key123 twoOfThreeReleased = 1 /\
  activeWatches (service twoOfThreeReleased) !! key123
  = Some {| liveData := 0%nat; unsubscribe := 0%nat; refCount := 2 |} /\
  liveDataCacheKeys (service twoOfThreeReleased) !! 0%nat = None.
Proof. vm_compute. repeat split; reflexivity. Qed.

(** C5, on the code: after three acquisitions of one key and the release of
    all three, the entry is still registered with [refCount] 2 and its
    upstream watch still subscribed; the next acquisition of the key issues
    no query and returns the [LiveData] of the earlier acquisitions. *)
Theorem entry_survives_release_of_all :
  held allThreeReleased = [] /\
  outstanding key123 allThreeReleased = 0 /\
  activeWatches (service allThreeReleased) !! key123
  = Some {| liveData := 0%nat; unsubscribe := 0%nat; refCount := 2 |} /\
  (subscribed <$> watches (service allThreeReleased) !! 0%nat) = Some true /\
  snd (acquire testClient publicGetServerByDiscordId discordId123
               (service allThreeReleased))
  = Success 0%nat /\
  queryLog (fst (acquire testClient publicGetServerByDiscordId discordId123
                         (service allThreeReleased)))
  = [(publicGetServerByDiscordId, discordId123)].
Proof. vm_compute. repeat split; reflexivity. Qed.

(** C6, on the code: with two acquisitions of one key, after the release of
    one of them an upstream update is stored by the watch but does not reach
    the shared [LiveData], which the remaining holder still reads: the
    release destroyed it, removing its callback from the watch. *)
Theorem update_lost_after_partial_release :
  held updatedAfterRelease = [(key123, 0%nat)] /\
  activeWatches (service updatedAfterRelease) !! key123
  = Some {| liveData := 0%nat; unsubscribe := 0%nat; refCount := 1 |} /\
  (subscribed <$> watches (service updatedAfterRelease) !! 0%nat)
  = Some true /\
  (currentValue <$> watches (service updatedAfterRelease) !! 0%nat)
  = Some (Some (serverDoc "new")) /\
  (callbacks <$> watches (service updatedAfterRelease) !! 0%nat) = Some [] /\
  data (service updatedAfterRelease) 0%nat
  = Some (serverDoc "Test Description").
Proof. vm_compute. repeat split; reflexivity. Qed.

(** *** Any number of acquisitions of one key *)

Section ManyAcquisitions.
Context (client : ConvexClient) (q : FunctionReference) (queryArgs : value)
        (v : Value).
Hypothesis query_ok : client_query client q queryArgs = Success v.
Hypothesis watch_ok : client_onUpdate client q queryArgs = None.

Lemma newLiveData_initial (x : Value) (w : WatchRef) :
  newLiveData (Some x) w (Some x)
  = {| _data := Some x; ld_unsubscribe := Some w |}.
Proof. unfold newLiveData. destruct (nullish (Some x)); reflexivity. Qed.

Lemma run_snoc (c : ConvexClient) (ops : list Op) (op : Op) :
  run c (ops ++ [op]) = step c (run c ops) op.
Proof. unfold run. rewrite fold_left_app. reflexivity. Qed.

Lemma run_app (c : ConvexClient) (ops1 ops2 : list Op) :
  run c (ops1 ++ ops2) = fold_left (step c) ops2 (run c ops1).
Proof. unfold run. apply fold_left_app. Qed.

(** After [n + 1] acquisitions: one entry counted [n + 1] times, one
    [LiveData], one watch, one query. *)
Lemma acquired_session (n : nat) :
  run client (replicate (S n) (Acquire q queryArgs))
  = sharedSession q queryArgs v (Z.of_nat (S n)) true (S n).
Proof.
  induction n as [|n IH].
  - unfold run. cbn [replicate fold_left step]. unfold acquire, resolveRequest.
    cbn [watchRequest cacheKey query args service initial activeWatches].
    rewrite lookup_empty, query_ok, watch_ok.
    cbn. rewrite newLiveData_initial. reflexivity.
  - change (replicate (S (S n)) (Acquire q queryArgs))
      with (Acquire q queryArgs :: replicate (S n) (Acquire q queryArgs)).
    rewrite (replicate_cons_app (S n)).
    rewrite run_snoc, IH. unfold sharedSession, sharedState.
    cbn [step service held]. unfold acquire, resolveRequest.
    cbn [watchRequest cacheKey query args activeWatches].
    rewrite lookup_insert_eq. cbn [liveData unsubscribe refCount
      liveDataCacheKeys liveDatas watches queryLog].
    rewrite !insert_insert_eq.
    rewrite <- replicate_cons_app. cbn [replicate].
    cbn [activeWatches].
    replace (Z.of_nat (S n) + 1) with (Z.of_nat (S (S n))) by lia.
    reflexivity.
Qed.


(** The first release of a shared [LiveData] counts down, forgets the cache
    key and destroys the [LiveData]. *)
Lemma first_release (n : nat) :
  step client (sharedSession q queryArgs v (Z.of_nat (S (S n))) true (S (S n)))
       (Release 0%nat)
  = sharedSession q queryArgs v (Z.of_nat (S n)) false (S n).
Proof.
  unfold sharedSession, sharedState. cbn [step service held replicate map snd].
  rewrite bool_decide_eq_true_2 by apply list_elem_of_here.
  cbn [removeHeld]. rewrite bool_decide_eq_true_2 by reflexivity.
  f_equal. unfold release, releaseWatch.
  cbn [liveDataCacheKeys activeWatches].
  rewrite lookup_insert_eq.
  rewrite bool_decide_eq_false_2 by apply cacheKeyOf_nonempty.
  rewrite lookup_insert_eq. cbn [refCount liveData unsubscribe].
  rewrite bool_decide_eq_false_2 by lia.
  cbn [activeWatches liveDataCacheKeys liveDatas watches queryLog].
  rewrite insert_insert_eq, delete_insert_eq, delete_empty.
  unfold destroy. cbn.
  replace (Z.of_nat (S (S n)) - 1) with (Z.of_nat (S n)) by lia.
  reflexivity.
Qed.

(** Every later release finds no cache key and leaves the service as it
    is. *)
Lemma later_release (count : Z) (n : nat) :
  step client (sharedSession q queryArgs v count false (S n)) (Release 0%nat)
  = sharedSession q queryArgs v count false n.
Proof.
  unfold sharedSession, sharedState. cbn [step service held replicate map snd].
  rewrite bool_decide_eq_true_2 by apply list_elem_of_here.
  cbn [removeHeld]. rewrite bool_decide_eq_true_2 by reflexivity.
  f_equal.
Qed.

Lemma later_releases (count : Z) (n : nat) :
  fold_left (step client) (replicate n (Release 0%nat))
            (sharedSession q queryArgs v count false n)
  = sharedSession q queryArgs v count false 0.
Proof.
  induction n as [|n IH]; [reflexivity|].
  cbn [replicate fold_left]. rewrite later_release. exact IH.
Qed.

(** Acquired [n] times and released [n] times, for any [n] from 2 on: the
    entry stays, counted [n - 1], over the destroyed [LiveData], with the
    upstream watch subscribed. *)
Lemma released_session (n : nat) :
  run client (replicate (S (S n)) (Acquire q queryArgs)
              ++ replicate (S (S n)) (Release 0%nat))
  = sharedSession q queryArgs v (Z.of_nat (S n)) false 0.
Proof.
  rewrite run_app, acquired_session.
  cbn [replicate fold_left]. rewrite first_release. apply later_releases.
Qed.

(** The next acquisition then takes the dedup path: no query, and the same
    [LiveData] again. *)
Lemma reacquire_shared (count : Z) :
  exists st,
    acquire client q queryArgs (sharedState q queryArgs v count false)
    = (st, Success 0%nat) /\
    queryLog st = [(q, queryArgs)] /\
    liveDatas st = [{| _data := Some v; ld_unsubscribe := None |}].
Proof.
  unfold acquire, resolveRequest, sharedState.
  cbn [watchRequest cacheKey query args activeWatches].
  rewrite lookup_insert_eq. eexists. split; [reflexivity|].
  split; reflexivity.
Qed.

(** An upstream update reaches the shared [LiveData] as long as it has not
    been destroyed, and does not reach it afterwards, whatever the count. *)
Lemma update_shared (count : Z) (live : bool) (v' : Value) :
  let st := upstreamUpdate 0%nat v' (sharedState q queryArgs v count live) in
  currentValue <$> watches st !! 0%nat = Some (Some v') /\
  data st 0%nat = Some (if live then v' else v).
Proof. destruct live; split; reflexivity. Qed.

End ManyAcquisitions.


(** *** What holds in every session that can be reached *)

Lemma holders_cons (key : string) (hs : list (string * LiveDataRef))
    (k : string) (ld : LiveDataRef) :
  holders key ((k, ld) :: hs)
  = (if bool_decide (k = key) then 1 else 0) + holders key hs.
Proof.
  unfold holders. rewrite filter_cons. cbn [fst].
  case_decide; case_bool_decide; try contradiction; cbn [length]; lia.
Qed.

Lemma holders_nonneg (key : string) (hs : list (string * LiveDataRef)) :
  0 <= holders key hs.
Proof. unfold holders. lia. Qed.

Lemma holders_snoc (key : string) (hs : list (string * LiveDataRef))
    (k : string) (ld : LiveDataRef) :
  holders key (hs ++ [(k, ld)])
  = holders key hs + (if bool_decide (k = key) then 1 else 0).
Proof.
  induction hs as [|[k' l'] hs IH]; cbn [app].
  - rewrite holders_cons. unfold holders. cbn. lia.
  - rewrite !holders_cons, IH. lia.
Qed.

Lemma holders_elem (key : string) (hs : list (string * LiveDataRef))
    (ld : LiveDataRef) :
  (key, ld) ∈ hs -> 1 <= holders key hs.
Proof.
  induction hs as [|[k' l'] hs IH]; intros Hin.
  - apply elem_of_nil in Hin. contradiction.
  - rewrite holders_cons. pose proof (holders_nonneg key hs).
    apply elem_of_cons in Hin as [[= <- <-]|Hin].
    + rewrite bool_decide_eq_true_2 by reflexivity. lia.
    + specialize (IH Hin). case_bool_decide; lia.
Qed.

Lemma removeHeld_spec (ld : LiveDataRef) (hs : list (string * LiveDataRef)) :
  ld ∈ map snd hs ->
  exists k0,
    (k0, ld) ∈ hs /\
    (forall key,
       holders key (removeHeld ld hs)
       = holders key hs - (if bool_decide (k0 = key) then 1 else 0)) /\
    (forall x, x ∈ removeHeld ld hs -> x ∈ hs).
Proof.
  induction hs as [|[k l] hs IH]; cbn [map snd removeHeld]; intros Hin.
  - apply elem_of_nil in Hin. contradiction.
  - destruct (decide (l = ld)) as [->|Hne].
    + rewrite bool_decide_eq_true_2 by reflexivity.
      exists k. split; [apply list_elem_of_here|]. split.
      * intros key. rewrite holders_cons. lia.
      * intros x Hx. apply list_elem_of_further, Hx.
    + rewrite bool_decide_eq_false_2 by exact Hne.
      apply elem_of_cons in Hin as [Hin|Hin]; [congruence|].
      destruct (IH Hin) as (k0 & Hk0 & Hcount & Hsub).
      exists k0. split; [apply list_elem_of_further, Hk0|]. split.
      * intros key. rewrite !holders_cons, Hcount. lia.
      * intros x Hx. apply elem_of_cons in Hx as [->|Hx].
        -- apply list_elem_of_here.
        -- apply list_elem_of_further, Hsub, Hx.
Qed.

Lemma counted_initial : counted {| service := initial; held := [] |}.
Proof.
  split; cbn.
  - intros k w H. rewrite lookup_empty in H. discriminate.
  - intros k1 k2 w1 w2 H. rewrite lookup_empty in H. discriminate.
  - intros ld k H. rewrite lookup_empty in H. discriminate.
  - intros k ld H. apply elem_of_nil in H. contradiction.
Qed.

Lemma counted_acquire (client : ConvexClient) (s : Session)
    (q : FunctionReference) (queryArgs : value) :
  counted s -> counted (step client s (Acquire q queryArgs)).
Proof.
  intros [He Hd Hk Hh]. cbn [step]. unfold acquire, resolveRequest.
  cbn [watchRequest cacheKey query args].
  set (K := cacheKeyOf q queryArgs).
  destruct (activeWatches (service s) !! K) as [w|] eqn:Hw.
  - (* the dedup path *)
    destruct (He K w Hw) as [Hlen Hrc].
    split; cbn [service held activeWatches liveDataCacheKeys liveDatas
                liveData unsubscribe refCount]; unfold outstanding;
      cbn [held].
    + intros k e. rewrite lookup_insert. case_decide as Hk'.
      * intros [= <-]. cbn. split; [exact Hlen | lia].
      * apply He.
    + intros k1 k2 w1 w2. rewrite !lookup_insert.
      destruct (decide (K = k1)) as [<-|H1], (decide (K = k2)) as [<-|H2];
        try reflexivity.
      * intros [= <-] H2' Hld. cbn in Hld. exact (Hd K k2 w w2 Hw H2' Hld).
      * intros H1' [= <-] Hld. cbn in Hld. exact (Hd k1 K w1 w H1' Hw Hld).
      * apply Hd.
    + intros ld k. rewrite lookup_insert. case_decide as Hld.
      * intros [= <-]. split; [apply cacheKeyOf_nonempty|].
        rewrite lookup_insert_eq. eexists. split; [reflexivity|].
        cbn. exact Hld.
      * intros Hkey. destruct (Hk ld k Hkey) as (Hne & e & Hent & Heq).
        split; [exact Hne|]. rewrite lookup_insert. case_decide as HK.
        -- subst k. rewrite Hw in Hent. injection Hent as <-.
           eexists. split; [reflexivity|]. exact Heq.
        -- exists e. auto.
    + intros k ld Hin. rewrite holders_snoc.
      apply elem_of_app in Hin as [Hin|Hin].
      * destruct (Hh k ld Hin) as (e & Hent & Heq & Hcount).
        unfold outstanding in Hcount.
        rewrite lookup_insert. case_decide as HK.
        -- subst k. rewrite Hw in Hent. injection Hent as <-.
           eexists. split; [reflexivity|]. cbn [liveData refCount unsubscribe]. split; [exact Heq|].
           rewrite bool_decide_eq_true_2 by reflexivity. lia.
        -- exists e. rewrite bool_decide_eq_false_2 by exact HK.
           split; [exact Hent|]. split; [exact Heq|]. lia.
      * apply list_elem_of_singleton in Hin. injection Hin as -> ->.
        rewrite lookup_insert_eq. eexists. split; [reflexivity|].
        cbn [liveData refCount unsubscribe]. split; [reflexivity|].
        rewrite bool_decide_eq_true_2 by reflexivity.
        destruct (decide (holders K (held s) = 0)) as [->|Hpos]; [lia|].
        assert (Hex : exists x, x ∈ filter (fun h => fst h = K) (held s)).
        { unfold holders in Hpos.
          destruct (filter (fun h => fst h = K) (held s)) as [|x l];
            [cbn in Hpos; lia|].
          exists x. apply list_elem_of_here. }
        destruct Hex as ([k0 l0] & Hx).
        apply list_elem_of_filter in Hx as [Hk0 Hx]. cbn in Hk0. subst k0.
        destruct (Hh K l0 Hx) as (e & Hent & _ & Hcount).
        rewrite Hw in Hent. injection Hent as <-.
        unfold outstanding in Hcount. lia.
  - (* a new watch *)
    assert (Hnone : holders K (held s) = 0).
    { destruct (decide (holders K (held s) = 0)) as [E|Hpos]; [exact E|].
      exfalso. unfold holders in Hpos.
      destruct (filter (fun h => fst h = K) (held s)) as [|[k0 l0] l] eqn:Hf;
        [cbn in Hpos; lia|].
      assert (Hx : (k0, l0) ∈ filter (fun h => fst h = K) (held s))
        by (rewrite Hf; apply list_elem_of_here).
      apply list_elem_of_filter in Hx as [Hk0 Hx]. cbn in Hk0. subst k0.
      destruct (Hh K l0 Hx) as (e & Hent & _). congruence. }
    destruct (client_query client q queryArgs) as [initialValue|e].
    2:{ split; cbn; auto. }
    destruct (client_onUpdate client q queryArgs) as [e|].
    1:{ split; cbn; auto. }
    split; cbn [service held activeWatches liveDataCacheKeys liveDatas
                liveData unsubscribe refCount]; unfold outstanding;
      cbn [held].
    + intros k e. rewrite lookup_insert, length_app. cbn [length].
      case_decide as Hk'.
      * intros [= <-]. cbn. split; lia.
      * intros Hent. destruct (He k e Hent). split; lia.
    + intros k1 k2 w1 w2. rewrite !lookup_insert.
      destruct (decide (K = k1)) as [<-|H1], (decide (K = k2)) as [<-|H2];
        try reflexivity.
      * intros [= <-] H2' Hld. cbn in Hld.
        destruct (He k2 w2 H2'). lia.
      * intros H1' [= <-] Hld. cbn in Hld.
        destruct (He k1 w1 H1'). lia.
      * apply Hd.
    + intros ld k. rewrite lookup_insert. case_decide as Hld.
      * intros [= <-]. split; [apply cacheKeyOf_nonempty|].
        rewrite lookup_insert_eq. eexists. split; [reflexivity|].
        cbn. exact Hld.
      * intros Hkey. destruct (Hk ld k Hkey) as (Hne & e & Hent & Heq).
        split; [exact Hne|]. rewrite lookup_insert. case_decide as HK.
        -- subst k. congruence.
        -- exists e. auto.
    + intros k ld Hin. rewrite holders_snoc.
      apply elem_of_app in Hin as [Hin|Hin].
      * destruct (Hh k ld Hin) as (e & Hent & Heq & Hcount).
        unfold outstanding in Hcount.
        rewrite lookup_insert. case_decide as HK.
        -- subst k. congruence.
        -- exists e. rewrite bool_decide_eq_false_2 by exact HK.
           split; [exact Hent|]. split; [exact Heq|]. lia.
      * apply list_elem_of_singleton in Hin. injection Hin as -> ->.
        rewrite lookup_insert_eq. eexists. split; [reflexivity|].
        cbn [liveData refCount unsubscribe]. split; [reflexivity|].
        rewrite bool_decide_eq_true_2 by reflexivity. lia.
Qed.

Lemma destroy_length (ld : LiveDataRef) (st : State) :
  length (liveDatas (destroy ld st)) = length (liveDatas st).
Proof.
  unfold destroy. destruct (liveDatas st !! ld) as [obj|]; [|reflexivity].
  destruct (ld_unsubscribe obj); [|reflexivity].
  cbn. apply length_insert.
Qed.

(** [counted] looks at the entries, the recorded keys, the number of
    [LiveData] objects and the outstanding acquisitions only. *)
Lemma counted_same (s s' : Session) :
  activeWatches (service s') = activeWatches (service s) ->
  liveDataCacheKeys (service s') = liveDataCacheKeys (service s) ->
  length (liveDatas (service s')) = length (liveDatas (service s)) ->
  held s' = held s ->
  counted s -> counted s'.
Proof.
  intros Ha Hc Hl Hh [He Hd Hk Hheld].
  split; unfold outstanding; rewrite ?Ha, ?Hc, ?Hl, ?Hh; assumption.
Qed.

Lemma counted_release (client : ConvexClient) (s : Session)
    (ld : LiveDataRef) :
  counted s -> counted (step client s (Release ld)).
Proof.
  intros Hs. cbn [step]. case_bool_decide as Hin; [|exact Hs].
  destruct (removeHeld_spec ld (held s) Hin) as (k0 & Hk0 & Hcount & Hsub).
  pose proof Hs as [He Hd Hk Hh].
  destruct (Hh k0 ld Hk0) as (e0 & Hent0 & Hld0 & Hle0).
  unfold outstanding in Hle0.
  set (st := service s) in *.
  (* the state before [destroy] *)
  apply (counted_same
           {| service := releaseWatch ld st;
              held := removeHeld ld (held s) |}).
  1-4: cbn [service held]; unfold release; fold st;
       rewrite ?destroy_activeWatches, ?destroy_liveDataCacheKeys,
         ?destroy_length; reflexivity.
  unfold releaseWatch.
  assert (Hweaker : forall k l, (k, l) ∈ removeHeld ld (held s) ->
            exists w, activeWatches st !! k = Some w /\ liveData w = l /\
                      holders k (removeHeld ld (held s)) <= refCount w).
  { intros k l Hx. destruct (Hh k l (Hsub _ Hx)) as (w & Hw & Hl & Hle).
    exists w. split; [exact Hw|]. split; [exact Hl|].
    unfold outstanding in Hle. rewrite Hcount. case_bool_decide; lia. }
  destruct (liveDataCacheKeys st !! ld) as [key|] eqn:Hkey.
  2:{ split; unfold outstanding; cbn [service held]; auto. }
  destruct (Hk ld key Hkey) as (Hne & e & Hent & Hlde).
  rewrite bool_decide_eq_false_2 by exact Hne.
  assert (key = k0) as -> by (eapply Hd; [exact Hent | exact Hent0 | congruence]).
  rewrite Hent0 in Hent. injection Hent as <-. rewrite Hent0.
  destruct (He k0 e0 Hent0) as [Hlen Hrc].
  case_bool_decide as Hzero.
  - (* the count reaches 0: the entry goes *)
    split; unfold outstanding;
      cbn [service held activeWatches liveDataCacheKeys liveDatas].
    + intros k w. rewrite lookup_delete. case_decide; [discriminate|]. apply He.
    + intros k1 k2 w1 w2. rewrite !lookup_delete.
      repeat case_decide; try discriminate. apply Hd.
    + intros l k. rewrite lookup_delete. case_decide as Hl; [discriminate|].
      intros Hkey'. destruct (Hk l k Hkey') as (Hne' & w & Hw & Hlw).
      split; [exact Hne'|]. exists w. split; [|exact Hlw].
      rewrite lookup_delete. case_decide as Hkk; [|exact Hw].
      subst k. rewrite Hent0 in Hw. injection Hw as <-. congruence.
    + intros k l Hx. destruct (Hweaker k l Hx) as (w & Hw & Hl & Hle).
      exists w. split; [|auto]. rewrite lookup_delete.
      case_decide as Hkk; [|exact Hw]. subst k. exfalso.
      pose proof (holders_elem _ _ _ Hx) as Hpos.
      rewrite Hcount, bool_decide_eq_true_2 in Hpos by reflexivity. lia.
  - (* the count stays positive *)
    split; unfold outstanding;
      cbn [service held activeWatches liveDataCacheKeys liveDatas].
    + intros k w. rewrite lookup_insert. case_decide.
      * intros [= <-]. cbn. split; [exact Hlen | lia].
      * apply He.
    + intros k1 k2 w1 w2. rewrite !lookup_insert.
      destruct (decide (k0 = k1)) as [<-|H1], (decide (k0 = k2)) as [<-|H2];
        try reflexivity.
      * intros [= <-] H2' Hl. cbn in Hl. exact (Hd k0 k2 e0 w2 Hent0 H2' Hl).
      * intros H1' [= <-] Hl. cbn in Hl. exact (Hd k1 k0 w1 e0 H1' Hent0 Hl).
      * apply Hd.
    + intros l k. rewrite lookup_delete. case_decide as Hl; [discriminate|].
      intros Hkey'. destruct (Hk l k Hkey') as (Hne' & w & Hw & Hlw).
      split; [exact Hne'|]. rewrite lookup_insert. case_decide as Hkk.
      * subst k. rewrite Hent0 in Hw. injection Hw as <-.
        eexists. split; [reflexivity|]. exact Hlw.
      * exists w. auto.
    + intros k l Hx. destruct (Hh k l (Hsub _ Hx)) as (w & Hw & Hl & Hle).
      unfold outstanding in Hle.
      rewrite lookup_insert, Hcount. case_decide as Hkk.
      * subst k. rewrite Hent0 in Hw. injection Hw as <-.
        eexists. split; [reflexivity|]. cbn [liveData refCount].
        split; [exact Hl|]. rewrite bool_decide_eq_true_2 by reflexivity. lia.
      * exists w. split; [exact Hw|]. split; [exact Hl|].
        rewrite bool_decide_eq_false_2 by exact Hkk. lia.
Qed.

Lemma runCallback_length (newData : option Value) (cbs : list LiveDataRef)
    (lds : list LiveData) :
  length (fold_left (runCallback newData) cbs lds) = length lds.
Proof.
  revert lds. induction cbs as [|cb cbs IH]; intros lds; [reflexivity|].
  cbn [fold_left]. rewrite IH. unfold runCallback.
  destruct newData; [apply length_alter | reflexivity].
Qed.

Lemma counted_update (client : ConvexClient) (s : Session) (w : WatchRef)
    (result : Value) :
  counted s -> counted (step client s (Update w result)).
Proof.
  apply counted_same; cbn [step service held]; unfold upstreamUpdate;
    try reflexivity;
    destruct (watches (service s) !! w) as [watch|]; try reflexivity;
    destruct (subscribed watch); try reflexivity.
  cbn. apply runCallback_length.
Qed.

(** Every session reached from the initial one is [counted]. *)
Lemma run_counted (client : ConvexClient) (ops : list Op) :
  counted (run client ops).
Proof.
  induction ops as [|op ops IH] using rev_ind; [apply counted_initial|].
  rewrite run_snoc. destruct op.
  - apply counted_acquire, IH.
  - apply counted_release, IH.
  - apply counted_update, IH.
Qed.

(** What does hold of C4 in every reachable session: while acquisitions of
    a key are outstanding, its entry exists, counts at least as many, and
    all of them hold the [LiveData] of the entry. *)
Lemma outstanding_entry (client : ConvexClient) (ops : list Op)
    (key : string) :
  let s := run client ops in
  0 < outstanding key s ->
  exists w,
    activeWatches (service s) !! key = Some w /\
    outstanding key s <= refCount w /\
    forall ld, (key, ld) ∈ held s -> ld = liveData w.
Proof.
  intros s Hpos. destruct (run_counted client ops) as [_ _ _ Hh]. fold s in Hh.
  unfold outstanding, holders in Hpos.
  destruct (filter (fun h => fst h = key) (held s)) as [|[k0 l0] l] eqn:Hf;
    [cbn in Hpos; lia|].
  assert (Hx : (k0, l0) ∈ filter (fun h => fst h = key) (held s))
    by (rewrite Hf; apply list_elem_of_here).
  apply list_elem_of_filter in Hx as [Hk0 Hx]. cbn in Hk0. subst k0.
  destruct (Hh key l0 Hx) as (w & Hw & Hl & Hle).
  exists w. split; [exact Hw|]. split; [exact Hle|].
  intros ld Hld. destruct (Hh key ld Hld) as (w' & Hw' & Hl' & _).
  congruence.
Qed.

(** *** A released [LiveData] is never updated again *)

Lemma wired_same (st st' : State) :
  (forall i, ld_unsubscribe <$> liveDatas st' !! i
             = ld_unsubscribe <$> liveDatas st !! i) ->
  (forall w, callbacks <$> watches st' !! w = callbacks <$> watches st !! w) ->
  wired st -> wired st'.
Proof.
  intros Hl Hw H w watch ld Hwatch Hin.
  specialize (Hw w). rewrite Hwatch in Hw. cbn in Hw.
  destruct (watches st !! w) as [watch0|] eqn:Hw0; [|discriminate].
  injection Hw as Hcb. rewrite Hcb in Hin.
  destruct (H w watch0 ld Hw0 Hin) as (obj & Hobj & Hun).
  specialize (Hl ld). rewrite Hobj in Hl. cbn in Hl.
  destruct (liveDatas st' !! ld) as [obj'|]; [|discriminate].
  injection Hl as Hl. exists obj'. split; [reflexivity | congruence].
Qed.

Lemma wired_initial : wired initial.
Proof. intros w watch ld H. discriminate H. Qed.

Lemma wired_acquire (client : ConvexClient) (q : FunctionReference)
    (queryArgs : value) (st : State) :
  wired st -> wired (fst (acquire client q queryArgs st)).
Proof.
  intros H. unfold acquire, resolveRequest.
  cbn [watchRequest cacheKey query args].
  destruct (activeWatches st !! cacheKeyOf q queryArgs) as [e|];
    [exact H|].
  destruct (client_query client q queryArgs) as [initialValue|e]; [|exact H].
  destruct (client_onUpdate client q queryArgs) as [e|]; [exact H|].
  cbn [fst liveDatas watches]. intros w watch ld Hw Hin.
  apply lookup_app_Some in Hw as [Hw|[Hlen Hw]].
  - destruct (H w watch ld Hw Hin) as (obj & Hobj & Hun).
    exists obj. split; [|exact Hun]. cbn.
    apply lookup_app_l_Some, Hobj.
  - apply list_lookup_singleton_Some in Hw as [Hw0 <-].
    cbn [callbacks] in Hin. apply list_elem_of_singleton in Hin. subst ld.
    cbn [liveDatas watches] in *. eexists. split.
    + rewrite lookup_app_r by reflexivity. rewrite Nat.sub_diag. reflexivity.
    + cbn. f_equal. lia.
Qed.

Lemma wired_destroy (ld : LiveDataRef) (st : State) :
  wired st -> wired (destroy ld st).
Proof.
  intros H. unfold destroy.
  destruct (liveDatas st !! ld) as [obj|] eqn:Hobj; [|exact H].
  destruct (ld_unsubscribe obj) as [w0|] eqn:Hun; [|exact H].
  intros w watch l Hw Hin. cbn [watches liveDatas] in *.
  destruct (decide (w = w0)) as [->|Hne].
  - rewrite list_lookup_alter_eq in Hw.
    destruct (watches st !! w0) as [watch0|] eqn:Hw0; [|discriminate].
    injection Hw as <-. cbn [callbacks] in Hin.
    apply list_elem_of_filter in Hin as [Hl Hin].
    destruct (H w0 watch0 l Hw0 Hin) as (obj' & Hobj' & Hun').
    exists obj'. split; [|exact Hun'].
    rewrite list_lookup_insert_ne by congruence. exact Hobj'.
  - rewrite list_lookup_alter_ne in Hw by congruence.
    destruct (H w watch l Hw Hin) as (obj' & Hobj' & Hun').
    exists obj'. split; [|exact Hun'].
    rewrite list_lookup_insert_ne; [exact Hobj'|].
    intros <-. congruence.
Qed.

Lemma releaseWatch_liveDatas (ld : LiveDataRef) (st : State) :
  liveDatas (releaseWatch ld st) = liveDatas st.
Proof.
  unfold releaseWatch.
  destruct (liveDataCacheKeys st !! ld) as [key|]; [|reflexivity].
  destruct (bool_decide (key = "")); [reflexivity|].
  destruct (activeWatches st !! key) as [watch|]; [|reflexivity].
  cbn. destruct (bool_decide (refCount watch - 1 = 0)); reflexivity.
Qed.

Lemma releaseWatch_callbacks (ld : LiveDataRef) (st : State) (w : WatchRef) :
  callbacks <$> watches (releaseWatch ld st) !! w
  = callbacks <$> watches st !! w.
Proof.
  unfold releaseWatch.
  destruct (liveDataCacheKeys st !! ld) as [key|]; [|reflexivity].
  destruct (bool_decide (key = "")); [reflexivity|].
  destruct (activeWatches st !! key) as [watch|]; [|reflexivity].
  cbn. destruct (bool_decide (refCount watch - 1 = 0)); [|reflexivity].
  cbn. unfold unsubscribeUpstream.
  destruct (decide (w = unsubscribe watch)) as [->|Hne].
  - rewrite list_lookup_alter_eq, <- option_fmap_compose.
    apply option_fmap_ext. reflexivity.
  - rewrite list_lookup_alter_ne by congruence. reflexivity.
Qed.

Lemma wired_release (ld : LiveDataRef) (st : State) :
  wired st -> wired (release ld st).
Proof.
  intros H. unfold release. apply wired_destroy.
  revert H. apply wired_same.
  - intros i. rewrite releaseWatch_liveDatas. reflexivity.
  - apply releaseWatch_callbacks.
Qed.

Lemma runCallback_unsubscribe (newData : option Value)
    (cbs : list LiveDataRef) (lds : list LiveData) (i : nat) :
  ld_unsubscribe <$> fold_left (runCallback newData) cbs lds !! i
  = ld_unsubscribe <$> lds !! i.
Proof.
  revert lds. induction cbs as [|cb cbs IH]; intros lds; [reflexivity|].
  cbn [fold_left]. rewrite IH. unfold runCallback.
  destruct newData as [x|]; [|reflexivity].
  destruct (decide (cb = i)) as [->|Hne].
  - rewrite list_lookup_alter_eq, <- option_fmap_compose.
    apply option_fmap_ext. reflexivity.
  - rewrite list_lookup_alter_ne by exact Hne. reflexivity.
Qed.

Lemma runCallback_other (newData : option Value) (cbs : list LiveDataRef)
    (lds : list LiveData) (i : nat) :
  i ∉ cbs -> fold_left (runCallback newData) cbs lds !! i = lds !! i.
Proof.
  revert lds. induction cbs as [|cb cbs IH]; intros lds Hi; [reflexivity|].
  apply not_elem_of_cons in Hi as [Hne Hi].
  cbn [fold_left]. rewrite IH by exact Hi. unfold runCallback.
  destruct newData as [x|]; [|reflexivity].
  apply list_lookup_alter_ne. congruence.
Qed.

Lemma wired_update (w : WatchRef) (result : Value) (st : State) :
  wired st -> wired (upstreamUpdate w result st).
Proof.
  intros H. unfold upstreamUpdate.
  destruct (watches st !! w) as [watch|] eqn:Hw; [|exact H].
  destruct (subscribed watch); [|exact H].
  revert H. apply wired_same; cbn [liveDatas watches].
  - intros i. apply runCallback_unsubscribe.
  - intros w'. destruct (decide (w' = w)) as [->|Hne].
    + rewrite list_lookup_insert_eq by (eapply lookup_lt_Some; exact Hw).
      rewrite Hw. reflexivity.
    + rewrite list_lookup_insert_ne by congruence. reflexivity.
Qed.

Lemma step_wired (client : ConvexClient) (s : Session) (op : Op) :
  wired (service s) -> wired (service (step client s op)).
Proof.
  intros H. destruct op as [q queryArgs|ld|w result]; cbn [step].
  - pose proof (wired_acquire client q queryArgs _ H) as H'.
    destruct (acquire client q queryArgs (service s)) as [st [ld|e]];
      exact H'.
  - case_bool_decide; [apply wired_release, H | exact H].
  - apply wired_update, H.
Qed.

Lemma run_wired (client : ConvexClient) (ops : list Op) :
  wired (service (run client ops)).
Proof.
  induction ops as [|op ops IH] using rev_ind; [apply wired_initial|].
  rewrite run_snoc. apply step_wired, IH.
Qed.

(** The release leaves the [LiveData] destroyed, with the data it had. *)
Lemma release_destroys (ld : LiveDataRef) (st : State) (obj : LiveData) :
  liveDatas st !! ld = Some obj ->
  liveDatas (release ld st) !! ld
  = Some {| _data := _data obj; ld_unsubscribe := None |}.
Proof.
  intros Hobj. unfold release, destroy.
  rewrite releaseWatch_liveDatas, Hobj.
  destruct (ld_unsubscribe obj) as [w|] eqn:Hun.
  - cbn [liveDatas]. rewrite ?releaseWatch_liveDatas.
    apply list_lookup_insert_eq. eapply lookup_lt_Some, Hobj.
  - rewrite ?releaseWatch_liveDatas, Hobj. destruct obj as [d u].
    cbn in Hun. subst u. reflexivity.
Qed.

(** Nothing changes a destroyed [LiveData]. *)
Lemma step_destroyed (client : ConvexClient) (s : Session) (op : Op)
    (ld : LiveDataRef) (d : option Value) :
  wired (service s) ->
  liveDatas (service s) !! ld
  = Some {| _data := d; ld_unsubscribe := None |} ->
  liveDatas (service (step client s op)) !! ld
  = Some {| _data := d; ld_unsubscribe := None |}.
Proof.
  intros Hwired Hobj. destruct op as [q queryArgs|ld'|w result]; cbn [step].
  - assert (H : liveDatas (fst (acquire client q queryArgs (service s))) !! ld
                = Some {| _data := d; ld_unsubscribe := None |}).
    { unfold acquire, resolveRequest.
      cbn [watchRequest cacheKey query args].
      destruct (activeWatches (service s) !! cacheKeyOf q queryArgs);
        [exact Hobj|].
      destruct (client_query client q queryArgs); [|exact Hobj].
      destruct (client_onUpdate client q queryArgs); [exact Hobj|].
      cbn. apply lookup_app_l_Some, Hobj. }
    destruct (acquire client q queryArgs (service s)) as [st [l|e]]; exact H.
  - case_bool_decide; [|exact Hobj]. cbn [service].
    destruct (decide (ld' = ld)) as [->|Hne].
    + rewrite (release_destroys _ _ _ Hobj). reflexivity.
    + unfold release, destroy. rewrite releaseWatch_liveDatas.
      destruct (liveDatas (service s) !! ld') as [obj'|];
        [|rewrite ?releaseWatch_liveDatas; exact Hobj].
      destruct (ld_unsubscribe obj');
        [|rewrite ?releaseWatch_liveDatas; exact Hobj].
      cbn [liveDatas]. rewrite ?releaseWatch_liveDatas.
      rewrite list_lookup_insert_ne by exact Hne. exact Hobj.
  - cbn [service]. unfold upstreamUpdate.
    destruct (watches (service s) !! w) as [watch|] eqn:Hw; [|exact Hobj].
    destruct (subscribed watch); [|exact Hobj].
    cbn [liveDatas]. rewrite runCallback_other; [exact Hobj|].
    intros Hin. destruct (Hwired w watch ld Hw Hin) as (obj & Hobj' & Hun).
    rewrite Hobj in Hobj'. injection Hobj' as <-. discriminate Hun.
Qed.

(** The general form of the defect behind C6: once one acquisition of a
    [LiveData] has been released, its [data] stays what it was, whatever
    happens next and whoever still holds it. *)
Lemma released_liveData_frozen (client : ConvexClient) (ops : list Op)
    (ld : LiveDataRef) (later : list Op) :
  ld ∈ map snd (held (run client ops)) ->
  data (service (run client (ops ++ Release ld :: later))) ld
  = data (service (run client ops)) ld.
Proof.
  intros Hheld.
  assert (Hex : exists obj, liveDatas (service (run client ops)) !! ld
                            = Some obj).
  { apply list_elem_of_fmap in Hheld as ([k l] & -> & Hin). cbn [snd].
    destruct (run_counted client ops) as [He _ _ Hh].
    destruct (Hh k l Hin) as (w & Hw & <- & _).
    apply lookup_lt_is_Some_2, (He k w Hw). }
  destruct Hex as (obj & Hobj).
  assert (H : liveDatas (service (run client (ops ++ Release ld :: later))) !! ld
              = Some {| _data := _data obj; ld_unsubscribe := None |}).
  { induction later as [|op later IH] using rev_ind.
    - rewrite run_snoc. cbn [step].
      rewrite bool_decide_eq_true_2 by exact Hheld. cbn [service].
      apply release_destroys, Hobj.
    - change (ops ++ Release ld :: later ++ [op])
        with (ops ++ (Release ld :: later) ++ [op]).
      rewrite app_assoc, run_snoc.
      apply step_destroyed; [apply run_wired | exact IH]. }
  unfold data. rewrite H, Hobj. reflexivity.
Qed.

End LiveQueryFacts.

(** * Further properties *)

(** ** The pseudonym hash and the sanitized projections *)

Module VisibilityMore.
Import Visibility.

Lemma to_int32_range (z : Z) : - 2 ^ 31 <= to_int32 z < 2 ^ 31.
Proof.
  unfold to_int32.
  pose proof (Z.mod_pos_bound (z + 2 ^ 31) (2 ^ 32) ltac:(lia)). lia.
Qed.

Lemma to_int32_shift (z k : Z) : to_int32 (z + 2 ^ 32 * k) = to_int32 z.
Proof.
  unfold to_int32.
  replace (z + 2 ^ 32 * k + 2 ^ 31) with (z + 2 ^ 31 + k * 2 ^ 32) by lia.
  rewrite Z_mod_plus_full. reflexivity.
Qed.

Lemma to_int32_wraps (z : Z) : exists k, to_int32 z = z + 2 ^ 32 * k.
Proof.
  unfold to_int32. exists (- ((z + 2 ^ 31) / 2 ^ 32)).
  pose proof (Z.div_mod (z + 2 ^ 31) (2 ^ 32) ltac:(lia)). lia.
Qed.

Lemma to_int32_small (z : Z) : - 2 ^ 31 <= z < 2 ^ 31 -> to_int32 z = z.
Proof.
  intros Hz. unfold to_int32. rewrite Z.mod_small by lia. lia.
Qed.

Lemma charCode_range (c : ascii) : 0 <= charCode c < 256.
Proof.
  unfold charCode. pose proof (N_ascii_bounded c). lia.
Qed.

(** The two steps of a round: the wrap of the unwrapped value. *)
Lemma simpleHash_round_unwrapped (hash : Z) (c : ascii) :
  simpleHash_round hash c = to_int32 (simpleHash_unwrapped hash c).
Proof.
  unfold simpleHash_round, simpleHash_unwrapped. apply Z.land_diag.
Qed.

(** One round multiplies by 31 and adds the code unit, modulo 2^32. *)
Lemma simpleHash_round_31 (h : Z) (c : ascii) :
  simpleHash_round (to_int32 h) c = to_int32 (31 * h + charCode c).
Proof.
  rewrite simpleHash_round_unwrapped. unfold simpleHash_unwrapped.
  rewrite Z.shiftl_mul_pow2 by lia.
  destruct (to_int32_wraps h) as [k0 Hk0].
  destruct (to_int32_wraps (to_int32 h)) as [k1 Hk1].
  destruct (to_int32_wraps (to_int32 (to_int32 h) * 2 ^ 5)) as [k2 Hk2].
  rewrite Hk2, Hk1, Hk0.
  replace ((h + 2 ^ 32 * k0 + 2 ^ 32 * k1) * 2 ^ 5 + 2 ^ 32 * k2
           - (h + 2 ^ 32 * k0) + charCode c)
    with (31 * h + charCode c + 2 ^ 32 * (32 * k0 + 32 * k1 + k2 - k0))
    by lia.
  apply to_int32_shift.
Qed.

Lemma simpleHash_loop_polynomial (h : Z) (str : string) :
  simpleHash_loop (to_int32 h) str = to_int32 (polynomial31 h str).
Proof.
  revert h. induction str as [|c rest IH]; intros h; cbn [simpleHash_loop
    polynomial31]; [reflexivity|].
  rewrite simpleHash_round_31. apply IH.
Qed.

(** X1. [simpleHash] is the absolute value of the 32-bit wrap of the
    polynomial in 31 over the code units of the string. *)
Theorem simpleHash_polynomial (str : string) :
  simpleHash str = Z.abs (to_int32 (polynomial31 0 str)).
Proof.
  unfold simpleHash. f_equal.
  rewrite <- simpleHash_loop_polynomial. reflexivity.
Qed.

(** X2. The hash stays in the 32-bit range in every round, the value of
    [(hash << 5) - hash + char] stays far inside the range in which the
    arithmetic on numbers is exact, and the result lies between 0 and 2^31. *)
Theorem simpleHash_bounds (str : string) :
  0 <= simpleHash str <= 2 ^ 31 /\
  forall (hash : Z) (c : ascii),
    - 2 ^ 31 <= hash < 2 ^ 31 ->
    - 2 ^ 33 < simpleHash_unwrapped hash c < 2 ^ 33 /\
    - 2 ^ 31 <= simpleHash_round hash c < 2 ^ 31.
Proof.
  split.
  - unfold simpleHash.
    replace (simpleHash_loop 0 str) with (to_int32 (polynomial31 0 str))
      by (symmetry; exact (simpleHash_loop_polynomial 0 str)).
    pose proof (to_int32_range (polynomial31 0 str)). lia.
  - intros hash c Hh. split.
    + unfold simpleHash_unwrapped.
      pose proof (to_int32_range (Z.shiftl (to_int32 hash) 5)).
      pose proof (charCode_range c). lia.
    + rewrite simpleHash_round_unwrapped. apply to_int32_range.
Qed.

Lemma simpleHash_bounds_witness :
  - 2 ^ 33 < simpleHash_unwrapped (2 ^ 31 - 1) "z" < 2 ^ 33 /\
  - 2 ^ 31 <= simpleHash_round (2 ^ 31 - 1) "z" < 2 ^ 31.
Proof. apply (proj2 (simpleHash_bounds "") (2 ^ 31 - 1) "z"%char). lia. Defined.

(** X4. From the raw settings to the decision: a message is public exactly
    when the server preference [considerAllMessagesPublicEnabled] is set to
    true or the author's [canPubliclyDisplayMessages] is set to true; unset
    preferences and a missing settings record count as false. *)
Theorem isMessagePublic_from_settings
    (considerAll anonymize canDisplay : option bool) :
  isMessagePublic (computeServerVisibility considerAll anonymize)
                  (computeUserVisibility canDisplay) = true
  <-> considerAll = Some true \/ canDisplay = Some true.
Proof.
  unfold isMessagePublic, computeServerVisibility, computeUserVisibility.
  destruct considerAll as [[|]|], canDisplay as [[|]|]; cbn;
    split; intros H; try reflexivity; try discriminate; auto;
    destruct H as [H|H]; discriminate H.
Qed.

(** X3. What [applyVisibilityToMessages] lets out about an author: the
    author's [public] flag is the message's flag and not the server's
    anonymize flag; whenever it is false the avatar is null and the name is
    the pseudonym of the id; and only when it is true are the name and the
    avatar those of the account in the author map. *)
Theorem applyVisibilityToMessages_author
    (messages : list Message) (serverVisibility : ServerVisibilityContext)
    (authorMap : gmap string DiscordAccount)
    (authorVisibilityMap : gmap string (option UserVisibilityContext))
    (p : SanitizedPair) (a : SanitizedAuthor) :
  p ∈ applyVisibilityToMessages
        messages serverVisibility authorMap authorVisibilityMap ->
  author p = Some a ->
  exists account,
    authorMap !! authorId (sm_message (message p)) = Some account /\
    sa_id a = id account /\
    sa_public a
    = sm_public (message p) && negb (anonymizeMessagesEnabled serverVisibility) /\
    (sa_public a = false ->
       sa_avatar a = None /\ sa_name a = generateAnonymousName (id account)) /\
    (sa_public a = true ->
       sa_avatar a = avatar account /\ sa_name a = name account).
Proof.
  unfold applyVisibilityToMessages. intros Hin Ha.
  apply list_elem_of_fmap in Hin as (msg & -> & _).
  unfold sanitizeOne in *. cbn [author message sm_message sm_public] in *.
  destruct (authorMap !! authorId msg) as [account|]; [|discriminate].
  exists account. split; [reflexivity|].
  unfold applyVisibilityToAuthor, shouldAnonymizeAuthor in Ha.
  cbn [server user] in Ha.
  destruct (isMessagePublic serverVisibility _);
    destruct (anonymizeMessagesEnabled serverVisibility);
    cbn in Ha; injection Ha as <-; cbn;
    repeat split; intros; try reflexivity; discriminate.
Qed.

Lemma applyVisibilityToMessages_author_witness :
  exists account,
    (<["a1" := {| id := "a1"; name := "Rhys"; avatar := Some "a.png" |}]> ∅
       : gmap string DiscordAccount) !! "a1" = Some account /\
    id account = "a1".
Proof.
  destruct (applyVisibilityToMessages_author
              [helloMessage] privateServer
              (<["a1" := {| id := "a1"; name := "Rhys";
                            avatar := Some "a.png" |}]> ∅)
              ∅
              (sanitizeOne privateServer
                 (<["a1" := {| id := "a1"; name := "Rhys";
                               avatar := Some "a.png" |}]> ∅)
                 ∅ helloMessage)
              {| sa_id := "a1"; sa_name := generateAnonymousName "a1";
                 sa_avatar := None; sa_public := false |})
    as (account & Hacc & Hid & _).
  - apply list_elem_of_here.
  - reflexivity.
  - exists account. split; [exact Hacc|]. rewrite <- Hid. reflexivity.
Defined.

End VisibilityMore.

(** ** The context each message is judged under *)

Module OrchestrationMore.
Import Visibility Orchestration OrchestrationFacts.

Lemma fold_insert_lookup {V : Type} (f : string -> V) (ids : list string)
    (m0 : gmap string V) (k : string) :
  fold_left (fun m aid => <[aid := f aid]> m) ids m0 !! k
  = if bool_decide (k ∈ ids) then Some (f k) else m0 !! k.
Proof.
  revert m0. induction ids as [|aid ids IH]; intros m0; cbn [fold_left].
  - rewrite bool_decide_eq_false_2 by apply not_elem_of_nil. reflexivity.
  - rewrite IH. destruct (decide (k ∈ ids)) as [Hin|Hin].
    + rewrite !bool_decide_eq_true_2; [reflexivity| |exact Hin].
      apply list_elem_of_further, Hin.
    + rewrite (bool_decide_eq_false_2 (k ∈ ids)) by exact Hin.
      destruct (decide (aid = k)) as [->|Hne].
      * rewrite lookup_insert_eq.
        rewrite bool_decide_eq_true_2 by apply list_elem_of_here.
        reflexivity.
      * rewrite lookup_insert_ne by exact Hne.
        rewrite bool_decide_eq_false_2; [reflexivity|].
        rewrite not_elem_of_cons. split; congruence.
Qed.

(** What [getAuthorVisibilityContexts] stores under an author id. *)
Lemma authorVisibility_lookup
    (ctx : QueryCtx) (sid : string) (authorIds : list string) (aid : string) :
  getAuthorVisibilityContexts ctx sid authorIds !! aid
  = if bool_decide (aid ∈ authorIds)
    then Some (computeUserVisibility
                 (us_canPubliclyDisplayMessages
                    <$> findUserServerSettingsById ctx aid sid))
    else None.
Proof.
  unfold getAuthorVisibilityContexts.
  rewrite (fold_insert_lookup
             (fun a => computeUserVisibility
                         (us_canPubliclyDisplayMessages
                            <$> findUserServerSettingsById ctx a sid))).
  rewrite lookup_empty.
  rewrite (bool_decide_ext _ _ (unique_elem authorIds aid)). reflexivity.
Qed.

(** X5. The map built by [getAuthorVisibilityContexts] has an entry exactly
    for the author ids asked for, repeated or not; read back with
    [get(id) ?? null] it gives the visibility computed from that author's
    settings on that server, and [null] for an author without settings
    record as for an author that was not asked for. *)
Theorem getAuthorVisibilityContexts_entries
    (ctx : QueryCtx) (sid : string) (authorIds : list string) (aid : string) :
  (is_Some (getAuthorVisibilityContexts ctx sid authorIds !! aid)
   <-> aid ∈ authorIds) /\
  getOrNull (getAuthorVisibilityContexts ctx sid authorIds) aid
  = if bool_decide (aid ∈ authorIds)
    then computeUserVisibility
           (us_canPubliclyDisplayMessages
              <$> findUserServerSettingsById ctx aid sid)
    else None.
Proof.
  unfold getOrNull. rewrite authorVisibility_lookup.
  case_bool_decide as Hin; split.
  - split; [intros _; exact Hin | intros _; eexists; reflexivity].
  - destruct (computeUserVisibility _); reflexivity.
  - split; [intros [x Hx]; discriminate Hx | contradiction].
  - reflexivity.
Qed.

Lemma restrictAuthors_fold (authorMap : gmap string DiscordAccount)
    (ids : list string) (m0 : gmap string DiscordAccount) (k : string) :
  fold_left
    (fun serverAuthorMap aid =>
       match authorMap !! aid with
       | Some a => <[aid := a]> serverAuthorMap
       | None => serverAuthorMap
       end) ids m0 !! k
  = if bool_decide (k ∈ ids)
    then match authorMap !! k with Some a => Some a | None => m0 !! k end
    else m0 !! k.
Proof.
  revert m0. induction ids as [|aid ids IH]; intros m0; cbn [fold_left].
  - rewrite bool_decide_eq_false_2 by apply not_elem_of_nil. reflexivity.
  - rewrite IH. destruct (decide (k ∈ ids)) as [Hin|Hin].
    + rewrite !bool_decide_eq_true_2;
        [| apply list_elem_of_further, Hin | exact Hin].
      destruct (authorMap !! k) as [a|] eqn:Hk; [reflexivity|].
      destruct (authorMap !! aid) as [b|] eqn:Haid; [|reflexivity].
      apply lookup_insert_ne. intros ->. congruence.
    + rewrite (bool_decide_eq_false_2 (k ∈ ids)) by exact Hin.
      destruct (decide (aid = k)) as [->|Hne].
      * rewrite bool_decide_eq_true_2 by apply list_elem_of_here.
        destruct (authorMap !! k) as [a|]; [apply lookup_insert_eq|].
        reflexivity.
      * rewrite bool_decide_eq_false_2
          by (rewrite not_elem_of_cons; split; congruence).
        destruct (authorMap !! aid); [|reflexivity].
        apply lookup_insert_ne, Hne.
Qed.

(** The restricted author map answers like the full one for the ids it was
    built from, and has nothing else. *)
Lemma restrictAuthors_lookup (authorMap : gmap string DiscordAccount)
    (ids : list string) (k : string) :
  restrictAuthors authorMap ids !! k
  = if bool_decide (k ∈ ids) then authorMap !! k else None.
Proof.
  unfold restrictAuthors. rewrite restrictAuthors_fold, lookup_empty.
  destruct (authorMap !! k); reflexivity.
Qed.

(** The judgement of one message under one server's rules, as the read
    paths are meant to agree on it. *)
Lemma sanitizeGroup_member (ctx : QueryCtx)
    (authorMap : gmap string DiscordAccount) (sid : string)
    (ms : list Message) (msg : Message) :
  msg ∈ ms ->
  sanitizeOne (getServerVisibilityContext ctx sid)
    (restrictAuthors authorMap (unique (map authorId ms)))
    (getAuthorVisibilityContexts ctx sid (unique (map authorId ms))) msg
  = judge ctx authorMap sid msg.
Proof.
  intros Hin. unfold sanitizeOne, judge, getOrNull.
  assert (Haid : authorId msg ∈ unique (map authorId ms)).
  { apply unique_elem, list_elem_of_fmap. exists msg. auto. }
  rewrite restrictAuthors_lookup, authorVisibility_lookup.
  rewrite !bool_decide_eq_true_2 by exact Haid.
  destruct (computeUserVisibility _); reflexivity.
Qed.

Lemma groupByServer_member (messages : list Message) (sid : string)
    (ms : list Message) :
  (sid, ms) ∈ groupByServer messages ->
  sid ∈ map serverId messages /\
  ms = filter (fun m => serverId m = sid) messages.
Proof.
  rewrite groupByServer_groupsInOrder. unfold groupsInOrder.
  intros Hin. apply list_elem_of_fmap in Hin as (k & [= -> ->] & Hk).
  split; [apply unique_elem, Hk | reflexivity].
Qed.

Lemma sanitized_member (ctx : QueryCtx)
    (messages : list Message) (authorMap : gmap string DiscordAccount)
    (p : SanitizedPair) :
  p ∈ getSanitizedMessages ctx messages authorMap ->
  original p ∈ messages /\
  p = judge ctx authorMap (serverId (original p)) (original p).
Proof.
  unfold getSanitizedMessages.
  destruct messages as [|m0 ms0] eqn:Hm;
    [intros H; apply elem_of_nil in H; contradiction|].
  rewrite <- Hm. clear Hm m0 ms0. cbv zeta. intros Hin.
  apply list_elem_of_In, in_concat in Hin as (out & Hout & Hp).
  apply in_map_iff in Hout as ([sid ms] & <- & Hgroup).
  apply list_elem_of_In in Hgroup, Hp.
  apply groupByServer_member in Hgroup as [_ ->].
  unfold sanitizeGroup, applyVisibilityToMessages in Hp.
  apply list_elem_of_fmap in Hp as (msg & -> & Hmsg).
  rewrite sanitizeGroup_member by exact Hmsg.
  apply list_elem_of_filter in Hmsg as [Hsid Hmsg].
  subst sid. split; [exact Hmsg | reflexivity].
Qed.

(** The whole result, group by group. *)
Lemma getSanitizedMessages_eq (ctx : QueryCtx) (messages : list Message)
    (authorMap : gmap string DiscordAccount) :
  getSanitizedMessages ctx messages authorMap
  = concat (map (fun entry => map (judge ctx authorMap (fst entry)) (snd entry))
                (groupsInOrder messages)).
Proof.
  unfold getSanitizedMessages. rewrite <- groupByServer_groupsInOrder.
  destruct messages as [|m0 ms0]; [reflexivity|]. cbv zeta.
  f_equal. apply map_ext. intros [sid ms]. cbn [fst snd].
  unfold sanitizeGroup, applyVisibilityToMessages.
  apply map_ext_in. intros msg Hmsg.
  apply sanitizeGroup_member, list_elem_of_In, Hmsg.
Qed.

(** X7. The pairs returned by [getSanitizedMessages] are exactly the
    judgements of the input messages, each under the preferences of its own
    server and the settings of its author on that server, with the author
    taken from the author map: the other servers of the batch have no
    influence on a message, and no message is lost or invented. *)
Theorem getSanitizedMessages_judgement (ctx : QueryCtx)
    (messages : list Message) (authorMap : gmap string DiscordAccount)
    (p : SanitizedPair) :
  p ∈ getSanitizedMessages ctx messages authorMap <->
  exists msg, msg ∈ messages /\ p = judge ctx authorMap (serverId msg) msg.
Proof.
  split.
  - intros Hin. apply sanitized_member in Hin as [Hm Hp].
    exists (original p). auto.
  - intros (msg & Hmsg & ->). rewrite getSanitizedMessages_eq.
    apply list_elem_of_In, in_concat.
    exists (map (judge ctx authorMap (serverId msg))
                (filter (fun m => serverId m = serverId msg) messages)).
    split.
    + apply in_map_iff.
      exists (serverId msg,
              filter (fun m => serverId m = serverId msg) messages).
      split; [reflexivity|]. unfold groupsInOrder. apply in_map_iff.
      exists (serverId msg). split; [reflexivity|].
      apply list_elem_of_In, unique_elem, list_elem_of_fmap. eauto.
    + apply in_map, list_elem_of_In, list_elem_of_filter. auto.
Qed.

Lemma getSanitizedMessages_judgement_witness :
  judge emptyCtx ∅ "sB"
        {| m_id := "m2"; authorId := "a2"; serverId := "sB";
           content := "two" |}
  ∈ getSanitizedMessages emptyCtx interleaved ∅.
Proof.
  apply (proj2 (getSanitizedMessages_judgement emptyCtx interleaved ∅ _)).
  exists {| m_id := "m2"; authorId := "a2"; serverId := "sB";
            content := "two" |}.
  split; [|reflexivity].
  apply list_elem_of_further, list_elem_of_here.
Defined.

Lemma forServer_eq (ctx : QueryCtx)
    (messages : list Message) (sid : string)
    (authorMap : gmap string DiscordAccount) :
  getSanitizedMessagesForServer ctx messages sid authorMap
  = map (judge ctx authorMap sid) messages.
Proof.
  unfold getSanitizedMessagesForServer.
  destruct messages as [|m0 ms0] eqn:Hm; [reflexivity|].
  rewrite <- Hm. clear Hm. cbv zeta. unfold applyVisibilityToMessages.
  apply map_ext_in. intros msg Hmsg. apply list_elem_of_In in Hmsg.
  unfold sanitizeOne, judge, getOrNull.
  rewrite authorVisibility_lookup.
  rewrite bool_decide_eq_true_2.
  - destruct (computeUserVisibility _); reflexivity.
  - apply unique_elem, list_elem_of_fmap. exists msg. auto.
Qed.

(** X9. [getSanitizedMessagesForServer] returns one pair per message, in
    input order, and the pair at a position is the judgement of the message
    at that position under the rules of the server it is given, whatever
    server the message itself names. *)
Theorem getSanitizedMessagesForServer_pointwise (ctx : QueryCtx)
    (messages : list Message) (sid : string)
    (authorMap : gmap string DiscordAccount) :
  length (getSanitizedMessagesForServer ctx messages sid authorMap)
  = length messages /\
  forall (i : nat) (msg : Message),
    messages !! i = Some msg ->
    getSanitizedMessagesForServer ctx messages sid authorMap !! i
    = Some (judge ctx authorMap sid msg).
Proof.
  rewrite forServer_eq. split; [apply length_map|].
  intros i msg Hi. rewrite list_lookup_fmap, Hi. reflexivity.
Qed.

Lemma getSanitizedMessagesForServer_pointwise_witness :
  getSanitizedMessagesForServer emptyCtx interleaved "sA" ∅ !! 1%nat
  = Some (judge emptyCtx ∅ "sA"
            {| m_id := "m2"; authorId := "a2"; serverId := "sB";
               content := "two" |}).
Proof.
  apply (proj2 (getSanitizedMessagesForServer_pointwise
                  emptyCtx interleaved "sA" ∅) 1%nat).
  reflexivity.
Defined.

(** X8. For messages that all belong to one server the two entry points
    agree: [getSanitizedMessages], which groups first and restricts the
    author map, returns what [getSanitizedMessagesForServer] returns for
    that server. *)
Theorem getSanitizedMessages_single_server (ctx : QueryCtx)
    (messages : list Message) (sid : string)
    (authorMap : gmap string DiscordAccount) :
  (forall m, m ∈ messages -> serverId m = sid) ->
  getSanitizedMessages ctx messages authorMap
  = getSanitizedMessagesForServer ctx messages sid authorMap.
Proof.
  intros Hall. rewrite getSanitizedMessages_eq, forServer_eq.
  unfold groupsInOrder. destruct messages as [|m0 ms0]; [reflexivity|].
  rewrite (unique_single_server (m0 :: ms0) sid) by (congruence || exact Hall).
  cbn [map concat fst snd]. rewrite app_nil_r.
  rewrite filter_single_server by exact Hall. reflexivity.
Qed.

Lemma getSanitizedMessages_single_server_witness :
  getSanitizedMessages emptyCtx sameServer ∅
  = getSanitizedMessagesForServer emptyCtx sameServer "sA" ∅.
Proof.
  apply getSanitizedMessages_single_server.
  intros m Hm. unfold sameServer in Hm.
  apply elem_of_cons in Hm as [->|Hm]; [reflexivity|].
  apply elem_of_cons in Hm as [->|Hm]; [reflexivity|].
  apply elem_of_nil in Hm. contradiction.
Defined.

(** X10. The grouping of [getSanitizedMessages]: one group per server that
    occurs, no server twice, no group empty, and every group holds exactly
    the messages of its server, so that the preferences of a server are
    read once however many messages it has. *)
Theorem groupByServer_groups (messages : list Message) :
  NoDup (map fst (groupByServer messages)) /\
  (forall sid, sid ∈ map fst (groupByServer messages)
               <-> sid ∈ map serverId messages) /\
  (forall sid ms, (sid, ms) ∈ groupByServer messages ->
     ms <> [] /\ ms = filter (fun m => serverId m = sid) messages).
Proof.
  assert (Hkeys : map fst (groupByServer messages)
                  = unique (map serverId messages)).
  { rewrite groupByServer_groupsInOrder. unfold groupsInOrder.
    rewrite map_map. cbn [fst]. apply map_id. }
  rewrite Hkeys. split; [apply uniqueFrom_NoDup|]. split.
  - intros sid. apply unique_elem.
  - intros sid ms Hin. apply groupByServer_member in Hin as [Hsid ->].
    split; [|reflexivity].
    apply list_elem_of_fmap in Hsid as (m & -> & Hm).
    intros Hnil.
    assert (Hmf : m ∈ filter (fun m' => serverId m' = serverId m) messages)
      by (apply list_elem_of_filter; auto).
    rewrite Hnil in Hmf. apply elem_of_nil in Hmf. contradiction.
Qed.

Lemma groupByServer_groups_witness :
  [ {| m_id := "m2"; authorId := "a2"; serverId := "sB"; content := "two" |} ]
  = filter (fun m => serverId m = "sB") interleaved.
Proof.
  apply (proj2 (proj2 (groupByServer_groups interleaved)) "sB").
  vm_compute. apply list_elem_of_further, list_elem_of_here.
Defined.

(** X6. The read paths agree on a message: the [public] flag and the author
    that [getSanitizedMessages] gives a message are those computed from
    [getVisibilityContext] for the message's author on the message's
    server, and a thread judged under that context by
    [applyVisibilityToThread] gets the same flag.  The author id must not be
    empty: [getVisibilityContext] reads no settings for an empty id. *)
Theorem read_paths_agree (ctx : QueryCtx) (messages : list Message)
    (authorMap : gmap string DiscordAccount) (p : SanitizedPair)
    (Thread : Type) (thread : Thread) :
  p ∈ getSanitizedMessages ctx messages authorMap ->
  authorId (original p) <> "" ->
  let visibility :=
    getVisibilityContext ctx (serverId (original p))
                         (Some (authorId (original p))) in
  sm_public (message p)
  = isMessagePublic (server visibility) (user visibility) /\
  author p
  = applyVisibilityToAuthor (authorMap !! authorId (original p)) visibility
                            (sm_public (message p)) /\
  st_public (applyVisibilityToThread thread (server visibility)
                                     (user visibility))
  = sm_public (message p).
Proof.
  intros Hin Hne visibility.
  apply sanitized_member in Hin as [_ Hp].
  subst visibility. unfold getVisibilityContext.
  rewrite bool_decide_eq_false_2 by exact Hne.
  assert (Hm : message p
               = message (judge ctx authorMap (serverId (original p))
                                (original p))) by (f_equal; exact Hp).
  assert (Ha : author p
               = author (judge ctx authorMap (serverId (original p))
                               (original p))) by (f_equal; exact Hp).
  rewrite Hm, Ha. unfold judge, applyVisibilityToThread.
  cbn [message author sm_public server user st_public].
  repeat split; reflexivity.
Qed.

Lemma read_paths_agree_witness :
  sm_public (message (judge emptyCtx ∅ "sB"
                        {| m_id := "m2"; authorId := "a2"; serverId := "sB";
                           content := "two" |}))
  = false.
Proof.
  destruct (read_paths_agree emptyCtx interleaved ∅
              (judge emptyCtx ∅ "sB"
                 {| m_id := "m2"; authorId := "a2"; serverId := "sB";
                    content := "two" |})
              unit tt) as [Hpub _].
  - vm_compute. apply list_elem_of_further, list_elem_of_further,
      list_elem_of_here.
  - discriminate.
  - rewrite Hpub. reflexivity.
Defined.

(** For an empty author id the batch path still reads the settings stored
    under it, which [getVisibilityContext] skips. *)
Example empty_author_id_paths_differ :
  let ctx :=
    {| serverPreferencesByServerId := fun _ => None;
       findUserServerSettingsById :=
         fun _ _ => Some {| us_canPubliclyDisplayMessages := true |} |} in
  let msg := {| m_id := "m"; authorId := ""; serverId := "s"; content := "" |} in
  map (fun p => sm_public (message p)) (getSanitizedMessages ctx [msg] ∅)
  = [true] /\
  isMessagePublic (server (getVisibilityContext ctx "s" (Some "")))
                  (user (getVisibilityContext ctx "s" (Some ""))) = false.
Proof. split; reflexivity. Qed.

End OrchestrationMore.

(** ** The watch cache: acquisition, release and updates *)

Module LiveQueryMore.
Import Json LiveQuery LiveQueryFacts.

(** X11. A first acquisition of a key, when the query and the watch
    succeed: exactly one query is issued; one upstream watch is added, which
    is subscribed, holds the value fetched and has the callback of the new
    [LiveData] as its only callback; one [LiveData] is added, which holds the
    value fetched (also when that value is [null]) and unsubscribes from that
    watch; the entry of the key names the two with [refCount] 1; the cache
    key of the [LiveData] is recorded for the release; and the other entries
    and recorded keys are as before. *)
Theorem first_acquisition (client : ConvexClient) (q : FunctionReference)
    (queryArgs : value) (st : State) (v : Value) :
  activeWatches st !! cacheKeyOf q queryArgs = None ->
  client_query client q queryArgs = Success v ->
  client_onUpdate client q queryArgs = None ->
  exists st',
    let ld := length (liveDatas st) in
    let w := length (watches st) in
    acquire client q queryArgs st = (st', Success ld) /\
    activeWatches st'
    = <[cacheKeyOf q queryArgs :=
          {| liveData := ld; unsubscribe := w; refCount := 1 |}]>
        (activeWatches st) /\
    activeWatches st' !! cacheKeyOf q queryArgs
    = Some {| liveData := ld; unsubscribe := w; refCount := 1 |} /\
    watches st'
    = watches st
      ++ [{| w_query := q; w_args := queryArgs; currentValue := Some v;
             callbacks := [ld]; subscribed := true |}] /\
    liveDatas st'
    = liveDatas st ++ [{| _data := Some v; ld_unsubscribe := Some w |}] /\
    queryLog st' = (q, queryArgs) :: queryLog st /\
    data st' ld = Some v /\
    liveDataCacheKeys st'
    = <[ld := cacheKeyOf q queryArgs]> (liveDataCacheKeys st) /\
    liveDataCacheKeys st' !! ld = Some (cacheKeyOf q queryArgs).
Proof.
  intros Hnone Hq Hw. unfold acquire, resolveRequest.
  cbn [watchRequest cacheKey query args].
  rewrite Hnone, Hq, Hw. eexists. cbn zeta. split; [reflexivity|].
  cbn [activeWatches liveDataCacheKeys liveDatas watches queryLog].
  rewrite newLiveData_initial, !lookup_insert_eq.
  repeat split.
  unfold data. cbn [liveDatas].
  rewrite lookup_app_r by reflexivity. rewrite Nat.sub_diag. reflexivity.
Qed.

Lemma first_acquisition_witness :
  exists st',
    acquire {| client_query := fun _ _ => Success JNull;
               client_onUpdate := fun _ _ => None |}
            publicGetServerByDiscordId discordId123 initial
    = (st', Success 0%nat) /\
    watches st'
    = [{| w_query := publicGetServerByDiscordId; w_args := discordId123;
          currentValue := Some JNull; callbacks := [0%nat];
          subscribed := true |}] /\
    data st' 0%nat = Some JNull.
Proof.
  destruct (first_acquisition {| client_query := fun _ _ => Success JNull;
                                 client_onUpdate := fun _ _ => None |}
              publicGetServerByDiscordId discordId123 initial JNull)
    as (st' & Hacq & _ & _ & Hwatches & _ & _ & Hdata & _); [reflexivity..|].
  exists st'. split; [exact Hacq|]. split; [exact Hwatches | exact Hdata].
Defined.

(** X12. An acquisition of a key that has an active watch is served from
    the cache, whatever the client would answer: it returns the [LiveData] of
    the entry, adds one to its [refCount], and issues no query, creates no
    watch and no [LiveData]. *)
Theorem shared_acquisition (client : ConvexClient) (q : FunctionReference)
    (queryArgs : value) (st : State) (existing : ActiveWatch) :
  activeWatches st !! cacheKeyOf q queryArgs = Some existing ->
  exists st',
    acquire client q queryArgs st = (st', Success (liveData existing)) /\
    activeWatches st' !! cacheKeyOf q queryArgs
    = Some {| liveData := liveData existing;
              unsubscribe := unsubscribe existing;
              refCount := refCount existing + 1 |} /\
    queryLog st' = queryLog st /\
    watches st' = watches st /\
    liveDatas st' = liveDatas st.
Proof. exact (acquire_hit client q queryArgs st existing). Qed.

Lemma shared_acquisition_witness :
  exists st',
    acquire failingClient publicGetServerByDiscordId discordId123
            (service threeAcquired)
    = (st', Success 0%nat) /\
    queryLog st' = queryLog (service threeAcquired).
Proof.
  destruct (shared_acquisition failingClient publicGetServerByDiscordId
              discordId123
              (service threeAcquired)
              {| liveData := 0%nat; unsubscribe := 0%nat; refCount := 3 |})
    as (st' & Hacq & _ & Hlog & _); [vm_compute; reflexivity|].
  exists st'. split; [exact Hacq | exact Hlog].
Defined.

(** X13. When the query succeeds but registering the upstream watch fails,
    the acquisition fails with that error and leaves no entry, no recorded
    key, no [LiveData] and no watch behind; only the query was issued. *)
Theorem acquire_watch_failure (client : ConvexClient)
    (q : FunctionReference) (queryArgs : value) (st : State)
    (v : Value) (e : ConvexError) :
  activeWatches st !! cacheKeyOf q queryArgs = None ->
  client_query client q queryArgs = Success v ->
  client_onUpdate client q queryArgs = Some e ->
  exists st',
    acquire client q queryArgs st = (st', Failure e) /\
    activeWatches st' = activeWatches st /\
    liveDataCacheKeys st' = liveDataCacheKeys st /\
    liveDatas st' = liveDatas st /\
    watches st' = watches st /\
    queryLog st' = (q, queryArgs) :: queryLog st.
Proof.
  intros Hnone Hq Hw. unfold acquire, resolveRequest.
  cbn [watchRequest cacheKey query args]. rewrite Hnone, Hq, Hw.
  eexists. split; [reflexivity|]. cbn. repeat split; reflexivity.
Qed.

Lemma acquire_watch_failure_witness :
  exists st',
    acquire {| client_query := fun _ _ => Success JNull;
               client_onUpdate := fun _ _ => Some "watch refused" |}
            publicGetServerByDiscordId discordId123 initial
    = (st', Failure "watch refused") /\
    activeWatches st' = ∅.
Proof.
  destruct (acquire_watch_failure
              {| client_query := fun _ _ => Success JNull;
                 client_onUpdate := fun _ _ => Some "watch refused" |}
              publicGetServerByDiscordId discordId123 initial JNull
              "watch refused")
    as (st' & Hacq & Haw & _); [reflexivity..|].
  exists st'. split; [exact Hacq | exact Haw].
Defined.

(** X14. One acquisition and its release, from any state with no entry for
    the key: the release leaves the active watches as they were before the
    acquisition, the upstream watch unsubscribed and the cache key
    forgotten; the [LiveData] keeps the value fetched; and the next
    acquisition queries again and returns another [LiveData]. *)
Theorem acquire_release_roundtrip (client : ConvexClient)
    (q : FunctionReference) (queryArgs : value) (st : State) (v : Value) :
  activeWatches st !! cacheKeyOf q queryArgs = None ->
  client_query client q queryArgs = Success v ->
  client_onUpdate client q queryArgs = None ->
  exists st1 st2,
    let ld := length (liveDatas st) in
    acquire client q queryArgs st = (st1, Success ld) /\
    st2 = release ld st1 /\
    activeWatches st2 = activeWatches st /\
    liveDataCacheKeys st2 !! ld = None /\
    subscribed <$> watches st2 !! length (watches st) = Some false /\
    data st2 ld = Some v /\
    snd (acquire client q queryArgs st2) = Success (S ld) /\
    queryLog (fst (acquire client q queryArgs st2))
    = (q, queryArgs) :: (q, queryArgs) :: queryLog st.
Proof.
  intros Hnone Hq Hw.
  assert (Hacq : exists st1,
            acquire client q queryArgs st = (st1, Success (length (liveDatas st)))).
  { unfold acquire, resolveRequest. cbn [watchRequest cacheKey query args].
    rewrite Hnone, Hq, Hw. eexists. reflexivity. }
  destruct Hacq as (st1 & Hacq).
  exists st1, (release (length (liveDatas st)) st1). cbv zeta.
  split; [exact Hacq|]. split; [reflexivity|].
  (* the state the acquisition leaves *)
  unfold acquire, resolveRequest in Hacq.
  cbn [watchRequest cacheKey query args] in Hacq.
  rewrite Hnone, Hq, Hw in Hacq. injection Hacq as <-.
  set (K := cacheKeyOf q queryArgs) in *.
  unfold release, releaseWatch.
  cbn [liveDataCacheKeys activeWatches liveDatas watches queryLog].
  rewrite lookup_insert_eq.
  rewrite bool_decide_eq_false_2 by apply cacheKeyOf_nonempty.
  rewrite lookup_insert_eq. cbn [refCount liveData unsubscribe].
  change (1 - 1) with 0. rewrite (bool_decide_eq_true_2 (0 = 0)) by reflexivity.
  cbn [liveDataCacheKeys activeWatches liveDatas watches queryLog].
  rewrite newLiveData_initial.
  unfold destroy.
  cbn [liveDataCacheKeys activeWatches liveDatas watches queryLog].
  rewrite lookup_app_r by reflexivity. rewrite Nat.sub_diag.
  cbn [lookup list_lookup ld_unsubscribe _data
       liveDataCacheKeys activeWatches liveDatas watches queryLog].
  split; [apply delete_insert_id, Hnone|].
  split; [apply lookup_delete_eq|].
  split.
  { unfold unsubscribeUpstream. rewrite !list_lookup_alter_eq.
    rewrite lookup_app_r by reflexivity. rewrite Nat.sub_diag. reflexivity. }
  split.
  { unfold data. cbn [liveDatas].
    rewrite list_lookup_insert_eq by (rewrite length_app; cbn; lia).
    reflexivity. }
  unfold acquire, resolveRequest.
  cbn [watchRequest cacheKey query args activeWatches]. fold K.
  rewrite delete_insert_id by exact Hnone. rewrite Hnone, Hq, Hw.
  cbn [snd fst queryLog liveDatas]. split; [|reflexivity].
  rewrite length_insert, length_app. cbn [length]. f_equal. lia.
Qed.

Lemma acquire_release_roundtrip_witness :
  exists st1 st2,
    acquire testClient publicGetServerByDiscordId discordId123 initial
    = (st1, Success 0%nat) /\
    st2 = release 0%nat st1 /\
    activeWatches st2 = ∅ /\
    snd (acquire testClient publicGetServerByDiscordId discordId123 st2)
    = Success 1%nat.
Proof.
  destruct (acquire_release_roundtrip testClient publicGetServerByDiscordId
              discordId123 initial (serverDoc "Test Description"))
    as (st1 & st2 & Hacq & Hst2 & Haw & _ & _ & _ & Hnext & _);
    [reflexivity..|].
  exists st1, st2. repeat split; assumption.
Defined.

(** *** Isolation of the keys *)

Lemma paired_initial : paired initial.
Proof.
  split; [reflexivity|]. split.
  - intros k e H. unfold initial in H. cbn [activeWatches] in H.
    rewrite lookup_empty in H. discriminate.
  - intros w watch ld H. discriminate H.
Qed.

Lemma paired_acquire (client : ConvexClient) (q : FunctionReference)
    (queryArgs : value) (st : State) :
  paired st -> paired (fst (acquire client q queryArgs st)).
Proof.
  intros (Hlen & Hent & Hcb). unfold acquire, resolveRequest.
  cbn [watchRequest cacheKey query args].
  destruct (activeWatches st !! cacheKeyOf q queryArgs) as [e|] eqn:He.
  - unfold paired; cbn [fst activeWatches liveDataCacheKeys liveDatas watches queryLog].
    split; [exact Hlen|]. split; [|exact Hcb].
    intros k e'. rewrite lookup_insert. case_decide.
    + intros [= <-]. cbn. apply (Hent _ _ He).
    + apply Hent.
  - destruct (client_query client q queryArgs) as [v|err];
      [|repeat split; assumption].
    destruct (client_onUpdate client q queryArgs) as [err|];
      [repeat split; assumption|].
    unfold paired; cbn [fst activeWatches liveDataCacheKeys liveDatas watches queryLog].
    split; [rewrite !length_app; cbn; lia|]. split.
    + intros k e'. rewrite lookup_insert. case_decide.
      * intros [= <-]. cbn. symmetry. exact Hlen.
      * apply Hent.
    + intros w watch ld Hw Hin.
      apply lookup_app_Some in Hw as [Hw|[Hge Hw]]; [eapply Hcb; eauto|].
      apply list_lookup_singleton_Some in Hw as [Hw0 <-].
      cbn in Hin. apply list_elem_of_singleton in Hin. lia.
Qed.

Lemma paired_release (ld : nat) (st : State) :
  paired st -> paired (release ld st).
Proof.
  intros (Hlen & Hent & Hcb).
  assert (H1 : paired (releaseWatch ld st)).
  { unfold releaseWatch.
    destruct (liveDataCacheKeys st !! ld) as [key|];
      [|repeat split; assumption].
    destruct (bool_decide (key = "")); [repeat split; assumption|].
    destruct (activeWatches st !! key) as [watch|] eqn:Hk;
      [|repeat split; assumption].
    cbv zeta. destruct (bool_decide (refCount watch - 1 = 0));
      unfold paired; cbn [fst activeWatches liveDataCacheKeys liveDatas watches queryLog].
    - split; [unfold unsubscribeUpstream; rewrite length_alter; exact Hlen|].
      split.
      + intros k e. rewrite lookup_delete. case_decide; [discriminate|].
        apply Hent.
      + intros w w' l Hw Hin. unfold unsubscribeUpstream in Hw.
        destruct (decide (w = unsubscribe watch)) as [->|Hne].
        * rewrite list_lookup_alter_eq in Hw.
          destruct (watches st !! unsubscribe watch) as [w0|] eqn:Hw0;
            [|discriminate].
          injection Hw as <-. cbn in Hin. eapply Hcb; eauto.
        * rewrite list_lookup_alter_ne in Hw by congruence.
          eapply Hcb; eauto.
    - split; [exact Hlen|]. split; [|exact Hcb].
      intros k e. rewrite lookup_insert. case_decide.
      + intros [= <-]. cbn. apply (Hent _ _ Hk).
      + apply Hent. }
  clear Hlen Hent Hcb. destruct H1 as (Hlen & Hent & Hcb).
  unfold release, destroy.
  destruct (liveDatas (releaseWatch ld st) !! ld) as [obj|];
    [|repeat split; assumption].
  destruct (ld_unsubscribe obj) as [w0|]; [|repeat split; assumption].
  unfold paired; cbn [fst activeWatches liveDataCacheKeys liveDatas watches queryLog].
  split; [rewrite length_insert, length_alter; exact Hlen|].
  split; [exact Hent|].
  intros w w' l Hw Hin.
  destruct (decide (w = w0)) as [->|Hne].
  - rewrite list_lookup_alter_eq in Hw.
    destruct (watches (releaseWatch ld st) !! w0) as [watch0|] eqn:Hw0;
      [|discriminate].
    injection Hw as <-. cbn in Hin.
    apply list_elem_of_filter in Hin as [_ Hin]. eapply Hcb; eauto.
  - rewrite list_lookup_alter_ne in Hw by congruence. eapply Hcb; eauto.
Qed.

Lemma paired_update (w : nat) (result : Value) (st : State) :
  paired st -> paired (upstreamUpdate w result st).
Proof.
  intros (Hlen & Hent & Hcb). unfold upstreamUpdate.
  destruct (watches st !! w) as [watch|] eqn:Hw; [|repeat split; assumption].
  destruct (subscribed watch); [|repeat split; assumption].
  unfold paired; cbn [fst activeWatches liveDataCacheKeys liveDatas watches queryLog].
  split; [rewrite runCallback_length, length_insert; exact Hlen|].
  split; [exact Hent|].
  intros w' watch' l Hw' Hin.
  destruct (decide (w' = w)) as [->|Hne].
  - rewrite list_lookup_insert_eq in Hw' by (eapply lookup_lt_Some; eauto).
    injection Hw' as <-. cbn in Hin. eapply Hcb; eauto.
  - rewrite list_lookup_insert_ne in Hw' by congruence. eapply Hcb; eauto.
Qed.

Lemma run_paired (client : ConvexClient) (ops : list Op) :
  paired (service (run client ops)).
Proof.
  induction ops as [|op ops IH] using rev_ind; [apply paired_initial|].
  rewrite run_snoc. destruct op as [q queryArgs|ld|w result]; cbn [step].
  - pose proof (paired_acquire client q queryArgs _ IH) as H.
    destruct (acquire client q queryArgs (service (run client ops)))
      as [st [l|e]]; exact H.
  - case_bool_decide; [apply paired_release, IH | exact IH].
  - apply paired_update, IH.
Qed.

(** X17. Isolation of the keys, in every session that can be reached: the
    entries of two different keys have different [LiveData] objects, and an
    update of the upstream watch of one of them leaves the [data] of the
    other's [LiveData] as it is. *)
Theorem update_isolated (client : ConvexClient) (ops : list Op)
    (k1 k2 : string) (e1 e2 : ActiveWatch) (result : Value) :
  activeWatches (service (run client ops)) !! k1 = Some e1 ->
  activeWatches (service (run client ops)) !! k2 = Some e2 ->
  k1 <> k2 ->
  liveData e1 <> liveData e2 /\
  data (upstreamUpdate (unsubscribe e1) result (service (run client ops)))
       (liveData e2)
  = data (service (run client ops)) (liveData e2).
Proof.
  intros H1 H2 Hne.
  destruct (run_counted client ops) as [_ Hd _ _].
  destruct (run_paired client ops) as (_ & Hent & Hcb).
  assert (Hld : liveData e1 <> liveData e2).
  { intros Heq. apply Hne. exact (Hd k1 k2 e1 e2 H1 H2 Heq). }
  split; [exact Hld|].
  unfold data, upstreamUpdate. rewrite (Hent k1 e1 H1).
  destruct (watches (service (run client ops)) !! liveData e1)
    as [watch|] eqn:Hw; [|reflexivity].
  destruct (subscribed watch); [|reflexivity].
  cbn [liveDatas]. rewrite runCallback_other; [reflexivity|].
  intros Hin. apply Hld. symmetry. exact (Hcb _ _ _ Hw Hin).
Qed.

Lemma update_isolated_witness :
  data (upstreamUpdate 0%nat (serverDoc "new")
          (service (run testClient
                      [acquire123;
                       Acquire publicGetServerByDiscordId
                               (JObj [("discordId", JStr "456")])])))
       1%nat
  = Some (serverDoc "Test Description").
Proof.
  destruct (update_isolated testClient
              [acquire123;
               Acquire publicGetServerByDiscordId
                       (JObj [("discordId", JStr "456")])]
              key123
              (cacheKeyOf publicGetServerByDiscordId
                          (JObj [("discordId", JStr "456")]))
              {| liveData := 0%nat; unsubscribe := 0%nat; refCount := 1 |}
              {| liveData := 1%nat; unsubscribe := 1%nat; refCount := 1 |}
              (serverDoc "new")) as [_ H];
    [vm_compute; reflexivity | vm_compute; reflexivity
     | vm_compute; discriminate |].
  cbn [unsubscribe liveData] in H. rewrite H. vm_compute. reflexivity.
Defined.

(** *** Updates *)

Lemma runCallback_member (v : Value) (cbs : list nat) (lds : list LiveData)
    (ld : nat) :
  ld ∈ cbs ->
  _data <$> fold_left (runCallback (Some v)) cbs lds !! ld
  = (fun _ => Some v) <$> lds !! ld.
Proof.
  revert lds. induction cbs as [|cb cbs IH]; intros lds Hin.
  - apply elem_of_nil in Hin. contradiction.
  - cbn [fold_left]. destruct (decide (ld ∈ cbs)) as [Hin'|Hnot].
    + rewrite IH by exact Hin'. unfold runCallback.
      destruct (decide (cb = ld)) as [->|Hne].
      * rewrite list_lookup_alter_eq. destruct (lds !! ld); reflexivity.
      * rewrite list_lookup_alter_ne by exact Hne. reflexivity.
    + apply elem_of_cons in Hin as [->|Hin]; [|contradiction].
      rewrite runCallback_other by exact Hnot. unfold runCallback.
      rewrite list_lookup_alter_eq. destruct (lds !! cb); reflexivity.
Qed.

(** X22. An update of a subscribed upstream watch is stored as the watch's
    current value and shows in the [data] of every [LiveData] whose callback
    is registered with the watch. *)
Theorem update_visible (w : nat) (result : Value) (st : State)
    (watch : Watch) (ld : nat) :
  watches st !! w = Some watch ->
  subscribed watch = true ->
  ld ∈ callbacks watch ->
  is_Some (liveDatas st !! ld) ->
  data (upstreamUpdate w result st) ld = Some result /\
  currentValue <$> watches (upstreamUpdate w result st) !! w
  = Some (Some result).
Proof.
  intros Hw Hsub Hin [obj Hobj]. unfold upstreamUpdate. rewrite Hw, Hsub.
  split.
  - unfold data. cbn [liveDatas].
    pose proof (runCallback_member result _ (liveDatas st) _ Hin) as H.
    rewrite Hobj in H. cbn in H.
    destruct (fold_left _ _ _ !! ld) as [obj'|]; [|discriminate].
    cbn in *. congruence.
  - cbn [watches].
    rewrite list_lookup_insert_eq by (eapply lookup_lt_Some; eauto).
    reflexivity.
Qed.

Lemma update_visible_witness :
  data (upstreamUpdate 0%nat (serverDoc "new") (service threeAcquired)) 0%nat
  = Some (serverDoc "new").
Proof.
  apply (update_visible 0%nat (serverDoc "new") (service threeAcquired)
           {| w_query := publicGetServerByDiscordId; w_args := discordId123;
              currentValue := Some (serverDoc "Test Description");
              callbacks := [0%nat]; subscribed := true |} 0%nat).
  - vm_compute. reflexivity.
  - reflexivity.
  - apply list_elem_of_here.
  - vm_compute. eexists. reflexivity.
Defined.

(** *** Batches *)

Lemma watchResolver_hits (client : ConvexClient) (request : WatchRequest)
    (n : nat) :
  forall (st : State) (e : ActiveWatch),
    activeWatches st !! cacheKey request = Some e ->
    exists st',
      watchResolver client (replicate n request) st
      = (st', replicate n (Success (liveData e))) /\
      activeWatches st' !! cacheKey request
      = Some {| liveData := liveData e; unsubscribe := unsubscribe e;
                refCount := refCount e + Z.of_nat n |} /\
      queryLog st' = queryLog st /\
      watches st' = watches st /\
      liveDatas st' = liveDatas st.
Proof.
  induction n as [|n IH]; intros st e He.
  - exists st. cbn [replicate watchResolver]. split; [reflexivity|].
    rewrite Z.add_0_r. destruct e. auto.
  - cbn [replicate watchResolver]. unfold resolveRequest at 1. rewrite He.
    match goal with
    | |- context [watchResolver client _ ?s] =>
        destruct (IH s {| liveData := liveData e; unsubscribe := unsubscribe e;
                          refCount := refCount e + 1 |})
          as (st' & Hrun & Hentry & Hlog & Hw & Hl)
    end.
    { cbn [activeWatches]. apply lookup_insert_eq. }
    rewrite Hrun. exists st'. cbn [liveData unsubscribe refCount] in *.
    split; [reflexivity|]. split.
    + rewrite Hentry. do 2 f_equal. lia.
    + auto.
Qed.

(** X21. A batch of several requests for one key that has no entry yet
    issues one query and sets up one watch: every request of the batch
    completes with the same new [LiveData], and the entry counts the
    requests of the batch. *)
Theorem watchResolver_batch (client : ConvexClient) (request : WatchRequest)
    (n : nat) (st : State) (v : Value) :
  activeWatches st !! cacheKey request = None ->
  client_query client (query request) (args request) = Success v ->
  client_onUpdate client (query request) (args request) = None ->
  exists st',
    watchResolver client (replicate (S n) request) st
    = (st', replicate (S n) (Success (length (liveDatas st)))) /\
    activeWatches st' !! cacheKey request
    = Some {| liveData := length (liveDatas st);
              unsubscribe := length (watches st);
              refCount := Z.of_nat (S n) |} /\
    queryLog st' = (query request, args request) :: queryLog st /\
    length (watches st') = S (length (watches st)) /\
    length (liveDatas st') = S (length (liveDatas st)).
Proof.
  intros Hnone Hq Hw. cbn [replicate watchResolver].
  unfold resolveRequest at 1. rewrite Hnone, Hq, Hw.
  cbn [activeWatches liveDataCacheKeys liveDatas watches queryLog].
  match goal with
  | |- context [watchResolver client _ ?s] =>
      destruct (watchResolver_hits client request n s
                  {| liveData := length (liveDatas st);
                     unsubscribe := length (watches st); refCount := 1 |})
        as (st' & Hrun & Hentry & Hlog & Hws & Hlds)
  end.
  { cbn [activeWatches]. apply lookup_insert_eq. }
  rewrite Hrun. exists st'. cbn [liveData unsubscribe refCount] in *.
  split; [reflexivity|]. split.
  - rewrite Hentry. do 2 f_equal. lia.
  - rewrite Hlog, Hws, Hlds. cbn [queryLog watches liveDatas].
    rewrite !length_app. cbn [length]. repeat split; lia.
Qed.

Lemma watchResolver_batch_witness :
  exists st',
    watchResolver testClient
      (replicate 3 (watchRequest publicGetServerByDiscordId discordId123))
      initial
    = (st', [Success 0%nat; Success 0%nat; Success 0%nat]) /\
    queryLog st' = [(publicGetServerByDiscordId, discordId123)].
Proof.
  destruct (watchResolver_batch testClient
              (watchRequest publicGetServerByDiscordId discordId123)
              2 initial (serverDoc "Test Description"))
    as (st' & Hrun & _ & Hlog & _); [reflexivity..|].
  exists st'. split; [exact Hrun | exact Hlog].
Defined.

(** *** Destroying and counting *)

(** X18. [destroy] may be called again: the second call changes nothing. *)
Theorem destroy_idempotent (ld : nat) (st : State) :
  destroy ld (destroy ld st) = destroy ld st.
Proof.
  destruct (liveDatas st !! ld) as [obj|] eqn:Hobj.
  - destruct (ld_unsubscribe obj) as [w|] eqn:Hun.
    + assert (E : exists st1,
                 destroy ld st = st1 /\
                 liveDatas st1 !! ld
                 = Some {| _data := _data obj; ld_unsubscribe := None |}).
      { unfold destroy. rewrite Hobj, Hun. eexists. split; [reflexivity|].
        cbn [liveDatas]. apply list_lookup_insert_eq.
        eapply lookup_lt_Some; eauto. }
      destruct E as (st1 & -> & H1). unfold destroy. rewrite H1. reflexivity.
    + assert (E : destroy ld st = st)
        by (unfold destroy; rewrite Hobj, Hun; reflexivity).
      rewrite !E. reflexivity.
  - assert (E : destroy ld st = st)
      by (unfold destroy; rewrite Hobj; reflexivity).
    rewrite !E. reflexivity.
Qed.

(** X24. In every session that can be reached an entry of the active
    watches counts at least 1 and names a [LiveData] and a watch that
    exist: an entry whose count has reached 0 is not kept. *)
Theorem entries_counted (client : ConvexClient) (ops : list Op)
    (key : string) (e : ActiveWatch) :
  activeWatches (service (run client ops)) !! key = Some e ->
  1 <= refCount e /\
  is_Some (liveDatas (service (run client ops)) !! liveData e) /\
  is_Some (watches (service (run client ops)) !! unsubscribe e).
Proof.
  intros He.
  destruct (run_counted client ops) as [Hc _ _ _].
  destruct (run_paired client ops) as (Hlen & Hent & _).
  destruct (Hc key e He) as [Hl Hr].
  split; [exact Hr|]. split.
  - apply lookup_lt_is_Some_2, Hl.
  - apply lookup_lt_is_Some_2. rewrite (Hent key e He), <- Hlen. exact Hl.
Qed.

Lemma entries_counted_witness :
  1 <= refCount {| liveData := 0%nat; unsubscribe := 0%nat; refCount := 2 |}.
Proof.
  apply (entries_counted testClient
           [acquire123; acquire123; acquire123; Release 0%nat; Release 0%nat]
           key123
           {| liveData := 0%nat; unsubscribe := 0%nat; refCount := 2 |}).
  vm_compute. reflexivity.
Defined.

(** X16. In every session whose acquisitions, releases and updates happen
    one after the other (no acquisition starts while another one is between
    its lookup and the storing of its entry), while acquisitions of a key are
    outstanding the key has an entry, the entry counts at least as many
    references as are outstanding, and every outstanding acquisition holds
    the [LiveData] of that entry. *)
Theorem refCount_covers_outstanding (client : ConvexClient) (ops : list Op)
    (key : string) :
  let s := run client ops in
  0 < outstanding key s ->
  exists w,
    activeWatches (service s) !! key = Some w /\
    outstanding key s <= refCount w /\
    forall ld, (key, ld) ∈ held s -> ld = liveData w.
Proof. exact (outstanding_entry client ops key). Qed.

Lemma refCount_covers_outstanding_witness :
  exists w,
    activeWatches (service (run testClient [acquire123; acquire123; acquire123]))
      !! key123 = Some w /\
    3 <= refCount w.
Proof.
  destruct (refCount_covers_outstanding testClient
              [acquire123; acquire123; acquire123] key123) as (w & Hw & Hle & _); [vm_compute; reflexivity|].
  exists w. split; [exact Hw|].
  change (outstanding key123
            (run testClient [acquire123; acquire123; acquire123]))
    with 3 in Hle.
  exact Hle.
Defined.

(** X19. Once one acquisition of a [LiveData] has been released, the [data]
    of that [LiveData] stays what it was at the release, whatever
    acquisitions, releases and upstream updates follow and whoever still
    holds it. *)
Theorem release_freezes_data (client : ConvexClient) (ops : list Op)
    (ld : LiveDataRef) (later : list Op) :
  ld ∈ map snd (held (run client ops)) ->
  data (service (run client (ops ++ Release ld :: later))) ld
  = data (service (run client ops)) ld.
Proof. exact (released_liveData_frozen client ops ld later). Qed.

Lemma release_freezes_data_witness :
  data (service (run testClient
                     ([acquire123; acquire123]
                      ++ Release 0%nat :: [Update 0%nat (serverDoc "new")])))
       0%nat
  = Some (serverDoc "Test Description").
Proof.
  rewrite (release_freezes_data testClient [acquire123; acquire123]
             0%nat [Update 0%nat (serverDoc "new")]).
  - vm_compute. reflexivity.
  - vm_compute. apply list_elem_of_here.
Defined.

(** X20. A key acquired [n] times and then released [n] times, for any [n]
    from 2 on: the entry is still there, counted [n - 1], over the destroyed
    [LiveData], and the upstream watch is still subscribed; one query was
    issued in all. *)
Theorem releases_keep_entry (client : ConvexClient) (q : FunctionReference)
    (queryArgs : value) (v : Value) (n : nat) :
  client_query client q queryArgs = Success v ->
  client_onUpdate client q queryArgs = None ->
  run client (replicate (S (S n)) (Acquire q queryArgs)
              ++ replicate (S (S n)) (Release 0%nat))
  = sharedSession q queryArgs v (Z.of_nat (S n)) false 0.
Proof.
  intros Hq Hw. exact (released_session client q queryArgs v Hq Hw n).
Qed.

Lemma releases_keep_entry_witness :
  run testClient
      (replicate 3 acquire123 ++ replicate 3 (Release 0%nat))
  = sharedSession publicGetServerByDiscordId discordId123
                  (serverDoc "Test Description") 2 false 0.
Proof.
  apply (releases_keep_entry testClient publicGetServerByDiscordId discordId123
           (serverDoc "Test Description") 1 eq_refl eq_refl).
Defined.

(** *** Calls without arguments *)

(** X23. A call without arguments and a call with the empty object get the
    same cache key, and so share one watch; a call with any other argument
    (except [null], which is read as missing) gets another key. *)
Theorem extractArgs_cacheKey (q : FunctionReference) (a : value) :
  cacheKeyOf q (extractArgs []) = cacheKeyOf q (extractArgs [JObj []]) /\
  (cacheKeyOf q (extractArgs [a]) = cacheKeyOf q (extractArgs []) <->
   a = JObj [] \/ a = JNull).
Proof.
  split; [reflexivity|]. split.
  - intros E. apply JsonFacts.cacheKeyOf_eq in E as [_ E].
    apply JsonFacts.enumerated_empty in E.
    destruct a; cbn in E; auto; discriminate E.
  - intros [->| ->]; reflexivity.
Qed.

End LiveQueryMore.

(** ** Message metadata *)

Module MessageBuilderFacts.
Import MessageBuilder.

Lemma orUndefined_lookup {V : Type} (o : gmap string V) (k : string) :
  orUndefined o ≫= (fun m => m !! k) = o !! k.
Proof.
  unfold orUndefined. destruct (Nat.eqb_spec (size o) 0) as [E|E]; [|reflexivity].
  apply map_size_empty_iff in E. subst o. cbn. rewrite lookup_empty. reflexivity.
Qed.

Lemma orUndefined_None {V : Type} (o : gmap string V) :
  orUndefined o = None <-> o = ∅.
Proof.
  unfold orUndefined. destruct (Nat.eqb_spec (size o) 0) as [E|E].
  - apply map_size_empty_iff in E. tauto.
  - split; [discriminate|]. intros ->. rewrite map_size_empty in E. lia.
Qed.

Lemma fold_found_lookup {V : Type} (f : string -> option V)
    (ids : list string) (m0 : gmap string V) (k : string) :
  fold_left
    (fun m id => match f id with Some v => <[id := v]> m | None => m end)
    ids m0 !! k
  = if bool_decide (k ∈ ids)
    then match f k with Some v => Some v | None => m0 !! k end
    else m0 !! k.
Proof.
  revert m0. induction ids as [|id ids IH]; intros m0; cbn [fold_left].
  - rewrite bool_decide_eq_false_2 by apply not_elem_of_nil. reflexivity.
  - rewrite IH. destruct (decide (k = id)) as [->|Hne].
    + rewrite (bool_decide_eq_true_2 (id ∈ id :: ids))
        by apply list_elem_of_here.
      destruct (f id) as [v|] eqn:E.
      * rewrite lookup_insert_eq. destruct (bool_decide (id ∈ ids)); reflexivity.
      * destruct (bool_decide (id ∈ ids)); reflexivity.
    + assert (Hm : (match f id with Some v => <[id := v]> m0 | None => m0 end)
                     !! k = m0 !! k).
      { destruct (f id); [|reflexivity].
        apply lookup_insert_ne. congruence. }
      rewrite Hm.
      rewrite (bool_decide_ext (k ∈ id :: ids) (k ∈ ids)); [reflexivity|].
      rewrite elem_of_cons. tauto.
Qed.

Lemma fold_channels_lookup (mm : MentionMetadata) (sid : string)
    (ids : list string) (m0 : gmap string ChannelMeta) (k : string) :
  fold_left
    (fun channels channelId =>
       match mm_channels mm !! channelId with
       | Some channelMeta => <[channelId := channelMeta]> channels
       | None => <[channelId := unknownChannel sid channelId]> channels
       end)
    ids m0 !! k
  = if bool_decide (k ∈ ids)
    then Some (default (unknownChannel sid k) (mm_channels mm !! k))
    else m0 !! k.
Proof.
  revert m0. induction ids as [|id ids IH]; intros m0; cbn [fold_left].
  - rewrite bool_decide_eq_false_2 by apply not_elem_of_nil. reflexivity.
  - rewrite IH. destruct (decide (k = id)) as [->|Hne].
    + rewrite (bool_decide_eq_true_2 (id ∈ id :: ids))
        by apply list_elem_of_here.
      destruct (bool_decide (id ∈ ids)); [reflexivity|].
      destruct (mm_channels mm !! id); cbn; apply lookup_insert_eq.
    + rewrite (bool_decide_ext (k ∈ id :: ids) (k ∈ ids))
        by (rewrite elem_of_cons; tauto).
      destruct (bool_decide (k ∈ ids)); [reflexivity|].
      destruct (mm_channels mm !! id); apply lookup_insert_ne; congruence.
Qed.

Lemma createInternalLinkLookup_from (links : list InternalLink)
    (m0 : gmap string InternalLink) (k : string) :
  fold_left
    (fun lookup link =>
       match lookup !! il_original link with
       | Some _ => lookup
       | None => <[il_original link := link]> lookup
       end)
    links m0 !! k
  = match m0 !! k with
    | Some l => Some l
    | None => firstWithOriginal k links
    end.
Proof.
  revert m0. induction links as [|link links IH]; intros m0;
    cbn [fold_left firstWithOriginal].
  - destruct (m0 !! k); reflexivity.
  - rewrite IH. destruct (decide (il_original link = k)) as [E|E].
    + rewrite (bool_decide_eq_true_2 _ E). subst k.
      destruct (m0 !! il_original link) as [l|] eqn:Hl.
      * rewrite Hl. reflexivity.
      * rewrite lookup_insert_eq. reflexivity.
    + rewrite (bool_decide_eq_false_2 _ E).
      destruct (m0 !! il_original link) as [l|] eqn:Hl; [reflexivity|].
      rewrite lookup_insert_ne by exact E. reflexivity.
Qed.

Lemma firstWithOriginal_Some (k : string) (links : list InternalLink)
    (l : InternalLink) :
  firstWithOriginal k links = Some l -> l ∈ links /\ il_original l = k.
Proof.
  induction links as [|x links IH]; cbn [firstWithOriginal]; [discriminate|].
  destruct (decide (il_original x = k)) as [E|E].
  - rewrite (bool_decide_eq_true_2 _ E). intros [= <-].
    split; [apply list_elem_of_here|exact E].
  - rewrite (bool_decide_eq_false_2 _ E). intros H.
    destruct (IH H) as [Hin Hk]. split; [apply list_elem_of_further, Hin|exact Hk].
Qed.

Lemma firstWithOriginal_None (k : string) (links : list InternalLink) :
  firstWithOriginal k links = None
  <-> forall l, l ∈ links -> il_original l <> k.
Proof.
  induction links as [|x links IH]; cbn [firstWithOriginal].
  - split; [|reflexivity]. intros _ l Hl. apply not_elem_of_nil in Hl. tauto.
  - destruct (decide (il_original x = k)) as [E|E].
    + rewrite (bool_decide_eq_true_2 _ E). split; [discriminate|].
      intros H. exfalso. exact (H x (list_elem_of_here _ _) E).
    + rewrite (bool_decide_eq_false_2 _ E). rewrite IH. split.
      * intros H l Hl. apply elem_of_cons in Hl as [->|Hl]; [exact E|].
        exact (H l Hl).
      * intros H l Hl. apply H, list_elem_of_further, Hl.
Qed.

(** X25. The lookup built by [createInternalLinkLookup] maps the text of a
    link to the first link of the list that has this text: a later link with
    the same text never replaces it, every link stored comes from the list
    under its own text, and a text has no entry exactly when no link of the
    list has it. *)
Theorem createInternalLinkLookup_first
    (links : list InternalLink) (k : string) :
  createInternalLinkLookup links !! k = firstWithOriginal k links /\
  (forall l, createInternalLinkLookup links !! k = Some l ->
             l ∈ links /\ il_original l = k) /\
  (createInternalLinkLookup links !! k = None
   <-> forall l, l ∈ links -> il_original l <> k) /\
  (forall extra,
     is_Some (createInternalLinkLookup links !! k) ->
     createInternalLinkLookup (links ++ extra) !! k
     = createInternalLinkLookup links !! k).
Proof.
  assert (E : forall ls, createInternalLinkLookup ls !! k
                         = firstWithOriginal k ls).
  { intros ls. unfold createInternalLinkLookup.
    rewrite createInternalLinkLookup_from, lookup_empty. reflexivity. }
  split; [apply E|]. split; [|split].
  - intros l. rewrite E. apply firstWithOriginal_Some.
  - rewrite E. apply firstWithOriginal_None.
  - intros extra [l Hl]. unfold createInternalLinkLookup in *.
    rewrite fold_left_app, createInternalLinkLookup_from, Hl. reflexivity.
Qed.

(** X26. For channel ids that are snowflakes: in the metadata of a message
    every mentioned channel has an entry, and no other channel has one: the
    entry is the channel's metadata where there is one and otherwise the
    placeholder named Unknown Channel, which links to the channel on the
    message's server and is marked as not existing and not indexed.  The
    field is [undefined] exactly when the message mentions no channel. *)
Theorem metadata_channels
    (mm : MentionMetadata) (sid : string) (ids : MentionIds)
    (lookup : gmap string InternalLink) (links : list DiscordLink)
    (c : string) :
  forallb snowflake (channelIds ids) = true ->
  snowflake c = true ->
  let r := buildMessageMetadataRecord mm sid ids lookup links in
  (channels r ≫= (fun cs => cs !! c)
   = if bool_decide (c ∈ channelIds ids)
     then Some (default (unknownChannel sid c) (mm_channels mm !! c))
     else None) /\
  (channels r = None <-> channelIds ids = []) /\
  cm_url (unknownChannel sid c)
  = "https://discord.com/channels/" +:+ sid +:+ "/" +:+ c /\
  cm_exists (unknownChannel sid c) = Some false /\
  indexingEnabled (unknownChannel sid c) = Some false.
Proof.
  intros _ _. cbn zeta. unfold buildMessageMetadataRecord. cbn [channels].
  split; [|split; [|repeat split]].
  - rewrite orUndefined_lookup, fold_channels_lookup, lookup_empty. reflexivity.
  - rewrite orUndefined_None. split.
    + intros H. destruct (channelIds ids) as [|id rest] eqn:E; [reflexivity|].
      exfalso.
      pose proof (fold_channels_lookup mm sid (id :: rest) ∅ id) as L.
      rewrite H, lookup_empty in L.
      rewrite bool_decide_eq_true_2 in L by apply list_elem_of_here.
      discriminate.
    + intros ->. reflexivity.
Qed.

Lemma metadata_channels_witness :
  channels (buildMessageMetadataRecord sampleMentions "100" sampleIds ∅ [])
    ≫= (fun cs => cs !! "201")
  = Some (unknownChannel "100" "201").
Proof.
  destruct (metadata_channels sampleMentions "100" sampleIds ∅ [] "201"
              eq_refl eq_refl) as [H _].
  rewrite H. vm_compute. reflexivity.
Defined.

(** X27. For user ids that are snowflakes: in the metadata of a message the
    mentioned users that have metadata have their entry, and no other user
    has one: a mentioned user without metadata is left out (no placeholder,
    unlike a channel), and so is a user with metadata that the message does
    not mention.  The field is [undefined] exactly when no mentioned user has
    metadata. *)
Theorem metadata_users
    (mm : MentionMetadata) (sid : string) (ids : MentionIds)
    (lookup : gmap string InternalLink) (links : list DiscordLink)
    (u : string) :
  forallb snowflake (userIds ids) = true ->
  snowflake u = true ->
  let r := buildMessageMetadataRecord mm sid ids lookup links in
  (users r ≫= (fun us => us !! u)
   = if bool_decide (u ∈ userIds ids) then mm_users mm !! u else None) /\
  (users r = None
   <-> forall v, v ∈ userIds ids -> mm_users mm !! v = None).
Proof.
  intros _ _. cbn zeta. unfold buildMessageMetadataRecord. cbn [users].
  assert (L : forall k,
            fold_left
              (fun users userId =>
                 match mm_users mm !! userId with
                 | Some user => <[userId := user]> users
                 | None => users
                 end) (userIds ids) (∅ : gmap string UserMeta) !! k
            = if bool_decide (k ∈ userIds ids) then mm_users mm !! k else None).
  { intros k. rewrite (fold_found_lookup (fun id => mm_users mm !! id)).
    rewrite lookup_empty. destruct (mm_users mm !! k); reflexivity. }
  split.
  - rewrite orUndefined_lookup. apply L.
  - rewrite orUndefined_None. split.
    + intros H v Hv. specialize (L v). rewrite H, lookup_empty in L.
      rewrite bool_decide_eq_true_2 in L by exact Hv. symmetry. exact L.
    + intros H. apply map_eq. intros k. rewrite L, lookup_empty.
      destruct (decide (k ∈ userIds ids)) as [Hk|Hk].
      * rewrite bool_decide_eq_true_2 by exact Hk. apply H, Hk.
      * rewrite bool_decide_eq_false_2 by exact Hk. reflexivity.
Qed.

Lemma metadata_users_witness :
  users (buildMessageMetadataRecord sampleMentions "100" sampleIds ∅ [])
    ≫= (fun us => us !! "301")
  = None.
Proof.
  destruct (metadata_users sampleMentions "100" sampleIds ∅ [] "301"
              eq_refl eq_refl) as [H _].
  rewrite H. vm_compute. reflexivity.
Defined.

(** X15. The internal links of a message's metadata, resolved through the
    lookup built from the candidate links: they are, in the order of the
    message's links, the first candidate with the text of each link that has
    one; so every one of them is a candidate carrying the text of some link
    of the message, and the field is [undefined], never an empty array, when
    no link resolves. *)
Theorem metadata_internalLinks
    (mm : MentionMetadata) (sid : string) (ids : MentionIds)
    (candidates : list InternalLink) (links : list DiscordLink) :
  let r := buildMessageMetadataRecord mm sid ids
             (createInternalLinkLookup candidates) links in
  default [] (internalLinks r)
  = omap (fun link => firstWithOriginal (dl_original link) candidates) links /\
  internalLinks r <> Some [] /\
  (internalLinks r = None
   <-> forall link l, link ∈ links -> l ∈ candidates ->
                      il_original l <> dl_original link) /\
  (forall l, l ∈ default [] (internalLinks r) ->
     l ∈ candidates /\
     exists link, link ∈ links /\ dl_original link = il_original l).
Proof.
  cbn zeta. unfold buildMessageMetadataRecord. cbn [internalLinks].
  assert (E : omap (fun link => createInternalLinkLookup candidates
                                  !! dl_original link) links
              = omap (fun link => firstWithOriginal (dl_original link)
                                    candidates) links).
  { induction links as [|link links IH]; [reflexivity|].
    cbn [omap list_omap]. rewrite IH.
    unfold createInternalLinkLookup at 1.
    rewrite createInternalLinkLookup_from, lookup_empty. reflexivity. }
  rewrite E. clear E.
  set (out := omap (fun link => firstWithOriginal (dl_original link)
                                  candidates) links).
  assert (Hout : forall l, l ∈ out <->
            exists link, link ∈ links /\
              firstWithOriginal (dl_original link) candidates = Some l)
    by (intros l; apply list_elem_of_omap).
  split; [|split; [|split]].
  - destruct out; reflexivity.
  - destruct out; [discriminate|]. intros [= H].
  - split.
    + intros H link l Hlink Hl.
      assert (Hnil : out = []) by (destruct out; [reflexivity|discriminate]).
      destruct (firstWithOriginal (dl_original link) candidates) as [x|] eqn:F.
      * exfalso. assert (Hx : x ∈ out) by (apply Hout; eauto).
        rewrite Hnil in Hx. apply not_elem_of_nil in Hx. exact Hx.
      * apply firstWithOriginal_None with (l := l) in F; assumption.
    + intros H. destruct out as [|x out'] eqn:Eo; [reflexivity|]. exfalso.
      assert (Hx : x ∈ x :: out') by apply list_elem_of_here.
      apply Hout in Hx as (link & Hlink & F).
      apply firstWithOriginal_Some in F as [Hc Ho].
      exact (H link x Hlink Hc Ho).
  - intros l Hl.
    assert (Hl' : l ∈ out) by (destruct out; exact Hl).
    apply Hout in Hl' as (link & Hlink & F).
    apply firstWithOriginal_Some in F as [Hc Ho].
    split; [exact Hc|]. exists link. split; [exact Hlink|]. symmetry. exact Ho.
Qed.

End MessageBuilderFacts.
